(** * Browser text-to-speech fallback: synthetic waveform and WAV encoder

    A shallow embedding of [src/lib/browser-tts.ts] (class [BrowserTTS]),
    and of the two helpers of the component [AudioPlayer] that compute a
    string ([formatTime] and [handleDownload]).

    - JavaScript strings are sequences of code units; the embedding covers the
      code units U+0000..U+00FF, one [ascii] per code unit.
    - JavaScript numbers are IEEE 754 binary64 values: the primitive [float].
    - [Math.sin] is implementation-approximated in ECMAScript; it is a
      parameter of the synthesizer.
    - Promises are embedded as their settled outcome ([Rejected]/[Resolved]). *)

From Stdlib Require Import ZArith Ascii String List Bool Lia.
From Stdlib Require Import QArith Qpower Qround Lqa.
From Stdlib Require Import Floats Uint63.
Import ListNotations.

Set Warnings "-inexact-float".

Open Scope Z_scope.

(** ** Strings *)

Module JS.

Definition JSString := list ascii.

(** A string literal of the source. *)
Definition str (s : string) : JSString := list_ascii_of_string s.

(** [String.prototype.charCodeAt] on one code unit. *)
Definition codeUnit (c : ascii) : Z := Z.of_N (N_of_ascii c).

Definition fromCodeUnit (n : Z) : ascii := ascii_of_N (Z.to_N n).

(** The class [\s] of a regular expression, which is also what
    [String.prototype.trim] strips: TAB, LF, VT, FF, CR, SPACE and NBSP are
    its members below U+0100. *)
Definition isWhiteSpace (c : ascii) : bool :=
  let n := codeUnit c in
  ((9 <=? n) && (n <=? 13)) || (n =? 32) || (n =? 160).

(** [String.prototype.toLowerCase] on one code unit: A-Z and the Latin-1
    capitals U+00C0..U+00DE (but not the multiplication sign U+00D7). *)
Definition toLowerUnit (c : ascii) : ascii :=
  let n := codeUnit c in
  if ((65 <=? n) && (n <=? 90))
     || ((192 <=? n) && (n <=? 222) && negb (n =? 215))
  then fromCodeUnit (n + 32)
  else c.

Definition toLowerCase (s : JSString) : JSString := map toLowerUnit s.

Fixpoint startsWith (s p : JSString) : bool :=
  match p, s with
  | [], _ => true
  | _ :: _, [] => false
  | b :: p', a :: s' => Ascii.eqb a b && startsWith s' p'
  end.

(** [String.prototype.includes]: some suffix of [s] starts with [p]. *)
Fixpoint includes (s p : JSString) : bool :=
  startsWith s p ||
  match s with
  | [] => false
  | _ :: s' => includes s' p
  end.

Fixpoint trimStart (s : JSString) : JSString :=
  match s with
  | [] => []
  | c :: s' => if isWhiteSpace c then trimStart s' else s
  end.

Fixpoint trimEnd (s : JSString) : JSString :=
  match s with
  | [] => []
  | c :: s' =>
      match trimEnd s' with
      | [] => if isWhiteSpace c then [] else [c]
      | r => c :: r
      end
  end.

Definition trim (s : JSString) : JSString := trimEnd (trimStart s).

(** [s.split(/\s+/)]: every maximal run of white space is one separator.
    [cur] is the piece being read; [inSep] says that the previous code unit
    belonged to a separator. The empty string gives one empty piece. *)
Fixpoint splitLoop (inSep : bool) (cur : JSString) (s : JSString)
  : list JSString :=
  match s with
  | [] => [cur]
  | c :: s' =>
      if isWhiteSpace c
      then if inSep then splitLoop true cur s'
           else cur :: splitLoop true [] s'
      else splitLoop false (cur ++ [c]) s'
  end.

Definition splitWhitespace (s : JSString) : list JSString :=
  splitLoop false [] s.

End JS.

Import JS.

(** ** Numbers *)

Module Num.

#[local] Open Scope float_scope.

(** The Number value of a non-negative integer below 2^63 (array lengths,
    loop counters, sample rates); negative integers by symmetry. *)
Definition ofZ (z : Z) : float :=
  if (z <? 0)%Z then - of_uint63 (Uint63.of_Z (- z)) else of_uint63 (Uint63.of_Z z).

Definition Math_PI : float := 0x1.921fb54442d18p+1.

(** [Math.max] and [Math.min] of two arguments: NaN if either is NaN, and
    +0 is larger than -0. *)
Definition Math_max (a b : float) : float :=
  if is_nan a || is_nan b then nan
  else if a <? b then b
  else if b <? a then a
  else if get_sign a then b else a.

Definition Math_min (a b : float) : float :=
  if is_nan a || is_nan b then nan
  else if a <? b then a
  else if b <? a then b
  else if get_sign a then a else b.

(** The mathematical integer below (or equal to) a finite value. *)
Definition SFfloor (x : spec_float) : option Z :=
  match x with
  | S754_zero _ => Some 0%Z
  | S754_finite s m e => Some (Z.shiftl (cond_Zopp s (Zpos m)) e)
  | S754_infinity _ | S754_nan => None
  end.

(** The mathematical integer obtained by dropping the fraction. *)
Definition SFtrunc (x : spec_float) : option Z :=
  match x with
  | S754_zero _ => Some 0%Z
  | S754_finite s m e => Some (cond_Zopp s (Z.shiftl (Zpos m) e))
  | S754_infinity _ | S754_nan => None
  end.

(** [Math.floor], read as an integer; [None] stands for the results NaN and
    +-Infinity, which are not integers. *)
Definition Math_floor (x : float) : option Z := SFfloor (Prim2SF x).

(** ECMAScript ToInt16: NaN and the infinities give 0; a finite value is
    truncated, reduced modulo 2^16 and read in two's complement. *)
Definition ToInt16 (x : float) : Z :=
  match SFtrunc (Prim2SF x) with
  | None => 0%Z
  | Some t => let k := (t mod 65536)%Z in
              if (32768 <=? k)%Z then (k - 65536)%Z else k
  end.

(** [Math.fround], the rounding a [Float32Array] element store applies:
    round to nearest-even in binary32, overflowing to an infinity. *)
Definition Math_fround (x : float) : float :=
  match Prim2SF x with
  | S754_finite s m e => SF2Prim (binary_round 24 128 s m e)
  | _ => x
  end.

End Num.

Import Num.

(** ** Exceptions and promises *)

Inductive JSError :=
| TypeError
| RangeError
| Error (message : JSString).

(** A computation that may throw. *)
Inductive Exc (A : Type) :=
| Throw (e : JSError)
| Ok (a : A).
Arguments Throw {A} e.
Arguments Ok {A} a.

Definition bindExc {A B} (c : Exc A) (k : A -> Exc B) : Exc B :=
  match c with
  | Throw e => Throw e
  | Ok a => k a
  end.

Notation "x <- c ;; k" := (bindExc c (fun x => k))
  (at level 61, c at next level, right associativity).

(** A promise, by the way it settles. *)
Inductive Promise (A : Type) :=
| Rejected (e : JSError)
| Resolved (a : A).
Arguments Rejected {A} e.
Arguments Resolved {A} a.

(** [new Promise((resolve, reject) => { try { ... resolve(v) } catch (e) { reject(e) } })] *)
Definition settle {A} (c : Exc A) : Promise A :=
  match c with
  | Throw e => Rejected e
  | Ok a => Resolved a
  end.

(** [for (let i = start; i < start + n; i++) body] over a state that the
    body may replace or abandon by throwing. *)
Fixpoint forLoop {St : Type} (n : nat) (i : nat) (body : nat -> St -> Exc St) (s : St)
  : Exc St :=
  match n with
  | O => Ok s
  | S n' => s' <- body i s ;; forLoop n' (S i) body s'
  end.

(** An indexed store into an array: [a[k] = v]. A typed array ignores a
    store past its end. *)
Fixpoint upd {A : Type} (l : list A) (k : nat) (v : A) : list A :=
  match l, k with
  | [], _ => []
  | _ :: l', O => v :: l'
  | a :: l', S k' => a :: upd l' k' v
  end.

(** ** ArrayBuffer and DataView *)

(** The bytes of an [ArrayBuffer], each in 0..255. *)
Definition ArrayBuffer := list Z.

Definition newArrayBuffer (n : nat) : ArrayBuffer := repeat 0 n.

(** Every [DataView] setter throws a RangeError when the bytes it writes
    do not all lie inside the buffer. *)
Definition setUint8 (view : ArrayBuffer) (offset : nat) (value : Z) : Exc ArrayBuffer :=
  if (offset + 1 <=? length view)%nat
  then Ok (upd view offset (value mod 256))
  else Throw RangeError.

(** [setUint16(offset, value, true)]: the value modulo 2^16, low byte first. *)
Definition setUint16 (view : ArrayBuffer) (offset : nat) (value : Z) : Exc ArrayBuffer :=
  if (offset + 2 <=? length view)%nat
  then let v := value mod 65536 in
       Ok (upd (upd view offset (v mod 256)) (offset + 1) (v / 256))
  else Throw RangeError.

(** [setUint32(offset, value, true)]: the value modulo 2^32, low byte first. *)
Definition setUint32 (view : ArrayBuffer) (offset : nat) (value : Z) : Exc ArrayBuffer :=
  if (offset + 4 <=? length view)%nat
  then let v := value mod 4294967296 in
       Ok (upd (upd (upd (upd view
             offset (v mod 256))
             (offset + 1) (v / 256 mod 256))
             (offset + 2) (v / 65536 mod 256))
             (offset + 3) (v / 16777216))
  else Throw RangeError.

(** [setInt16(offset, value, true)] of a Number: ToInt16, then the two's
    complement bytes, low byte first. *)
Definition setInt16 (view : ArrayBuffer) (offset : nat) (value : float) : Exc ArrayBuffer :=
  setUint16 view offset (ToInt16 value).

(** ** AudioBuffer *)

Record AudioBuffer := {
  buffer_length : nat;
  numberOfChannels : nat;
  sampleRate : Z;
  channels : list (list float)
}.

(** [buffer.getChannelData(channel)[i]]; reading past the end of a typed
    array gives [undefined], which arithmetic turns into NaN. *)
Definition getChannelData (buffer : AudioBuffer) (channel : nat) : list float :=
  nth channel (channels buffer) [].

Definition getSample (data : list float) (i : nat) : float := nth i data nan.

(** [audioContext.createBuffer(numberOfChannels, length, sampleRate)]:
    silence. The rate is the context's own and the length is the frame
    count just computed; the platform is taken to accept both. *)
Definition createBuffer (nChannels : nat) (len : nat) (rate : Z) : AudioBuffer :=
  {| buffer_length := len;
     numberOfChannels := nChannels;
     sampleRate := rate;
     channels := repeat (repeat 0%float len) nChannels |}.

(** ** The WAV encoder: [audioBufferToWav] *)

(** The closure [writeString] of the source. *)
Definition writeString (view : ArrayBuffer) (offset : nat) (s : JSString) : Exc ArrayBuffer :=
  forLoop (length s) 0
    (fun i view => setUint8 view (offset + i) (codeUnit (nth i s Ascii.zero)))
    view.

(** The sample a PCM slot is computed from, and its quantisation. *)
Definition clampSample (x : float) : float := Math_max (-1)%float (Math_min 1%float x).

Definition pcm16 (x : float) : Z := ToInt16 (clampSample x * 0x7FFF)%float.

Definition writeHeader (buffer : AudioBuffer) (view : ArrayBuffer) : Exc ArrayBuffer :=
  let len := Z.of_nat (buffer_length buffer) in
  let nCh := Z.of_nat (numberOfChannels buffer) in
  let rate := sampleRate buffer in
  view <- writeString view 0 (str "RIFF") ;;
  view <- setUint32 view 4 (36 + len * nCh * 2) ;;
  view <- writeString view 8 (str "WAVE") ;;
  view <- writeString view 12 (str "fmt ") ;;
  view <- setUint32 view 16 16 ;;
  view <- setUint16 view 20 1 ;;
  view <- setUint16 view 22 nCh ;;
  view <- setUint32 view 24 rate ;;
  view <- setUint32 view 28 (rate * nCh * 2) ;;
  view <- setUint16 view 32 (nCh * 2) ;;
  view <- setUint16 view 34 16 ;;
  view <- writeString view 36 (str "data") ;;
  setUint32 view 40 (len * nCh * 2).

(** The two nested loops that convert the float samples to 16-bit PCM; the
    state is the view and the running [offset]. *)
Definition writeSamples (buffer : AudioBuffer) (view : ArrayBuffer)
  : Exc (ArrayBuffer * nat) :=
  forLoop (buffer_length buffer) 0
    (fun i st =>
       forLoop (numberOfChannels buffer) 0
         (fun channel '(view, offset) =>
            let sample := clampSample (getSample (getChannelData buffer channel) i) in
            view <- setInt16 view offset (sample * 0x7FFF)%float ;;
            Ok (view, (offset + 2)%nat))
         st)
    (view, 44%nat).

Definition audioBufferToWav (buffer : AudioBuffer) : Exc ArrayBuffer :=
  let arrayBuffer :=
    newArrayBuffer (44 + buffer_length buffer * numberOfChannels buffer * 2) in
  view <- writeHeader buffer arrayBuffer ;;
  st <- writeSamples buffer view ;;
  Ok (fst st).

(** ** The synthesizer: [createSyntheticAudio] *)

Record Blob := { blob_parts : ArrayBuffer; blob_type : JSString }.

(** What the page offers: the speech-synthesis handle (with the voices it
    lists) and the sample rate of a fresh [AudioContext], each possibly
    missing. *)
Record SpeechSynthesisVoice := { voice_name : JSString; voice_lang : JSString }.

Record SpeechSynthesis := { getVoices : list SpeechSynthesisVoice }.

Record Window := {
  speechSynthesis : option SpeechSynthesis;
  audioContext_sampleRate : option Z
}.

(** [x || d] on Numbers: NaN and the zeros are falsy. *)
Definition numberOr (x d : float) : float :=
  if PrimFloat.is_nan x || PrimFloat.is_zero x then d else x.

(** [s.charCodeAt(k)]: NaN past the end. *)
Definition charCodeAt (s : JSString) (k : nat) : float :=
  match nth_error s k with
  | Some c => ofZ (codeUnit c)
  | None => nan
  end.

(** [a[index] || ''] for an array of strings and a Number that
    [Math.floor] produced: [undefined] for an index that is no element. *)
Definition elementOrEmpty (a : list JSString) (index : option Z) : JSString :=
  match index with
  | Some k => if k <? 0 then [] else nth (Z.to_nat k) a []
  | None => []
  end.

Definition wordsPerMinute : float := 150%float.

Definition wordCount (text : JSString) : Z :=
  Z.of_nat (length (splitWhitespace (trim text))).

Definition durationSeconds (text : JSString) : float :=
  Math_max 2%float ((ofZ (wordCount text) / wordsPerMinute) * 60)%float.

(** [Math.floor(durationSeconds * sampleRate)] *)
Definition samples (text : JSString) (rate : Z) : option Z :=
  Math_floor (durationSeconds text * ofZ rate)%float.

(** The trip count of [for (let i = 0; i < samples; i++)], which is also
    the frame count handed to [createBuffer]. *)
Definition sampleCount (text : JSString) (rate : Z) : nat :=
  match samples text rate with
  | Some n => Z.to_nat n
  | None => O
  end.

Definition frequency (voiceName : JSString) : float :=
  if includes (toLowerCase voiceName) (str "male") then 120%float else 200%float.

Definition words (text : JSString) : list JSString :=
  splitWhitespace (toLowerCase text).

Section Synthesizer.

Variable Math_sin : float -> float.

#[local] Open Scope float_scope.

Section Sample.

Variables (text voiceName : JSString) (rate : Z) (i : nat).

Definition sample_t : float := ofZ (Z.of_nat i) / ofZ rate.

Definition sample_progress : float := sample_t / durationSeconds text.

Definition wordIndex : option Z :=
  Math_floor (sample_progress * ofZ (Z.of_nat (length (words text)))).

Definition currentWord : JSString := elementOrEmpty (words text) wordIndex.

Definition wordFreq : float :=
  frequency voiceName + (ofZ (Z.of_nat (length currentWord)) * 5).

Definition charCode : float := numberOr (charCodeAt currentWord 0) 65.

Definition modulation : float :=
  Math_sin (sample_t * Math_PI * 0.5 + charCode) * 0.3.

Definition fundamental : float := Math_sin (2 * Math_PI * wordFreq * sample_t).

Definition formant1 : float :=
  Math_sin (2 * Math_PI * wordFreq * 2.5 * sample_t) * 0.3.

Definition formant2 : float :=
  Math_sin (2 * Math_PI * wordFreq * 3.5 * sample_t) * 0.2.

Definition envelope : float := Math_sin (Math_PI * sample_progress) * 0.8.

(** The constant [sample] of the loop body. *)
Definition sample : float :=
  (fundamental + formant1 + formant2 + modulation) * envelope * 0.2.

End Sample.

(** The loop [for (let i = 0; i < samples; i++) { ...; channelData[i] = sample }]
    over the [Float32Array] of channel 0, whose element store rounds to
    binary32. *)
Definition fillChannel (text voiceName : JSString) (rate : Z) (n : nat)
  (channelData : list float) : list float :=
  fold_left
    (fun data i => upd data i (Math_fround (sample text voiceName rate i)))
    (seq 0 n) channelData.

(** The [AudioBuffer] as it stands when the loop is over. *)
Definition synthesizeBuffer (text voiceName : JSString) (rate : Z) : AudioBuffer :=
  let n := sampleCount text rate in
  let audioBuffer := createBuffer 1 n rate in
  {| buffer_length := buffer_length audioBuffer;
     numberOfChannels := numberOfChannels audioBuffer;
     sampleRate := sampleRate audioBuffer;
     channels := [fillChannel text voiceName rate n (getChannelData audioBuffer 0)] |}.

(** [window.AudioContext || window.webkitAudioContext] is [undefined] on a
    page without Web Audio, and [new undefined()] throws a TypeError that
    the [try] block turns into a rejection. *)
Definition createSyntheticAudio (window : Window) (text voiceName : JSString)
  : Promise Blob :=
  settle
    (match audioContext_sampleRate window with
     | None => Throw TypeError
     | Some rate =>
         wavBuffer <- audioBufferToWav (synthesizeBuffer text voiceName rate) ;;
         Ok {| blob_parts := wavBuffer; blob_type := str "audio/wav" |}
     end).

End Synthesizer.

(** ** The class [BrowserTTS] *)

Record BrowserTTS := {
  synth : option SpeechSynthesis;
  voices : list SpeechSynthesisVoice
}.

(** The constructor with [loadVoices] inlined; [None] is a script running
    where [window] is undefined. A later [voiceschanged] event replaces
    [voices] by the list of that moment. *)
Definition newBrowserTTS (window : option Window) : BrowserTTS :=
  match window with
  | Some w =>
      match speechSynthesis w with
      | Some s => {| synth := Some s; voices := getVoices s |}
      | None => {| synth := None; voices := [] |}
      end
  | None => {| synth := None; voices := [] |}
  end.

Definition isSupported (window : option Window) : bool :=
  match window with
  | Some w => match speechSynthesis w with Some _ => true | None => false end
  | None => false
  end.

Record SpeechSynthesisUtterance := {
  utterance_text : JSString;
  utterance_voice : option SpeechSynthesisVoice;
  utterance_rate : float;
  utterance_pitch : float;
  utterance_volume : float
}.

Definition newUtterance (text : JSString) : SpeechSynthesisUtterance :=
  {| utterance_text := text;
     utterance_voice := None;
     utterance_rate := 1%float;
     utterance_pitch := 1%float;
     utterance_volume := 1%float |}.

Definition strEqb (a b : JSString) : bool :=
  if list_eq_dec ascii_dec a b then true else false.

Record Characteristics := { gender : JSString; lang : JSString }.

Definition voiceMap : list (JSString * Characteristics) :=
  [ (str "voice-male-professional-1", {| gender := str "male"; lang := str "en-US" |});
    (str "voice-female-professional-1", {| gender := str "female"; lang := str "en-US" |});
    (str "voice-male-casual-1", {| gender := str "male"; lang := str "en-US" |});
    (str "voice-female-casual-1", {| gender := str "female"; lang := str "en-US" |});
    (str "voice-male-british-1", {| gender := str "male"; lang := str "en-GB" |});
    (str "voice-female-british-1", {| gender := str "female"; lang := str "en-GB" |});
    (str "voice-male-narrative-1", {| gender := str "male"; lang := str "en-US" |});
    (str "voice-female-narrative-1", {| gender := str "female"; lang := str "en-US" |});
    (str "voice-male-news-1", {| gender := str "male"; lang := str "en-US" |});
    (str "voice-female-news-1", {| gender := str "female"; lang := str "en-US" |}) ].

(** [voiceMap[voiceId] || { gender: 'female', lang: 'en-US' }], for the
    keys the object literal itself defines. *)
Definition characteristicsOf (voiceId : JSString) : Characteristics :=
  match find (fun kv => strEqb (fst kv) voiceId) voiceMap with
  | Some kv => snd kv
  | None => {| gender := str "female"; lang := str "en-US" |}
  end.

(** [s.split('-')[0]] *)
Fixpoint beforeDash (s : JSString) : JSString :=
  match s with
  | [] => []
  | c :: s' => if Ascii.eqb c "-"%char then [] else c :: beforeDash s'
  end.

Definition orFind {A} (found : option A) (again : option A) : option A :=
  match found with
  | Some a => Some a
  | None => again
  end.

Definition selectVoiceByCharacteristics (tts : BrowserTTS) (voiceId : JSString)
  : option SpeechSynthesisVoice :=
  match voices tts with
  | [] => None
  | first :: _ =>
      let characteristics := characteristicsOf voiceId in
      let selectedVoice :=
        find (fun voice =>
                strEqb (voice_lang voice) (lang characteristics)
                && includes (toLowerCase (voice_name voice)) (gender characteristics))
             (voices tts) in
      let selectedVoice :=
        orFind selectedVoice
          (find (fun voice =>
                   startsWith (voice_lang voice) (beforeDash (lang characteristics))
                   && includes (toLowerCase (voice_name voice)) (gender characteristics))
                (voices tts)) in
      let selectedVoice :=
        orFind selectedVoice
          (find (fun voice => startsWith (voice_lang voice) (str "en")) (voices tts)) in
      orFind selectedVoice (Some first)
  end.

Definition configureUtterance (utterance : SpeechSynthesisUtterance) (voiceId : JSString)
  : SpeechSynthesisUtterance :=
  let set rate pitch :=
    {| utterance_text := utterance_text utterance;
       utterance_voice := utterance_voice utterance;
       utterance_rate := rate;
       utterance_pitch := pitch;
       utterance_volume := 1%float |} in
  if includes voiceId (str "professional") then set 0.9%float 1.0%float
  else if includes voiceId (str "casual") then set 1.0%float 1.1%float
  else if includes voiceId (str "narrative") then set 0.8%float 0.9%float
  else if includes voiceId (str "news") then set 0.95%float 1.0%float
  else set (utterance_rate utterance) (utterance_pitch utterance).

Section Speech.

Variable Math_sin : float -> float.

(** [utterance.voice?.name || 'default'] *)
Definition voiceNameOf (utterance : SpeechSynthesisUtterance) : JSString :=
  match utterance_voice utterance with
  | Some v => match voice_name v with
              | [] => str "default"
              | name => name
              end
  | None => str "default"
  end.

(** The promise of [captureAudio], and the utterances handed to
    [synth.speak] meanwhile. *)
Definition captureAudio (window : Window) (utterance : SpeechSynthesisUtterance)
  : Promise Blob * list SpeechSynthesisUtterance :=
  (createSyntheticAudio Math_sin window (utterance_text utterance) (voiceNameOf utterance),
   [utterance]).

Definition generateSpeech (window : Window) (tts : BrowserTTS) (text voiceId : JSString)
  : Promise Blob * list SpeechSynthesisUtterance :=
  match synth tts with
  | None => (Rejected (Error (str "Speech synthesis not supported")), [])
  | Some _ =>
      let utterance := newUtterance text in
      let utterance :=
        match selectVoiceByCharacteristics tts voiceId with
        | Some voice =>
            {| utterance_text := utterance_text utterance;
               utterance_voice := Some voice;
               utterance_rate := utterance_rate utterance;
               utterance_pitch := utterance_pitch utterance;
               utterance_volume := utterance_volume utterance |}
        | None => utterance
        end in
      let utterance := configureUtterance utterance voiceId in
      captureAudio window utterance
  end.

End Speech.

(** ** The specification's vocabulary *)

(** The white-space-delimited tokens of a string: its maximal runs of
    code units that are not white space. *)
Fixpoint tokensFrom (cur : JSString) (s : JSString) : list JSString :=
  match s with
  | [] => match cur with [] => [] | _ => [cur] end
  | c :: s' =>
      if isWhiteSpace c
      then match cur with
           | [] => tokensFrom [] s'
           | _ => cur :: tokensFrom [] s'
           end
      else tokensFrom (cur ++ [c]) s'
  end.

Definition tokens (s : JSString) : list JSString := tokensFrom [] s.

(** The number of tokens of the trimmed text, at least 1. *)
Definition specWordCount (text : JSString) : Z :=
  Z.max 1 (Z.of_nat (length (tokens (trim text)))).

(** [floor(max(2.0, wordCount/150*60) * r)] *)
Definition specSampleCount (text : JSString) (rate : Z) : option Z :=
  Math_floor (Math_max 2 ((ofZ (specWordCount text) / 150) * 60) * ofZ rate)%float.

(** [s] contains [p] when the case of letters is ignored. *)
Definition containsIgnoringCase (s p : JSString) : Prop :=
  exists pre w post, s = pre ++ w ++ post /\ toLowerCase w = toLowerCase p.

(** [Math.round]: the integer nearest to the value, a tie going up. *)
Definition Math_round (x : float) : option Z := Math_floor (x + 0.5)%float.

(** The quantisation the specification words: clamp, then round. *)
Definition specPcm16 (x : float) : option Z :=
  Math_round (clampSample x * 32767)%float.

(** The character code the specification words for the modulation. *)
Definition specCharCode (word : JSString) : float :=
  match word with
  | [] => 65%float
  | c :: _ => ofZ (codeUnit c)
  end.

(** Little-endian fields. *)
Definition le16 (v : Z) : list Z :=
  let v := v mod 65536 in [v mod 256; v / 256].

Definition le32 (v : Z) : list Z :=
  let v := v mod 4294967296 in
  [v mod 256; v / 256 mod 256; v / 65536 mod 256; v / 16777216].

(** The header table of the specification, field by field. *)
Definition wavHeader (frames nChannels rate : Z) : list Z :=
  map codeUnit (str "RIFF")
  ++ le32 (36 + frames * nChannels * 2)
  ++ map codeUnit (str "WAVE")
  ++ map codeUnit (str "fmt ")
  ++ le32 16
  ++ le16 1
  ++ le16 nChannels
  ++ le32 rate
  ++ le32 (rate * nChannels * 2)
  ++ le16 (nChannels * 2)
  ++ le16 16
  ++ map codeUnit (str "data")
  ++ le32 (frames * nChannels * 2).

(** The interleaved PCM payload: frame by frame, channel by channel. *)
Definition frameBytes (buffer : AudioBuffer) (i : nat) : list Z :=
  flat_map (fun channel => le16 (pcm16 (getSample (getChannelData buffer channel) i)))
           (seq 0 (numberOfChannels buffer)).

Definition payloadBytes (buffer : AudioBuffer) : list Z :=
  flat_map (frameBytes buffer) (seq 0 (buffer_length buffer)).

(** A reader of the header, for the round trip. *)
Definition readUint16 (bytes : list Z) (offset : nat) : Z :=
  nth offset bytes 0 + 256 * nth (offset + 1) bytes 0.

Definition readUint32 (bytes : list Z) (offset : nat) : Z :=
  nth offset bytes 0 + 256 * nth (offset + 1) bytes 0
  + 65536 * nth (offset + 2) bytes 0 + 16777216 * nth (offset + 3) bytes 0.

Definition readInt16 (bytes : list Z) (offset : nat) : Z :=
  let u := readUint16 bytes offset in
  if 32768 <=? u then u - 65536 else u.

Record WavFormat := {
  fmt_sampleRate : Z;
  fmt_channelCount : Z;
  fmt_bitDepth : Z;
  fmt_dataBytes : Z
}.

Definition decodeHeader (bytes : list Z) : WavFormat :=
  {| fmt_sampleRate := readUint32 bytes 24;
     fmt_channelCount := readUint16 bytes 22;
     fmt_bitDepth := readUint16 bytes 34;
     fmt_dataBytes := readUint32 bytes 40 |}.

(** The text begins, or ends, with white space. *)
Definition leadingWhiteSpace (s : JSString) : bool :=
  match s with
  | c :: _ => isWhiteSpace c
  | [] => false
  end.

Definition trailingWhiteSpace (s : JSString) : bool := leadingWhiteSpace (rev s).

(** The character code of the modulation with the fallback as the code
    has it: 65 for an empty word and for a word that begins with U+0000. *)
Definition charCodeOrDefault (word : JSString) : float :=
  match word with
  | [] => 65%float
  | c :: _ => if codeUnit c =? 0 then 65%float else ofZ (codeUnit c)
  end.

(** ** Auxiliary notions *)

(** The last code unit of a non-empty string is not white space. *)
Fixpoint endsNonWs (s : JSString) : bool :=
  match s with
  | [] => true
  | c :: s' =>
      match s' with
      | [] => negb (isWhiteSpace c)
      | _ => endsNonWs s'
      end
  end.

Definition startsNonWs (s : JSString) : bool :=
  match s with
  | [] => false
  | c :: _ => negb (isWhiteSpace c)
  end.

(** ** Floating-point values as rationals *)

(** Something was shifted out. *)
Definition inexact (mrs : shr_record) : bool := shr_r mrs || shr_s mrs.

(** What [binary_round_aux] returns, as a mantissa and an exponent. *)
Definition SFmake (prc emx : Z) (s : bool) (m e : Z) : spec_float :=
  match m with
  | Z0 => S754_zero s
  | Zpos p => if e <=? emx - prc then S754_finite s p e else S754_infinity s
  | Zneg _ => S754_nan
  end.

(** The dyadic rational [m * 2^e]. *)
Definition dy (m e : Z) : Q := (inject_Z m * 2 ^ e)%Q.

Definition SFfinite (x : spec_float) : bool :=
  match x with
  | S754_zero _ | S754_finite _ _ _ => true
  | S754_infinity _ | S754_nan => false
  end.

(** The magnitude and the value of a finite number (0 for the others). *)
Definition SFmag (x : spec_float) : Q :=
  match x with
  | S754_finite _ m e => dy (Zpos m) e
  | _ => 0%Q
  end.

Definition SFneg (x : spec_float) : bool :=
  match x with
  | S754_zero s | S754_infinity s | S754_finite s _ _ => s
  | S754_nan => false
  end.

Definition SFval (x : spec_float) : Q :=
  if SFneg x then (- SFmag x)%Q else SFmag x.

(** A finite number in canonical form. *)
Definition canonical (prc emx : Z) (m : positive) (e : Z) : Prop :=
  SpecFloat.fexp prc emx (Zdigits2 (Zpos m) + e) = e /\ e <= emx - prc.

Definition SFnonzero (x : spec_float) : bool :=
  match x with
  | S754_finite _ _ _ => true
  | _ => false
  end.

(** ** Binary64 numbers and their rational values *)

Definition finite (x : float) : bool := SFfinite (Prim2SF x).
Definition mag (x : float) : Q := SFmag (Prim2SF x).
Definition neg (x : float) : bool := SFneg (Prim2SF x).
Definition val (x : float) : Q := SFval (Prim2SF x).

(** [B] is the magnitude of some binary64 number. *)
Definition repr64 (B : Q) : Prop :=
  exists K eK, 0 <= K < 2 ^ 53 /\ -1074 <= eK <= 971 /\ (B == dy K eK)%Q.

Definition nonzero (x : float) : bool := SFnonzero (Prim2SF x).

(** ** Bounds *)

(** A number that is finite and at most [2^k] in magnitude. *)
Definition within (x : float) (k : Z) : Prop :=
  finite x = true /\ (mag x <= dy 1 k)%Q.

(** A finite number of magnitude at most [B]. *)
Definition atMost (x : float) (B : Q) : Prop :=
  finite x = true /\ (mag x <= B)%Q.

(** Closed goals on numerals, by evaluation. *)
Ltac by_computation := vm_compute; first [reflexivity | discriminate | intuition discriminate].

(** ** Inputs of the examples *)

(** A two-frame mono buffer with a sample far out of range and a NaN. *)
Definition smallBuffer : AudioBuffer :=
  {| buffer_length := 2;
     numberOfChannels := 1;
     sampleRate := 8000;
     channels := [[1e300%float; nan]] |}.

(** A one-frame mono buffer holding 0.25. *)
Definition quarterBuffer : AudioBuffer :=
  {| buffer_length := 1;
     numberOfChannels := 1;
     sampleRate := 8000;
     channels := [[0.25%float]] |}.

(** A page without speech synthesis whose [AudioContext] runs at 8000 Hz. *)
Definition silentPage : Window :=
  {| speechSynthesis := None; audioContext_sampleRate := Some 8000 |}.

(** A stand-in for [Math.sin] at its largest value everywhere. *)
Definition sinAtPeak : float -> float := fun _ => 1%float.

(** The last frame of "Hello world" at 8000 Hz. *)
Definition lastFrame : nat := Z.to_nat 15999.

(** ** Further vocabulary and inputs *)

(** The property names every object inherits from [Object.prototype]. For
    these [voiceMap[voiceId]] is the inherited value, not [undefined], and
    [characteristicsOf] does not describe the lookup. *)
Definition inheritedKeys : list JSString :=
  [ str "constructor"; str "hasOwnProperty"; str "isPrototypeOf";
    str "propertyIsEnumerable"; str "toLocaleString"; str "toString";
    str "valueOf"; str "__proto__"; str "__defineGetter__";
    str "__defineSetter__"; str "__lookupGetter__"; str "__lookupSetter__" ].

(** A voice identifier that [voiceMap] either defines or lacks altogether. *)
Definition plainKey (voiceId : JSString) : bool :=
  negb (existsb (strEqb voiceId) inheritedKeys).

(** A voice whose language tag begins with "en". *)
Definition isEnglish (voice : SpeechSynthesisVoice) : bool :=
  startsWith (voice_lang voice) (str "en").

(** Two platform voices, the first with "Female" in its name. *)
Definition samantha : SpeechSynthesisVoice :=
  {| voice_name := str "Samantha Female"; voice_lang := str "en-US" |}.

Definition alex : SpeechSynthesisVoice :=
  {| voice_name := str "Alex Male"; voice_lang := str "en-US" |}.

Definition amelie : SpeechSynthesisVoice :=
  {| voice_name := str "Amelie"; voice_lang := str "fr-FR" |}.

(** A handle that lists the three voices, and the object built on it. *)
Definition threeVoices : SpeechSynthesis := {| getVoices := [amelie; samantha; alex] |}.

Definition speakingPage : Window :=
  {| speechSynthesis := Some threeVoices; audioContext_sampleRate := Some 8000 |}.

(** A page with speech synthesis and no Web Audio. *)
Definition mutePage : Window :=
  {| speechSynthesis := Some threeVoices; audioContext_sampleRate := None |}.

(** Two stereo frames at 44100 Hz. *)
Definition stereoBuffer : AudioBuffer :=
  {| buffer_length := 2;
     numberOfChannels := 2;
     sampleRate := 44100;
     channels := [[0.5%float; (-0.5)%float]; [0.25%float; (-0.25)%float]] |}.

(** The value [v] lies where the mantissa [M], the exponent [e] and the
    location [l] say: at [M * 2^e], or above it by less than, exactly or
    more than half a unit. *)
Definition inbetween (M e : Z) (l : location) (v : Q) : Prop :=
  match l with
  | loc_Exact => (v == dy M e)%Q
  | loc_Inexact Lt => (dy M e < v < dy M e + dy 1 (e - 1))%Q
  | loc_Inexact Eq => (v == dy M e + dy 1 (e - 1))%Q
  | loc_Inexact Gt => (dy M e + dy 1 (e - 1) < v < dy (M + 1) e)%Q
  end.

(** A stand-in for [Math.sin] that keeps its range and its zero: the sign
    of the argument. *)
Definition sinSign : float -> float :=
  fun x => if (x <? 0)%float then (-1)%float
           else if (0 <? x)%float then 1%float else 0%float.

(** A buffer with one frame of one channel, a little more than a third. *)
Definition thirdBuffer : AudioBuffer :=
  {| buffer_length := 1; numberOfChannels := 1; sampleRate := 8000;
     channels := [[0.333333343267440796%float]] |}.

(** ** The audio player: [formatTime] and [handleDownload] *)
(** The two helpers of the component [AudioPlayer] that compute a string.
    Their numbers are printed: [Math.floor] and [Number.prototype.toString]
    are embedded on the numbers that reach them. *)
(** What [Math.floor] returns: an integer, or its argument when that is NaN
    or infinite. Both zeros are [Whole 0]; they print alike. *)
Inductive Integral :=
| NotANumber
| Infinite (negative : bool)
| Whole (z : Z).

(** [Math.floor] as a number that can be printed. *)
Definition floorNumber (x : float) : Integral :=
  match Prim2SF x with
  | S754_nan => NotANumber
  | S754_infinity s => Infinite s
  | S754_zero _ => Whole 0
  | S754_finite s m e => Whole (Z.shiftl (cond_Zopp s (Zpos m)) e)
  end.

(** The operator [%] (ECMAScript Number::remainder): NaN for an infinite
    dividend or a zero divisor, the dividend itself for an infinite divisor
    or a zero dividend; otherwise the dividend less the divisor times the
    truncated quotient, which has the sign of the dividend. Both mantissas
    are brought to the smaller exponent, where the remainder is one of
    integers. *)
Definition SFrem (x y : spec_float) : spec_float :=
  match x, y with
  | S754_nan, _ | _, S754_nan => S754_nan
  | S754_infinity _, _ => S754_nan
  | _, S754_zero _ => S754_nan
  | _, S754_infinity _ => x
  | S754_zero _, _ => x
  | S754_finite sx mx ex, S754_finite _ my ey =>
      let e := Z.min ex ey in
      let r := (Zpos mx * 2 ^ (ex - e)) mod (Zpos my * 2 ^ (ey - e)) in
      if r =? 0 then S754_zero sx
      else binary_normalize prec emax (cond_Zopp sx r) e false
  end.

Definition Number_remainder (x y : float) : float :=
  SF2Prim (SFrem (Prim2SF x) (Prim2SF y)).

(** The decimal digits of a natural number, without leading zeros. *)
Definition digit (d : Z) : ascii := fromCodeUnit (48 + d).

Fixpoint digitsLoop (fuel : nat) (z : Z) : JSString :=
  match fuel with
  | O => []
  | S f => if z <? 10 then [digit z] else digitsLoop f (z / 10) ++ [digit (z mod 10)]
  end.

Definition decimal (z : Z) : JSString := digitsLoop (S (Z.to_nat (Z.log2 z))) z.

(** The Number value of an integer: the integer rounded to binary64. *)
Definition numberOfZ (c : Z) : spec_float := binary_normalize prec emax c 0 false.

(** [c] reads back as the number [z]. *)
Definition represents (z c : Z) : bool := SFeqb (numberOfZ c) (numberOfZ z).

(** The [k]-digit integer [s] for which [s * 10^(n-k)] reads back as [z],
    if there is one: it is one of the two multiples of [10^(n-k)] around
    [z]. Where both read back as [z] the closer one is taken, and the even
    one of two equally close, as engines do (the standard leaves the last
    digit open). *)
Definition candidate (z k n : Z) : option Z :=
  let unit := 10 ^ (n - k) in
  let lo := z / unit in
  let hi := lo + 1 in
  let fits s := (10 ^ (k - 1) <=? s) && (s <? 10 ^ k) && represents z (s * unit) in
  match fits lo, fits hi with
  | true, true =>
      let below := z - lo * unit in
      let above := hi * unit - z in
      Some (if below <? above then lo
            else if above <? below then hi
            else if Z.even lo then lo else hi)
  | true, false => Some lo
  | false, true => Some hi
  | false, false => None
  end.

(** Number::toString, step 5, for a positive integer [z] of [d] digits:
    the least [k] with integers [n] and [s] such that [s] has [k] digits
    and [s * 10^(n-k)] is the number [z]. Such a product has [d] or [d + 1]
    digits, and seventeen digits tell any two numbers apart. *)
Fixpoint shortest (fuel : nat) (z d k : Z) : option (Z * Z * Z) :=
  match fuel with
  | O => None
  | S f =>
      match (if k <=? d then candidate z k d else None),
            (if k <=? d + 1 then candidate z k (d + 1) else None) with
      | Some s, _ => Some (d, k, s)
      | None, Some s => Some (d + 1, k, s)
      | None, None => shortest f z d (k + 1)
      end
  end.

(** [Number.prototype.toString] (radix 10) of what [Math.floor] returns:
    the digits of [s] followed by [n - k] zeros up to 21 digits, the
    exponential form beyond. *)
Definition Number_toString (x : Integral) : JSString :=
  match x with
  | NotANumber => str "NaN"
  | Infinite s => (if s then str "-" else []) ++ str "Infinity"
  | Whole z =>
      if z =? 0 then str "0"
      else
        let a := Z.abs z in
        (if z <? 0 then str "-" else []) ++
        match shortest 17 a (Z.of_nat (length (decimal a))) 1 with
        | Some (n, k, s) =>
            if n <=? 21 then decimal s ++ repeat "0"%char (Z.to_nat (n - k))
            else
              match decimal s with
              | c :: (_ :: _) as rest => c :: "."%char :: rest
              | ds => ds
              end ++ str "e+" ++ decimal (n - 1)
        | None => decimal a
        end
  end.

(** [String.prototype.padStart] with a filler of one code unit. *)
Definition padStart (s : JSString) (maxLength : nat) (fill : ascii) : JSString :=
  repeat fill (maxLength - length s) ++ s.

Definition isNaN (x : float) : bool := PrimFloat.is_nan x.

(** [formatTime], the label of a position or of a duration in seconds. *)
Definition formatTime (time : float) : JSString :=
  if isNaN time then str "0:00"
  else
    let minutes := floorNumber (time / 60) in
    let seconds := floorNumber (Number_remainder time 60) in
    Number_toString minutes ++ str ":" ++ padStart (Number_toString seconds) 2 "0"%char.

(** The formats offered for the download. *)
Inductive DownloadFormat := mp3 | wav.

Definition formatName (f : DownloadFormat) : JSString :=
  match f with
  | mp3 => str "mp3"
  | wav => str "wav"
  end.

(** [s.replace(/\s+/g, '-')]: every maximal run of white space becomes one
    hyphen. [inRun] says that the previous code unit was white space. *)
Fixpoint replaceWhiteSpace (inRun : bool) (s : JSString) : JSString :=
  match s with
  | [] => []
  | c :: s' =>
      if isWhiteSpace c
      then if inRun then replaceWhiteSpace true s'
           else "-"%char :: replaceWhiteSpace true s'
      else c :: replaceWhiteSpace false s'
  end.

(** The file name of [handleDownload]; [now] is what [Date.now()] returns,
    an integral number of milliseconds. *)
Definition filename (voiceName : JSString) (now : Z) (downloadFormat : DownloadFormat)
  : JSString :=
  str "voice-" ++ toLowerCase (replaceWhiteSpace false voiceName)
  ++ str "-" ++ Number_toString (Whole now) ++ str "." ++ formatName downloadFormat.

(** [handleDownload]: the arguments it passes to [onDownload]. *)
Definition handleDownload (audioUrl voiceName : JSString)
  (downloadFormat : DownloadFormat) (now : Z)
  : JSString * DownloadFormat * JSString :=
  (audioUrl, downloadFormat, filename voiceName now downloadFormat).

(** * Properties *)

(** ** Strings *)

Lemma startsWith_spec (s p : JSString) :
  startsWith s p = true <-> exists post, s = p ++ post.
Proof.
  revert s; induction p as [|b p IH]; intros s; simpl.
  - split; [intros _; now exists s | intros _; destruct s; reflexivity].
  - destruct s as [|a s].
    + split; [discriminate | intros [post H]; discriminate].
    + simpl. rewrite andb_true_iff, Ascii.eqb_eq, IH. split.
      * intros [-> [post ->]]. now exists post.
      * intros [post H]. injection H as -> ->. split; [reflexivity | now exists post].
Qed.

Lemma includes_spec (s p : JSString) :
  includes s p = true <-> exists pre post, s = pre ++ p ++ post.
Proof.
  induction s as [|a s IH]; cbn [includes].
  - rewrite orb_false_r, startsWith_spec. split.
    + intros [post H]. now exists [], post.
    + intros [pre [post H]]. destruct pre; [now exists post | discriminate].
  - rewrite orb_true_iff, startsWith_spec, IH. split.
    + intros [[post H] | [pre [post H]]].
      * now exists [], post.
      * exists (a :: pre), post. now rewrite H.
    + intros [pre [post H]]. destruct pre as [|a' pre].
      * left. now exists post.
      * right. injection H as _ H. now exists pre, post.
Qed.

Lemma toLowerCase_app (s t : JSString) :
  toLowerCase (s ++ t) = toLowerCase s ++ toLowerCase t.
Proof. apply map_app. Qed.

Lemma toLowerUnit_idem (c : ascii) : toLowerUnit (toLowerUnit c) = toLowerUnit c.
Proof.
  destruct c as [[] [] [] [] [] [] [] []]; reflexivity.
Qed.

Lemma toLowerCase_idem (s : JSString) : toLowerCase (toLowerCase s) = toLowerCase s.
Proof.
  unfold toLowerCase. rewrite map_map. apply map_ext. apply toLowerUnit_idem.
Qed.

(** [includes] after [toLowerCase] is containment up to case. *)
Lemma includes_toLowerCase (s p : JSString) :
  includes (toLowerCase s) (toLowerCase p) = true <-> containsIgnoringCase s p.
Proof.
  rewrite includes_spec. split.
  - intros [pre [post H]]. unfold toLowerCase in H.
    apply map_eq_app in H. destruct H as [s1 [s2 [-> [H1 H2]]]].
    apply map_eq_app in H2. destruct H2 as [w [s3 [-> [H2 H3]]]].
    exists s1, w, s3. split; [reflexivity | exact H2].
  - intros [pre [w [post [-> H]]]].
    exists (toLowerCase pre), (toLowerCase post).
    now rewrite !toLowerCase_app, H.
Qed.

Example split_two_words :
  splitWhitespace (str " Hello  world ") = [str ""; str "Hello"; str "world"; str ""].
Proof. reflexivity. Qed.

Example split_empty : splitWhitespace (str "") = [str ""].
Proof. reflexivity. Qed.

Example trim_example : trim (str "  a b  ") = str "a b".
Proof. reflexivity. Qed.

(** ** Base frequency *)

(** C1 (as the code has it): [createSyntheticAudio] picks 120 Hz for
    "voice-male-x" and 200 Hz for "unknown-id", and it picks 120 Hz, not the
    200 Hz of the specification's test vector, for "voice-female-x", since
    "female" contains "male". *)
Theorem C1_base_frequency_vector :
  frequency (str "voice-male-x") = 120%float
  /\ frequency (str "voice-female-x") = 120%float
  /\ frequency (str "unknown-id") = 200%float.
Proof. repeat split; reflexivity. Qed.

(** C6: the base frequency is 120 Hz exactly when the voice identifier
    contains "male" up to the case of letters, and 200 Hz otherwise. *)
Theorem C6_base_frequency_selection (voiceId : JSString) :
  (containsIgnoringCase voiceId (str "male") -> frequency voiceId = 120%float)
  /\ (~ containsIgnoringCase voiceId (str "male") -> frequency voiceId = 200%float).
Proof.
  unfold frequency.
  pose proof (includes_toLowerCase voiceId (str "male")) as Hi.
  change (toLowerCase (str "male")) with (str "male") in Hi.
  destruct (includes (toLowerCase voiceId) (str "male")).
  - split; [reflexivity | intros H; exfalso; apply H]. now apply Hi.
  - split; [| reflexivity]. intros H. apply Hi in H. discriminate.
Qed.

(** ** Word count *)

Lemma splitLoop_nonempty (b : bool) (cur s : JSString) :
  (1 <= length (splitLoop b cur s))%nat.
Proof.
  revert b cur; induction s as [|c s IH]; intros b cur; simpl.
  - lia.
  - destruct (isWhiteSpace c); [destruct b |]; simpl; auto with arith.
Qed.

Lemma endsNonWs_tail (c : ascii) (s : JSString) :
  endsNonWs (c :: s) = true -> endsNonWs s = true.
Proof. destruct s; simpl; auto. Qed.

Lemma endsNonWs_ws_tail (c : ascii) (s : JSString) :
  endsNonWs (c :: s) = true -> isWhiteSpace c = true -> s <> [].
Proof.
  intros H Hc ->. simpl in H. rewrite Hc in H. discriminate.
Qed.

(** On a string that does not end in white space, [split] yields one piece
    per token, provided the piece being read is, or is about to be, a
    token. *)
Lemma splitLoop_tokens (s : JSString) :
  forall (b : bool) (cur : JSString),
    endsNonWs s = true ->
    (if b then cur = [] /\ s <> [] else cur <> [] \/ startsNonWs s = true) ->
    length (splitLoop b cur s) = length (tokensFrom cur s).
Proof.
  induction s as [|c s IH]; intros b cur Hend Hinv.
  - destruct b.
    + now destruct Hinv.
    + destruct Hinv as [Hc | Hc]; [| discriminate].
      simpl. destruct cur; [congruence | reflexivity].
  - pose proof (endsNonWs_tail _ _ Hend) as Hend'.
    simpl. destruct (isWhiteSpace c) eqn:Hws.
    + pose proof (endsNonWs_ws_tail _ _ Hend Hws) as Hne.
      destruct b.
      * destruct Hinv as [-> _]. apply IH; [assumption | now split].
      * destruct Hinv as [Hc | Hc]; [| simpl in Hc; rewrite Hws in Hc; discriminate].
        destruct cur as [|a cur]; [congruence |].
        simpl. f_equal. apply IH; [assumption | now split].
    + apply IH; [assumption |]. left. now destruct cur.
Qed.

Lemma trimStart_cases (s : JSString) :
  trimStart s = [] \/ startsNonWs (trimStart s) = true.
Proof.
  induction s as [|c s IH]; simpl; [now left |].
  destruct (isWhiteSpace c) eqn:E; [assumption |].
  right. simpl. now rewrite E.
Qed.

Lemma trimEnd_ends (s : JSString) : endsNonWs (trimEnd s) = true.
Proof.
  induction s as [|c s IH]; simpl; [reflexivity |].
  destruct (trimEnd s) as [|a r] eqn:E.
  - destruct (isWhiteSpace c) eqn:Hc; simpl; [reflexivity | now rewrite Hc].
  - exact IH.
Qed.

Lemma trimEnd_starts (s : JSString) :
  startsNonWs s = true -> startsNonWs (trimEnd s) = true.
Proof.
  destruct s as [|c s]; simpl; [discriminate |]. intros Hc.
  destruct (trimEnd s); [| exact Hc].
  destruct (isWhiteSpace c) eqn:E; [discriminate | simpl; now rewrite E].
Qed.

Lemma trim_cases (s : JSString) :
  trim s = [] \/ (startsNonWs (trim s) = true /\ endsNonWs (trim s) = true).
Proof.
  unfold trim. destruct (trimStart_cases s) as [-> | H].
  - now left.
  - right. split; [now apply trimEnd_starts | apply trimEnd_ends].
Qed.

(** The length of [text.trim().split(/\s+/)] is the number of tokens of
    the trimmed text, or 1 when there is none. *)
Lemma wordCount_spec (text : JSString) : wordCount text = specWordCount text.
Proof.
  unfold wordCount, specWordCount, splitWhitespace, tokens.
  destruct (trim_cases text) as [-> | [Hs He]].
  - reflexivity.
  - rewrite <- splitLoop_tokens with (b := false) by (auto).
    pose proof (splitLoop_nonempty false [] (trim text)). lia.
Qed.

(** ** The encoder writes the header table and the interleaved payload *)

Lemma upd_length {A} (l : list A) (k : nat) (v : A) : length (upd l k v) = length l.
Proof.
  revert k; induction l as [|a l IH]; intros [|k]; simpl; auto.
Qed.

Lemma upd_app_here {A} (pre : list A) (a : A) (rest : list A) (v : A) :
  upd (pre ++ a :: rest) (length pre) v = pre ++ v :: rest.
Proof. induction pre as [|b pre IH]; simpl; [reflexivity | now rewrite IH]. Qed.

Lemma setUint16_here (pre rest : list Z) (a b v : Z) :
  setUint16 (pre ++ a :: b :: rest) (length pre) v = Ok (pre ++ le16 v ++ rest).
Proof.
  unfold setUint16, le16.
  replace (length pre + 2 <=? length (pre ++ a :: b :: rest))%nat with true
    by (symmetry; apply Nat.leb_le; rewrite length_app; simpl; lia).
  rewrite upd_app_here.
  replace (pre ++ v mod 65536 mod 256 :: b :: rest)
    with ((pre ++ [v mod 65536 mod 256]) ++ b :: rest)
    by (now rewrite <- app_assoc).
  replace (length pre + 1)%nat with (length (pre ++ [v mod 65536 mod 256]))
    by (rewrite length_app; reflexivity).
  rewrite upd_app_here, <- app_assoc. reflexivity.
Qed.

Lemma setInt16_here (pre rest : list Z) (a b : Z) (x : float) :
  setInt16 (pre ++ a :: b :: rest) (length pre) x
  = Ok (pre ++ le16 (ToInt16 x) ++ rest).
Proof. apply setUint16_here. Qed.

Lemma writeChannels_spec (buffer : AudioBuffer) (i : nat) :
  forall (n c0 : nat) (pre : list Z) (k : nat),
    forLoop n c0
      (fun channel '(view, offset) =>
         let sample := clampSample (getSample (getChannelData buffer channel) i) in
         view <- setInt16 view offset (sample * 0x7FFF)%float ;;
         Ok (view, (offset + 2)%nat))
      (pre ++ repeat 0 (n * 2 + k), length pre)
    = Ok (pre
          ++ flat_map (fun channel =>
                         le16 (pcm16 (getSample (getChannelData buffer channel) i)))
                      (seq c0 n)
          ++ repeat 0 k,
          (length pre + n * 2)%nat).
Proof.
  induction n as [|n IH]; intros c0 pre k.
  - simpl. now rewrite Nat.add_0_r.
  - cbn [forLoop]. change (S n * 2 + k)%nat with (S (S (n * 2 + k))).
    cbn [repeat]. rewrite setInt16_here. cbn [bindExc].
    replace (length pre + 2)%nat
      with (length (pre ++ le16 (ToInt16
              (clampSample (getSample (getChannelData buffer c0) i) * 0x7FFF)%float)))
      by (rewrite length_app; reflexivity).
    rewrite (app_assoc pre). rewrite IH.
    rewrite length_app. cbn [seq flat_map]. unfold pcm16.
    rewrite <- !app_assoc.
    apply f_equal, f_equal2; [reflexivity | cbn [le16 length]; lia].
Qed.

Lemma flat_map_length_const {A B} (f : A -> list B) (k : nat) (l : list A) :
  (forall a, length (f a) = k) -> length (flat_map f l) = (length l * k)%nat.
Proof.
  intros Hf. induction l as [|a l IH]; simpl; [reflexivity |].
  now rewrite length_app, Hf, IH.
Qed.

Lemma frameBytes_length (buffer : AudioBuffer) (i : nat) :
  length (frameBytes buffer i) = (numberOfChannels buffer * 2)%nat.
Proof.
  unfold frameBytes. rewrite flat_map_length_const with (k := 2%nat).
  - now rewrite length_seq.
  - reflexivity.
Qed.

Lemma writeFrames_spec (buffer : AudioBuffer) :
  forall (n i0 : nat) (pre : list Z) (k : nat),
    forLoop n i0
      (fun i st =>
         forLoop (numberOfChannels buffer) 0
           (fun channel '(view, offset) =>
              let sample := clampSample (getSample (getChannelData buffer channel) i) in
              view <- setInt16 view offset (sample * 0x7FFF)%float ;;
              Ok (view, (offset + 2)%nat))
           st)
      (pre ++ repeat 0 (n * (numberOfChannels buffer * 2) + k), length pre)
    = Ok (pre ++ flat_map (frameBytes buffer) (seq i0 n) ++ repeat 0 k,
          (length pre + n * (numberOfChannels buffer * 2))%nat).
Proof.
  induction n as [|n IH]; intros i0 pre k.
  - simpl. now rewrite Nat.add_0_r.
  - cbn [forLoop].
    replace (S n * (numberOfChannels buffer * 2) + k)%nat
      with (numberOfChannels buffer * 2 + (n * (numberOfChannels buffer * 2) + k))%nat
      by lia.
    rewrite writeChannels_spec. cbn [bindExc].
    fold (frameBytes buffer i0).
    replace (length pre + numberOfChannels buffer * 2)%nat
      with (length (pre ++ frameBytes buffer i0))
      by (rewrite length_app, frameBytes_length; reflexivity).
    rewrite app_assoc, IH.
    cbn [seq flat_map]. rewrite <- !app_assoc.
    apply f_equal, f_equal2;
      [reflexivity | rewrite length_app, frameBytes_length; lia].
Qed.

Lemma payloadBytes_length (buffer : AudioBuffer) :
  length (payloadBytes buffer)
  = (buffer_length buffer * numberOfChannels buffer * 2)%nat.
Proof.
  unfold payloadBytes.
  rewrite flat_map_length_const with (k := (numberOfChannels buffer * 2)%nat).
  - rewrite length_seq. lia.
  - apply frameBytes_length.
Qed.

Lemma wavHeader_length (frames nChannels rate : Z) :
  length (wavHeader frames nChannels rate) = 44%nat.
Proof. reflexivity. Qed.

Lemma writeSamples_spec (buffer : AudioBuffer) (header : list Z) :
  length header = 44%nat ->
  writeSamples buffer
    (header ++ repeat 0 (buffer_length buffer * numberOfChannels buffer * 2))
  = Ok (header ++ payloadBytes buffer,
        (44 + buffer_length buffer * numberOfChannels buffer * 2)%nat).
Proof.
  intros H44. unfold writeSamples. rewrite <- H44.
  replace (buffer_length buffer * numberOfChannels buffer * 2)%nat
    with (buffer_length buffer * (numberOfChannels buffer * 2) + 0)%nat by lia.
  rewrite writeFrames_spec. simpl repeat. rewrite app_nil_r.
  fold (payloadBytes buffer).
  apply f_equal, f_equal2; [reflexivity | lia].
Qed.

Lemma writeHeader_spec (buffer : AudioBuffer) (rest : list Z) :
  writeHeader buffer (repeat 0 44 ++ rest)
  = Ok (wavHeader (Z.of_nat (buffer_length buffer))
                  (Z.of_nat (numberOfChannels buffer))
                  (sampleRate buffer)
        ++ rest).
Proof.
  unfold writeHeader, wavHeader, writeString, setUint32, setUint16, setUint8, le32, le16.
  cbn -[Z.modulo Z.div Z.mul Z.add Z.of_nat].
  reflexivity.
Qed.

(** The encoder never throws, and its output is the header table followed
    by the interleaved samples. *)
Lemma audioBufferToWav_bytes (buffer : AudioBuffer) :
  audioBufferToWav buffer
  = Ok (wavHeader (Z.of_nat (buffer_length buffer))
                  (Z.of_nat (numberOfChannels buffer))
                  (sampleRate buffer)
        ++ payloadBytes buffer).
Proof.
  unfold audioBufferToWav, newArrayBuffer.
  rewrite repeat_app, writeHeader_spec. cbn [bindExc].
  rewrite writeSamples_spec by apply wavHeader_length.
  reflexivity.
Qed.

(** ** Rounding to nearest in binary floating point

    What [SpecFloat] computes when it rounds, said with integers: the
    mantissa is cut at the exponent of the format and goes up by one at
    most, and only if something was cut off. *)

Lemma digits2_pos_size (m : positive) : digits2_pos m = Pos.size m.
Proof. induction m; simpl; congruence. Qed.

Lemma Zdigits2_log2 (M : Z) : 0 < M -> Zdigits2 M = Z.log2 M + 1.
Proof.
  destruct M as [|m|m]; try lia. intros _. simpl. rewrite digits2_pos_size.
  destruct m; simpl; lia.
Qed.

Lemma Zdigits2_bounds (M : Z) :
  0 <= M -> 2 ^ (Zdigits2 M - 1) <= M + (if M =? 0 then 1 else 0) /\ M < 2 ^ Zdigits2 M /\ 0 <= Zdigits2 M.
Proof.
  intros HM. destruct (Z.eqb_spec M 0) as [->|Hne].
  - simpl. lia.
  - assert (H0 : 0 < M) by lia. rewrite Zdigits2_log2 by assumption.
    pose proof (Z.log2_spec M H0) as [H1 H2].
    pose proof (Z.log2_nonneg M).
    replace (Z.log2 M + 1 - 1) with (Z.log2 M) by lia.
    replace (Z.log2 M + 1) with (Z.succ (Z.log2 M)) by lia. lia.
Qed.

Lemma iter_pos_nat {A} (f : A -> A) (n : positive) (x : A) :
  iter_pos f n x = Nat.iter (Pos.to_nat n) f x.
Proof.
  revert x; induction n as [n IH|n IH|]; intros x; cbn [iter_pos].
  - rewrite !IH. rewrite Pos2Nat.inj_xI.
    replace (S (2 * Pos.to_nat n)) with (Pos.to_nat n + (Pos.to_nat n + 1))%nat by lia.
    rewrite !Nat.iter_add. reflexivity.
  - rewrite !IH. rewrite Pos2Nat.inj_xO.
    replace (2 * Pos.to_nat n)%nat with (Pos.to_nat n + Pos.to_nat n)%nat by lia.
    now rewrite Nat.iter_add.
  - reflexivity.
Qed.


Lemma shr_1_m (mrs : shr_record) : 0 <= shr_m mrs -> shr_m (shr_1 mrs) = shr_m mrs / 2.
Proof.
  destruct mrs as [m r s]; simpl. intros Hm.
  destruct m as [|[p|p|]|p]; simpl; try lia; try reflexivity.
  - rewrite Pos2Z.inj_xI. apply Z.div_unique with 1; lia.
  - rewrite Pos2Z.inj_xO. apply Z.div_unique with 0; lia.
Qed.

Lemma shr_1_inexact (mrs : shr_record) :
  0 <= shr_m mrs ->
  inexact (shr_1 mrs) = Z.odd (shr_m mrs) || inexact mrs.
Proof.
  destruct mrs as [m r s]; unfold inexact; simpl. intros Hm.
  destruct m as [|[p|p|]|p]; simpl; try lia; try reflexivity.
Qed.

Lemma shr_iter_m (k : nat) (mrs : shr_record) :
  0 <= shr_m mrs ->
  shr_m (Nat.iter k shr_1 mrs) = shr_m mrs / 2 ^ Z.of_nat k.
Proof.
  intros Hm. induction k as [|k IH].
  - simpl. now rewrite Z.div_1_r.
  - rewrite Nat.iter_succ. rewrite shr_1_m.
    + rewrite IH. rewrite Nat2Z.inj_succ, Z.pow_succ_r by lia.
      rewrite Z.div_div by lia. f_equal. lia.
    + rewrite IH. apply Z.div_pos; lia.
Qed.

Lemma shr_iter_inexact (k : nat) (mrs : shr_record) :
  0 <= shr_m mrs ->
  inexact (Nat.iter k shr_1 mrs) = true ->
  inexact mrs = true \/ shr_m mrs mod 2 ^ Z.of_nat k <> 0.
Proof.
  intros Hm. induction k as [|k IH].
  - now left.
  - rewrite Nat.iter_succ. rewrite shr_1_inexact by (rewrite shr_iter_m by assumption; apply Z.div_pos; lia).
    rewrite orb_true_iff. intros [Hodd | Hin].
    + right. rewrite shr_iter_m in Hodd by assumption.
      rewrite Nat2Z.inj_succ, Z.pow_succ_r by lia.
      intros H0. apply Z.mod_divide in H0; [| lia]. destruct H0 as [c Hc].
      rewrite Hc in Hodd.
      replace (c * (2 * 2 ^ Z.of_nat k)) with ((c * 2) * 2 ^ Z.of_nat k) in Hodd by ring.
      rewrite Z.div_mul in Hodd by lia.
      rewrite Z.odd_mul in Hodd. simpl in Hodd. now rewrite andb_false_r in Hodd.
    + destruct (IH Hin) as [H | H]; [now left | right].
      rewrite Nat2Z.inj_succ, Z.pow_succ_r by lia.
      intros H0. apply H. apply Z.mod_divide in H0; [| lia]. destruct H0 as [c Hc].
      rewrite Hc. replace (c * (2 * 2 ^ Z.of_nat k)) with ((c * 2) * 2 ^ Z.of_nat k) by ring.
      apply Z.mod_mul. lia.
Qed.

Lemma shr_1_r (mrs : shr_record) : 0 <= shr_m mrs -> shr_r (shr_1 mrs) = Z.odd (shr_m mrs).
Proof.
  destruct mrs as [m r s]; simpl. intros Hm.
  destruct m as [|[p|p|]|p]; simpl; try lia; reflexivity.
Qed.

Lemma shr_iter_r (k : nat) (mrs : shr_record) :
  0 <= shr_m mrs ->
  shr_r (Nat.iter (S k) shr_1 mrs) = Z.odd (shr_m mrs / 2 ^ Z.of_nat k).
Proof.
  intros Hm. rewrite Nat.iter_succ, shr_1_r.
  - now rewrite shr_iter_m.
  - rewrite shr_iter_m by assumption. apply Z.div_pos; lia.
Qed.

(** An odd quotient by [2^(k-1)] means that the remainder modulo [2^k]
    is at least one half of [2^k]. *)
Lemma odd_div_half (M k : Z) :
  0 <= M -> 0 < k -> Z.odd (M / 2 ^ (k - 1)) = true -> 2 ^ (k - 1) <= M mod 2 ^ k.
Proof.
  intros HM Hk Hodd.
  assert (Hp : 0 < 2 ^ (k - 1)) by (apply Z.pow_pos_nonneg; lia).
  assert (E : 2 ^ k = 2 * 2 ^ (k - 1)).
  { rewrite <- Z.pow_succ_r by lia. f_equal. lia. }
  pose proof (Z.div_mod M (2 ^ (k - 1)) ltac:(lia)) as H1.
  pose proof (Z.mod_pos_bound M (2 ^ (k - 1)) Hp) as H2.
  set (q := M / 2 ^ (k - 1)) in *. set (r := M mod 2 ^ (k - 1)) in *.
  rewrite Z.odd_spec in Hodd. destruct Hodd as [c Hc].
  assert (Hmod : M mod 2 ^ k = 2 ^ (k - 1) + r).
  { symmetry. apply Z.mod_unique with c; [left; lia |]. rewrite E, H1, Hc. ring. }
  lia.
Qed.

Section Rounding.

Variables prc emx : Z.
Hypothesis Hprec : 0 < prc.
Hypothesis Hemax : prc < emx.

#[local] Abbreviation fexp := (SpecFloat.fexp prc emx).
#[local] Abbreviation emin := (SpecFloat.emin prc emx).

Lemma fexp_ge_emin (x : Z) : emin <= fexp x.
Proof. unfold SpecFloat.fexp, SpecFloat.emin. lia. Qed.

Lemma shr_spec (M e sh : Z) (l : location) :
  0 <= M -> 0 <= sh ->
  exists mrs,
    shr (shr_record_of_loc M l) e sh = (mrs, e + sh)
    /\ shr_m mrs = M / 2 ^ sh
    /\ (inexact mrs = true -> l <> loc_Exact \/ M mod 2 ^ sh <> 0)
    /\ (shr_r mrs = true -> l <> loc_Exact \/ (0 < sh /\ 2 ^ (sh - 1) <= M mod 2 ^ sh)).
Proof.
  intros HM Hsh.
  assert (Hrec : shr_m (shr_record_of_loc M l) = M) by (destruct l as [|[]]; reflexivity).
  assert (Hin : inexact (shr_record_of_loc M l) = true -> l <> loc_Exact)
    by (destruct l as [|[]]; unfold inexact; simpl; intros; congruence).
  destruct sh as [|p|p]; try lia.
  - exists (shr_record_of_loc M l). simpl. rewrite Z.add_0_r, Z.div_1_r.
    repeat split; auto. intros H. left. destruct l as [|[]]; simpl in H; congruence.
  - exists (iter_pos shr_1 p (shr_record_of_loc M l)). cbn [shr].
    rewrite iter_pos_nat. split; [reflexivity |]. split; [| split].
    + rewrite shr_iter_m by lia. now rewrite positive_nat_Z, Hrec.
    + intros H. apply shr_iter_inexact in H; [| lia].
      rewrite positive_nat_Z, Hrec in H. tauto.
    + intros H. right. split; [lia |].
      destruct (Pos2Nat.is_succ p) as [k Hk]. rewrite Hk in H.
      rewrite shr_iter_r, Hrec in H by lia.
      assert (Ek : Z.of_nat k = Zpos p - 1) by lia. rewrite Ek in H.
      apply odd_div_half; [assumption | lia | assumption].
Qed.

Lemma round_nearest_even_cases (mrs : shr_record) :
  let m := round_nearest_even (shr_m mrs) (loc_of_shr_record mrs) in
  m = shr_m mrs \/ (m = shr_m mrs + 1 /\ inexact mrs = true /\ shr_r mrs = true).
Proof.
  destruct mrs as [m [] []]; unfold inexact; simpl; auto.
  destruct (Z.even m); auto.
Qed.

Lemma Zdigits2_le (m : Z) (p : Z) : 0 <= p -> 0 <= m < 2 ^ p -> Zdigits2 m <= p.
Proof.
  intros Hp [H0 H1]. destruct (Z.eq_dec m 0) as [->|Hne]; [simpl; lia |].
  rewrite Zdigits2_log2 by lia.
  assert (Z.log2 m < p) by (apply Z.log2_lt_pow2; lia). lia.
Qed.

Lemma Zdigits2_ge (m : Z) (p : Z) : 0 < p -> 2 ^ (p - 1) <= m -> p <= Zdigits2 m.
Proof.
  intros Hp H. assert (0 < 2 ^ (p - 1)) by (apply Z.pow_pos_nonneg; lia).
  rewrite Zdigits2_log2 by lia.
  assert (p - 1 <= Z.log2 m) by (apply Z.log2_le_pow2; lia). lia.
Qed.

Lemma Zdigits2_pow2 (p : Z) : 0 <= p -> Zdigits2 (2 ^ p) = p + 1.
Proof.
  intros Hp. assert (0 < 2 ^ p) by (apply Z.pow_pos_nonneg; lia).
  rewrite Zdigits2_log2 by lia. now rewrite Z.log2_pow2.
Qed.


(** The integer-level description of correct rounding: the mantissa is
    shifted to the exponent [fexp], rounded to one of its two neighbours
    (upwards only when something was lost), and renormalised. *)
Lemma binary_round_aux_spec (s : bool) (M e : Z) (l : location) :
  0 <= M ->
  e <= fexp (Zdigits2 M + e) ->
  let e1 := fexp (Zdigits2 M + e) in
  let m1 := M / 2 ^ (e1 - e) in
  exists m2 m3 e3,
    (m2 = m1
     \/ (m2 = m1 + 1
         /\ (l <> loc_Exact \/ M mod 2 ^ (e1 - e) <> 0)
         /\ (l <> loc_Exact
             \/ (0 < e1 - e /\ 2 ^ (e1 - e - 1) <= M mod 2 ^ (e1 - e)))))
    /\ (e3 = e1 /\ m3 = m2 \/ e3 = e1 + 1 /\ m2 = 2 * m3)
    /\ 0 <= m3 < 2 ^ prc
    /\ 0 <= m1
    /\ (emin < e1 -> 2 ^ (prc - 1) <= m1)
    /\ (e1 < e3 \/ emin < e1 -> 2 ^ (prc - 1) <= m3)
    /\ binary_round_aux prc emx s M e l = SFmake prc emx s m3 e3.
Proof.
  intros HM He e1 m1.
  assert (Hsh : 0 <= e1 - e) by (unfold e1; lia).
  destruct (shr_spec M e (e1 - e) l HM Hsh) as [mrs [Hshr [Hm [Hin Hhalf]]]].
  unfold binary_round_aux, shr_fexp. fold e1. rewrite Hshr.
  replace (e + (e1 - e)) with e1 by lia.
  pose proof (round_nearest_even_cases mrs) as Hr. cbv zeta in Hr.
  set (m2 := round_nearest_even (shr_m mrs) (loc_of_shr_record mrs)) in *.
  rewrite Hm in Hr. fold m1 in Hr.
  pose proof (Zdigits2_bounds M HM) as [Hd1 [Hd2 Hd0]].
  assert (Hpow : 0 < 2 ^ (e1 - e)) by (apply Z.pow_pos_nonneg; lia).
  assert (Hm1 : 0 <= m1) by (apply Z.div_pos; lia).
  assert (He1 : emin <= e1) by apply fexp_ge_emin.
  (* m1 < 2^prc *)
  assert (Hm1p : m1 < 2 ^ prc).
  { unfold m1. apply Z.div_lt_upper_bound; [lia |].
    rewrite <- Z.pow_add_r by lia.
    eapply Z.lt_le_trans; [exact Hd2 |].
    apply Z.pow_le_mono_r; [lia |]. unfold e1, SpecFloat.fexp, SpecFloat.emin. lia. }
  (* a normal result has a full mantissa *)
  assert (Hnorm : emin < e1 -> 2 ^ (prc - 1) <= m1).
  { intros Hlt. assert (He1eq : e1 = Zdigits2 M + e - prc)
      by (unfold e1, SpecFloat.fexp, SpecFloat.emin in *; lia).
    assert (HMpos : M <> 0).
    { intros ->. simpl in He1eq. lia. }
    replace (if M =? 0 then 1 else 0) with 0 in Hd1
      by (destruct (Z.eqb_spec M 0); congruence).
    unfold m1. apply Z.div_le_lower_bound; [lia |].
    rewrite <- Z.pow_add_r by lia.
    replace (e1 - e + (prc - 1)) with (Zdigits2 M - 1) by lia. lia. }
  assert (Hm2 : 0 <= m2 <= 2 ^ prc) by (destruct Hr as [-> | [-> _]]; lia).
  exists m2.
  destruct (Z.eq_dec m2 (2 ^ prc)) as [Hfull | Hnot].
  - (* the carry case: one more shift *)
    exists (2 ^ (prc - 1)), (e1 + 1).
    assert (H2p : 2 ^ prc = 2 * 2 ^ (prc - 1)).
    { rewrite <- Z.pow_succ_r by lia. f_equal. lia. }
    assert (Hpp : 0 < 2 ^ (prc - 1)) by (apply Z.pow_pos_nonneg; lia).
    split; [destruct Hr as [H | [H [Hi Hj]]]; [now left | right; split; [exact H | tauto]] |].
    split; [right; split; [reflexivity | lia] |].
    split; [lia |]. split; [exact Hm1 |]. split; [exact Hnorm |]. split; [intros _; lia |].
    rewrite Hfull, Zdigits2_pow2 by lia.
    replace (fexp (prc + 1 + e1) - e1) with 1
      by (clear - He1; unfold SpecFloat.fexp, SpecFloat.emin in *; lia).
    cbn [shr shr_record_of_loc iter_pos]. rewrite H2p.
    assert (Hs : shr_m (shr_1 {| shr_m := 2 * 2 ^ (prc - 1); shr_r := false; shr_s := false |})
                 = 2 ^ (prc - 1)).
    { rewrite shr_1_m by (cbn [shr_m]; lia). cbn [shr_m].
      rewrite Z.mul_comm, Z.div_mul by lia. reflexivity. }
    rewrite Hs. unfold SFmake. reflexivity.
  - exists m2, e1.
    split; [destruct Hr as [H | [H [Hi Hj]]]; [now left | right; split; [exact H | tauto]] |].
    split; [left; split; reflexivity |].
    split; [lia |]. split; [exact Hm1 |]. split; [exact Hnorm |].
    split; [intros [Hlt | Hlt]; [lia | specialize (Hnorm Hlt); destruct Hr as [H | [H _]]; lia] |].
    assert (Hd : Zdigits2 m2 <= prc) by (apply Zdigits2_le; lia).
    assert (Hno : fexp (Zdigits2 m2 + e1) - e1 <= 0)
      by (clear - He1 Hd Hprec; unfold SpecFloat.fexp, SpecFloat.emin in *; lia).
    unfold shr. destruct (fexp (Zdigits2 m2 + e1) - e1) as [|p|p] eqn:E; try lia;
      (destruct m2; reflexivity).
Qed.

End Rounding.

(** ** Dyadic rationals *)

Lemma pow2_pos (e : Z) : (0 < 2 ^ e)%Q.
Proof. apply Qpower_0_lt. reflexivity. Qed.

Lemma pow2_add (a b : Z) : (2 ^ (a + b) == 2 ^ a * 2 ^ b)%Q.
Proof. apply Qpower_plus. discriminate. Qed.

Lemma pow2_Z (n : Z) : 0 <= n -> (2 ^ n == inject_Z (2 ^ n))%Q.
Proof. intros H. now rewrite Zpower_Qpower. Qed.

Lemma pow2_le (a b : Z) : a <= b -> (2 ^ a <= 2 ^ b)%Q.
Proof. intros H. apply Qpower_le_compat_l; [exact H | discriminate]. Qed.

Lemma dy_shift (m e k : Z) : 0 <= k -> (dy (m * 2 ^ k) e == dy m (e + k))%Q.
Proof.
  intros Hk. unfold dy. rewrite inject_Z_mult, pow2_add, <- pow2_Z by assumption. ring.
Qed.

Lemma dy_le (m n e : Z) : m <= n -> (dy m e <= dy n e)%Q.
Proof.
  intros H. unfold dy. apply Qmult_le_compat_r.
  - now rewrite <- Zle_Qle.
  - apply Qlt_le_weak, pow2_pos.
Qed.

Lemma dy_lt (m n e : Z) : m < n -> (dy m e < dy n e)%Q.
Proof.
  intros H. unfold dy. apply Qmult_lt_compat_r.
  - apply pow2_pos.
  - now rewrite <- Zlt_Qlt.
Qed.

Lemma dy_lt_inv (m n e : Z) : (dy m e < dy n e)%Q -> m < n.
Proof.
  intros H. destruct (Z_lt_le_dec m n) as [|Hle]; [assumption |].
  apply (dy_le _ _ e) in Hle. lra.
Qed.

Lemma dy_le_inv (m n e : Z) : (dy m e <= dy n e)%Q -> m <= n.
Proof.
  intros H. destruct (Z_lt_le_dec n m) as [Hlt|]; [| assumption].
  apply (dy_lt _ _ e) in Hlt. lra.
Qed.

Lemma dy_nonneg (m e : Z) : 0 <= m -> (0 <= dy m e)%Q.
Proof.
  intros H. unfold dy. apply Qmult_le_0_compat.
  - now rewrite Zle_Qle in H.
  - apply Qlt_le_weak, pow2_pos.
Qed.

Lemma dy_pow_upper (m p e : Z) : 0 <= p -> m < 2 ^ p -> (dy m e < 2 ^ (p + e))%Q.
Proof.
  intros Hp H. apply (dy_lt _ _ e) in H. unfold dy in H at 2.
  rewrite <- pow2_Z in H by assumption. rewrite pow2_add. exact H.
Qed.

Lemma dy_pow_lower (m p e : Z) : 0 <= p -> 2 ^ p <= m -> (2 ^ (p + e) <= dy m e)%Q.
Proof.
  intros Hp H. apply (dy_le _ _ e) in H. unfold dy in H at 1.
  rewrite <- pow2_Z in H by assumption. rewrite pow2_add. exact H.
Qed.

(** Division by a power of two, as dyadics. *)
Lemma dy_div_lower (M e k : Z) : 0 <= k -> (dy (M / 2 ^ k) (e + k) <= dy M e)%Q.
Proof.
  intros Hk. rewrite <- dy_shift by assumption. apply dy_le.
  assert (0 < 2 ^ k) by (apply Z.pow_pos_nonneg; lia).
  rewrite Z.mul_comm. apply Z.mul_div_le. lia.
Qed.

Lemma dy_div_upper (M e k : Z) : 0 <= k -> (dy (M + 1) e <= dy (M / 2 ^ k + 1) (e + k))%Q.
Proof.
  intros Hk. rewrite <- dy_shift by assumption. apply dy_le.
  assert (H2 : 0 < 2 ^ k) by (apply Z.pow_pos_nonneg; lia).
  pose proof (Z.div_mod M (2 ^ k) ltac:(lia)). pose proof (Z.mod_pos_bound M (2 ^ k) H2). nia.
Qed.

Lemma dy_div_strict (M e k : Z) :
  0 <= k -> M mod 2 ^ k <> 0 -> (dy (M / 2 ^ k) (e + k) < dy M e)%Q.
Proof.
  intros Hk Hm. rewrite <- dy_shift by assumption. apply dy_lt.
  assert (H2 : 0 < 2 ^ k) by (apply Z.pow_pos_nonneg; lia).
  pose proof (Z.div_mod M (2 ^ k) ltac:(lia)). pose proof (Z.mod_pos_bound M (2 ^ k) H2). nia.
Qed.

(** ** Rounding keeps a value on its side of a number of the format *)

Section RoundingBounds.

Variables prc emx : Z.
Hypothesis Hprec : 0 < prc.
Hypothesis Hemax : prc < emx.

#[local] Abbreviation fexp := (SpecFloat.fexp prc emx).
#[local] Abbreviation emin := (SpecFloat.emin prc emx).

Lemma SFmake_neg (s : bool) (m e : Z) : 0 <= m -> SFneg (SFmake prc emx s m e) = s.
Proof.
  intros H. unfold SFmake. destruct m; try lia; [reflexivity |].
  destruct (e <=? emx - prc); reflexivity.
Qed.

Lemma SFmake_mag (s : bool) (m e : Z) :
  0 <= m -> SFfinite (SFmake prc emx s m e) = true ->
  (SFmag (SFmake prc emx s m e) == dy m e)%Q.
Proof.
  intros H. unfold SFmake. destruct m; try lia.
  - intros _. unfold dy. simpl. ring.
  - destruct (e <=? emx - prc); [reflexivity | discriminate].
Qed.

Lemma SFmake_finite (s : bool) (m e : Z) :
  0 <= m -> (m = 0 \/ e <= emx - prc) -> SFfinite (SFmake prc emx s m e) = true.
Proof.
  intros H Hc. unfold SFmake. destruct m; try lia; [reflexivity |].
  destruct Hc as [Hc | Hc]; [discriminate |].
  apply Z.leb_le in Hc. now rewrite Hc.
Qed.

(** Rounding does not step over a representable number: an exact value
    that is at most [K * 2^eK] is rounded to at most that. *)
Theorem round_upper (s : bool) (M e : Z) (l : location) (v : Q) (K eK : Z) :
  0 <= M ->
  e <= fexp (Zdigits2 M + e) ->
  (dy M e <= v)%Q ->
  (l <> loc_Exact -> (dy M e < v)%Q) ->
  0 <= K < 2 ^ prc ->
  emin <= eK <= emx - prc ->
  (v <= dy K eK)%Q ->
  SFfinite (binary_round_aux prc emx s M e l) = true
  /\ (SFmag (binary_round_aux prc emx s M e l) <= dy K eK)%Q.
Proof.
  intros HM He Hv Hl HK HeK HB.
  destruct (binary_round_aux_spec prc emx Hprec s M e l HM He)
    as [m2 [m3 [e3 [Hm2 [Hm3 [Hr3 [Hm1 [Hn1 [Hn3 ->]]]]]]]]].
  set (e1 := fexp (Zdigits2 M + e)) in *.
  set (m1 := M / 2 ^ (e1 - e)) in *.
  assert (Hsh : 0 <= e1 - e) by lia.
  assert (Hlow : (dy m1 e1 <= dy M e)%Q).
  { replace e1 with (e + (e1 - e)) at 1 by lia. now apply dy_div_lower. }
  (* the rounded mantissa, at the exponent e1, stays below the bound *)
  assert (HA : (dy m2 e1 <= dy K eK)%Q).
  { destruct Hm2 as [-> | [-> [Hin _]]]; [lra |].
    assert (Hstrict : (dy m1 e1 < dy K eK)%Q).
    { destruct Hin as [Hin | Hin].
      - specialize (Hl Hin). lra.
      - assert ((dy m1 e1 < dy M e)%Q); [| lra].
        replace e1 with (e + (e1 - e)) at 1 by lia. now apply dy_div_strict. }
    destruct (Z_le_gt_dec e1 eK) as [Hle | Hgt].
    - assert (Heq : (dy K eK == dy (K * 2 ^ (eK - e1)) e1)%Q).
      { rewrite dy_shift by lia. now replace (e1 + (eK - e1)) with eK by lia. }
      rewrite Heq in *. apply dy_lt_inv in Hstrict. apply dy_le. lia.
    - exfalso.
      assert (H1 : 2 ^ (prc - 1) <= m1) by (apply Hn1; lia).
      apply (dy_pow_lower _ _ e1) in H1; [| lia].
      assert (H2 : (dy K eK < 2 ^ (prc + eK))%Q) by (apply dy_pow_upper; lia).
      assert (H3 : (2 ^ (prc + eK) <= 2 ^ (prc - 1 + e1))%Q) by (apply pow2_le; lia).
      lra. }
  assert (HB3 : (dy m3 e3 == dy m2 e1)%Q).
  { destruct Hm3 as [[-> ->] | [-> ->]]; [reflexivity |].
    replace (2 * m3) with (m3 * 2 ^ 1) by lia. now rewrite dy_shift by lia. }
  assert (Hfin : SFfinite (SFmake prc emx s m3 e3) = true).
  { apply SFmake_finite; [lia |].
    destruct (Z.eq_dec m3 0) as [| Hne]; [now left | right].
    destruct (Z_le_gt_dec e3 (emx - prc)) as [| Hgt]; [assumption | exfalso].
    assert (H1 : 2 ^ (prc - 1) <= m3) by (apply Hn3; lia).
    apply (dy_pow_lower _ _ e3) in H1; [| lia].
    assert (H2 : (dy K eK < 2 ^ (prc + eK))%Q) by (apply dy_pow_upper; lia).
    assert (H3 : (2 ^ (prc + eK) <= 2 ^ (prc - 1 + e3))%Q) by (apply pow2_le; lia).
    lra. }
  split; [exact Hfin |].
  rewrite SFmake_mag by (assumption || lia). lra.
Qed.

(** ... and an exact value that is at least [K * 2^eK] is rounded to at
    least that. *)
Theorem round_lower (s : bool) (M e : Z) (l : location) (v : Q) (K eK : Z) :
  0 <= M ->
  e <= fexp (Zdigits2 M + e) ->
  (v < dy (M + 1) e)%Q ->
  0 <= K < 2 ^ prc ->
  emin <= eK ->
  (dy K eK <= v)%Q ->
  SFfinite (binary_round_aux prc emx s M e l) = true ->
  (dy K eK <= SFmag (binary_round_aux prc emx s M e l))%Q.
Proof.
  intros HM He Hv HK HeK HB.
  destruct (binary_round_aux_spec prc emx Hprec s M e l HM He)
    as [m2 [m3 [e3 [Hm2 [Hm3 [Hr3 [Hm1 [Hn1 [Hn3 ->]]]]]]]]].
  set (e1 := fexp (Zdigits2 M + e)) in *.
  set (m1 := M / 2 ^ (e1 - e)) in *.
  intros Hfin.
  assert (Hsh : 0 <= e1 - e) by lia.
  assert (Hup : (dy (M + 1) e <= dy (m1 + 1) e1)%Q).
  { replace e1 with (e + (e1 - e)) at 1 by lia. now apply dy_div_upper. }
  assert (HA : (dy K eK <= dy m1 e1)%Q).
  { destruct (Z_le_gt_dec e1 eK) as [Hle | Hgt].
    - assert (Heq : (dy K eK == dy (K * 2 ^ (eK - e1)) e1)%Q).
      { rewrite dy_shift by lia. now replace (e1 + (eK - e1)) with eK by lia. }
      rewrite Heq in *.
      assert (Hlt : (dy (K * 2 ^ (eK - e1)) e1 < dy (m1 + 1) e1)%Q) by lra.
      apply dy_lt_inv in Hlt. apply dy_le. lia.
    - assert (H1 : 2 ^ (prc - 1) <= m1) by (apply Hn1; lia).
      apply (dy_pow_lower _ _ e1) in H1; [| lia].
      assert (H2 : (dy K eK < 2 ^ (prc + eK))%Q) by (apply dy_pow_upper; lia).
      assert (H3 : (2 ^ (prc + eK) <= 2 ^ (prc - 1 + e1))%Q) by (apply pow2_le; lia).
      lra. }
  assert (HB3 : (dy m3 e3 == dy m2 e1)%Q).
  { destruct Hm3 as [[-> ->] | [-> ->]]; [reflexivity |].
    replace (2 * m3) with (m3 * 2 ^ 1) by lia. now rewrite dy_shift by lia. }
  assert (H12 : (dy m1 e1 <= dy m2 e1)%Q) by (apply dy_le; lia).
  rewrite SFmake_mag by (assumption || lia). lra.
Qed.

Theorem round_neg (s : bool) (M e : Z) (l : location) :
  0 <= M -> e <= fexp (Zdigits2 M + e) ->
  SFneg (binary_round_aux prc emx s M e l) = s.
Proof.
  intros HM He.
  destruct (binary_round_aux_spec prc emx Hprec s M e l HM He)
    as [m2 [m3 [e3 [Hm2 [Hm3 [Hr3 [Hm1 [Hn1 [Hn3 ->]]]]]]]]].
  apply SFmake_neg. lia.
Qed.

(** Rounding is to nearest: the result is no farther above the exact
    value than any representable number is below it. *)
Theorem round_nearest (s : bool) (M e : Z) (K eK : Z) :
  0 <= M ->
  e <= fexp (Zdigits2 M + e) ->
  0 <= K < 2 ^ prc ->
  emin <= eK ->
  (dy K eK <= dy M e)%Q ->
  SFfinite (binary_round_aux prc emx s M e loc_Exact) = true ->
  (SFmag (binary_round_aux prc emx s M e loc_Exact) <= 2 * dy M e - dy K eK)%Q.
Proof.
  intros HM He HK HeK HB.
  destruct (binary_round_aux_spec prc emx Hprec s M e loc_Exact HM He)
    as [m2 [m3 [e3 [Hm2 [Hm3 [Hr3 [Hm1 [Hn1 [Hn3 ->]]]]]]]]].
  set (e1 := fexp (Zdigits2 M + e)) in *.
  set (m1 := M / 2 ^ (e1 - e)) in *.
  intros Hfin.
  assert (Hsh : 0 <= e1 - e) by lia.
  assert (Hlow : (dy m1 e1 <= dy M e)%Q).
  { replace e1 with (e + (e1 - e)) at 1 by lia. now apply dy_div_lower. }
  assert (Hup : (dy (M + 1) e <= dy (m1 + 1) e1)%Q).
  { replace e1 with (e + (e1 - e)) at 1 by lia. now apply dy_div_upper. }
  assert (HMlt : (dy M e < dy (M + 1) e)%Q) by (apply dy_lt; lia).
  assert (HA : (dy K eK <= dy m1 e1)%Q).
  { destruct (Z_le_gt_dec e1 eK) as [Hle | Hgt].
    - assert (Heq : (dy K eK == dy (K * 2 ^ (eK - e1)) e1)%Q).
      { rewrite dy_shift by lia. now replace (e1 + (eK - e1)) with eK by lia. }
      rewrite Heq in *.
      assert (Hlt : (dy (K * 2 ^ (eK - e1)) e1 < dy (m1 + 1) e1)%Q) by lra.
      apply dy_lt_inv in Hlt. apply dy_le. lia.
    - assert (H1 : 2 ^ (prc - 1) <= m1) by (apply Hn1; lia).
      apply (dy_pow_lower _ _ e1) in H1; [| lia].
      assert (H2 : (dy K eK < 2 ^ (prc + eK))%Q) by (apply dy_pow_upper; lia).
      assert (H3 : (2 ^ (prc + eK) <= 2 ^ (prc - 1 + e1))%Q) by (apply pow2_le; lia).
      lra. }
  assert (HB3 : (dy m3 e3 == dy m2 e1)%Q).
  { destruct Hm3 as [[-> ->] | [-> ->]]; [reflexivity |].
    replace (2 * m3) with (m3 * 2 ^ 1) by lia. now rewrite dy_shift by lia. }
  rewrite SFmake_mag by (assumption || lia). rewrite HB3.
  destruct Hm2 as [-> | [-> [_ [Hne | [Hpos Hhalf]]]]]; [lra | now elim Hne |].
  (* rounded up: the part cut off is at least one half *)
  assert (Hsum : (dy (m1 + 1) e1 == dy m1 e1 + dy 1 e1)%Q)
    by (unfold dy; rewrite inject_Z_plus; ring).
  assert (Hhalf' : (dy m1 e1 + dy 1 (e1 - 1) <= dy M e)%Q).
  { assert (E1 : (dy m1 e1 == dy (m1 * 2 ^ (e1 - e)) e)%Q).
    { rewrite dy_shift by lia. now replace (e + (e1 - e)) with e1 by lia. }
    assert (E2 : (dy 1 (e1 - 1) == dy (1 * 2 ^ (e1 - e - 1)) e)%Q).
    { rewrite dy_shift by lia. now replace (e + (e1 - e - 1)) with (e1 - 1) by lia. }
    assert (E3 : (dy (m1 * 2 ^ (e1 - e) + 1 * 2 ^ (e1 - e - 1)) e
                  == dy (m1 * 2 ^ (e1 - e)) e + dy (1 * 2 ^ (e1 - e - 1)) e)%Q)
      by (unfold dy; rewrite inject_Z_plus; ring).
    rewrite E1, E2, <- E3. apply dy_le.
    assert (H2 : 0 < 2 ^ (e1 - e)) by (apply Z.pow_pos_nonneg; lia).
    pose proof (Z.div_mod M (2 ^ (e1 - e)) ltac:(lia)) as Hdm. fold m1 in Hdm. lia. }
  assert (Htwo : (dy 1 e1 == 2 * dy 1 (e1 - 1))%Q).
  { assert (Hp : (2 ^ e1 == 2 ^ (e1 - 1) * 2 ^ 1)%Q).
    { rewrite <- pow2_add. now replace (e1 - 1 + 1) with e1 by lia. }
    unfold dy. rewrite Hp. change (2 ^ 1)%Q with 2%Q. ring. }
  lra.
Qed.

(** The shape of a rounded number: a mantissa below [2^prc], full when the
    exponent is not the smallest one. *)
Theorem round_shape (s : bool) (M e : Z) (l : location) :
  0 <= M -> e <= fexp (Zdigits2 M + e) ->
  exists m3 e3,
    binary_round_aux prc emx s M e l = SFmake prc emx s m3 e3
    /\ 0 <= m3 < 2 ^ prc /\ emin <= e3 /\ (emin < e3 -> 2 ^ (prc - 1) <= m3).
Proof.
  intros HM He.
  destruct (binary_round_aux_spec prc emx Hprec s M e l HM He)
    as [m2 [m3 [e3 [Hm2 [Hm3 [Hr3 [Hm1 [Hn1 [Hn3 ->]]]]]]]]].
  pose proof (fexp_ge_emin prc emx (Zdigits2 M + e)) as Hge.
  exists m3, e3. split; [reflexivity |]. split; [exact Hr3 |].
  split; [lia |]. intros Hlt. apply Hn3. lia.
Qed.

End RoundingBounds.

(** ** Multiplication *)

Section Operations.

Variables prc emx : Z.
Hypothesis Hprec : 0 < prc.
Hypothesis Hemax : prc < emx.

#[local] Abbreviation fexp := (SpecFloat.fexp prc emx).
#[local] Abbreviation emin := (SpecFloat.emin prc emx).


Lemma valid_canonical (s : bool) (m : positive) (e : Z) :
  SpecFloat.valid_binary prc emx (S754_finite s m e) = true -> canonical prc emx m e.
Proof.
  unfold SpecFloat.valid_binary, bounded, canonical_mantissa, canonical. simpl.
  rewrite andb_true_iff, Z.eqb_eq, Z.leb_le. tauto.
Qed.

Lemma canonical_bounds (m : positive) (e : Z) :
  canonical prc emx m e ->
  emin <= e <= emx - prc /\ Zpos m < 2 ^ prc /\ (emin < e -> 2 ^ (prc - 1) <= Zpos m).
Proof.
  intros [Hc He].
  pose proof (Zdigits2_bounds (Zpos m) ltac:(lia)) as [H1 [H2 H3]].
  simpl (if _ =? _ then _ else _) in H1.
  unfold SpecFloat.fexp, SpecFloat.emin in *.
  assert (Hd : Zdigits2 (Zpos m) <= prc) by lia.
  split; [lia |]. split.
  - eapply Z.lt_le_trans; [exact H2 |]. apply Z.pow_le_mono_r; lia.
  - intros Hlt. assert (Zdigits2 (Zpos m) = prc) by lia.
    replace (prc - 1) with (Zdigits2 (Zpos m) - 1) by lia. lia.
Qed.

Lemma Zdigits2_mul (a b : Z) :
  0 < a -> 0 < b -> Zdigits2 a + Zdigits2 b - 1 <= Zdigits2 (a * b).
Proof.
  intros Ha Hb.
  pose proof (Zdigits2_bounds a ltac:(lia)) as [Ha1 [Ha2 Ha3]].
  pose proof (Zdigits2_bounds b ltac:(lia)) as [Hb1 [Hb2 Hb3]].
  replace (if a =? 0 then 1 else 0) with 0 in Ha1 by (destruct (Z.eqb_spec a 0); lia).
  replace (if b =? 0 then 1 else 0) with 0 in Hb1 by (destruct (Z.eqb_spec b 0); lia).
  assert (Hda : 1 <= Zdigits2 a) by (rewrite Zdigits2_log2 by lia; pose proof (Z.log2_nonneg a); lia).
  assert (Hdb : 1 <= Zdigits2 b) by (rewrite Zdigits2_log2 by lia; pose proof (Z.log2_nonneg b); lia).
  destruct (Z.eq_dec (Zdigits2 a + Zdigits2 b - 1) 0) as [E|E].
  - rewrite E. apply Zdigits2_bounds. nia.
  - apply Zdigits2_ge; [lia |].
    replace (Zdigits2 a + Zdigits2 b - 1 - 1) with ((Zdigits2 a - 1) + (Zdigits2 b - 1)) by lia.
    rewrite Z.pow_add_r by lia.
    assert (0 < 2 ^ (Zdigits2 a - 1)) by (apply Z.pow_pos_nonneg; lia).
    assert (0 < 2 ^ (Zdigits2 b - 1)) by (apply Z.pow_pos_nonneg; lia).
    nia.
Qed.

Lemma dy_mul (a b ea eb : Z) : (dy (a * b) (ea + eb) == dy a ea * dy b eb)%Q.
Proof. unfold dy. rewrite inject_Z_mult, pow2_add. ring. Qed.

(** The product of two canonical numbers can be handed to the rounding. *)
Lemma mul_precondition (mx my : positive) (ex ey : Z) :
  canonical prc emx mx ex -> canonical prc emx my ey ->
  ex + ey <= fexp (Zdigits2 (Zpos mx * Zpos my) + (ex + ey)).
Proof.
  intros [Hx Hxe] [Hy Hye].
  pose proof (Zdigits2_mul (Zpos mx) (Zpos my) ltac:(lia) ltac:(lia)) as Hd.
  pose proof (Zdigits2_bounds (Zpos mx) ltac:(lia)) as [_ [_ Hdx]].
  pose proof (Zdigits2_bounds (Zpos my) ltac:(lia)) as [_ [_ Hdy]].
  assert (1 <= Zdigits2 (Zpos mx)) by (simpl; lia).
  assert (1 <= Zdigits2 (Zpos my)) by (simpl; lia).
  unfold SpecFloat.fexp, SpecFloat.emin in *. lia.
Qed.


Lemma SFmag_nonneg (x : spec_float) : (0 <= SFmag x)%Q.
Proof. destruct x; simpl; try lra. apply dy_nonneg. lia. Qed.

(** Multiplication: the magnitude of the product is the rounded product
    of the magnitudes. *)
Theorem SFmul_upper (x y : spec_float) (K eK : Z) :
  SpecFloat.valid_binary prc emx x = true -> SpecFloat.valid_binary prc emx y = true ->
  SFfinite x = true -> SFfinite y = true ->
  0 <= K < 2 ^ prc -> emin <= eK <= emx - prc ->
  (SFmag x * SFmag y <= dy K eK)%Q ->
  SFfinite (SFmul prc emx x y) = true
  /\ (SFmag (SFmul prc emx x y) <= dy K eK)%Q.
Proof.
  intros Vx Vy Fx Fy HK HeK HB.
  assert (HB0 : (0 <= dy K eK)%Q) by (apply dy_nonneg; lia).
  destruct x as [sx|sx| |sx mx ex], y as [sy|sy| |sy my ey]; try discriminate;
    try (split; [reflexivity | exact HB0]).
  apply valid_canonical in Vx, Vy. cbn [SFmul].
  apply round_upper with (v := (dy (Zpos mx) ex * dy (Zpos my) ey)%Q); auto; try lia.
  - now apply mul_precondition.
  - rewrite Pos2Z.inj_mul, dy_mul. lra.
  - intros H. now elim H.
Qed.

Theorem SFmul_lower (x y : spec_float) (K eK : Z) :
  SpecFloat.valid_binary prc emx x = true -> SpecFloat.valid_binary prc emx y = true ->
  SFfinite x = true -> SFfinite y = true ->
  0 <= K < 2 ^ prc -> emin <= eK ->
  (dy K eK <= SFmag x * SFmag y)%Q ->
  SFfinite (SFmul prc emx x y) = true ->
  (dy K eK <= SFmag (SFmul prc emx x y))%Q.
Proof.
  intros Vx Vy Fx Fy HK HeK HB.
  destruct x as [sx|sx| |sx mx ex], y as [sy|sy| |sy my ey]; try discriminate;
    try (intros _; simpl in *; lra).
  apply valid_canonical in Vx, Vy. cbn [SFmul].
  apply round_lower with (v := (dy (Zpos mx) ex * dy (Zpos my) ey)%Q); auto; try lia.
  - now apply mul_precondition.
  - rewrite Pos2Z.inj_mul, <- dy_mul. apply dy_lt. lia.
Qed.

Theorem SFmul_neg (x y : spec_float) :
  SpecFloat.valid_binary prc emx x = true -> SpecFloat.valid_binary prc emx y = true ->
  SFfinite x = true -> SFfinite y = true ->
  SFneg (SFmul prc emx x y) = xorb (SFneg x) (SFneg y).
Proof.
  intros Vx Vy Fx Fy.
  destruct x as [sx|sx| |sx mx ex], y as [sy|sy| |sy my ey]; try discriminate;
    try reflexivity.
  apply valid_canonical in Vx, Vy. cbn [SFmul SFneg].
  apply round_neg; auto; try lia. now apply mul_precondition.
Qed.

End Operations.

(** ** Division *)

Section Division.

Variables prc emx : Z.
Hypothesis Hprec : 0 < prc.
Hypothesis Hemax : prc < emx.

#[local] Abbreviation fexp := (SpecFloat.fexp prc emx).
#[local] Abbreviation emin := (SpecFloat.emin prc emx).

Lemma new_location_exact (nb : Z) : new_location nb 0 = loc_Exact.
Proof.
  unfold new_location, new_location_even, new_location_odd.
  destruct (Z.even nb); reflexivity.
Qed.

Lemma dy_pos (m e : Z) : 0 < m -> (0 < dy m e)%Q.
Proof.
  intros H. unfold dy. apply Qmult_lt_0_compat; [| apply pow2_pos].
  now rewrite Zlt_Qlt in H.
Qed.

(** The quotient that [SFdiv_core_binary] hands to the rounding: its
    mantissa [q] brackets the exact quotient, with location exact only
    when the division is. *)
Lemma SFdiv_core_spec (m1 m2 : positive) (e1 e2 : Z) :
  exists q e' l,
    SFdiv_core_binary prc emx (Zpos m1) e1 (Zpos m2) e2 = (q, e', l)
    /\ 0 <= q
    /\ e' <= fexp (Zdigits2 q + e')
    /\ (dy q e' * dy (Zpos m2) e2 <= dy (Zpos m1) e1)%Q
    /\ (dy (Zpos m1) e1 < dy (q + 1) e' * dy (Zpos m2) e2)%Q
    /\ (l <> loc_Exact -> (dy q e' * dy (Zpos m2) e2 < dy (Zpos m1) e1)%Q).
Proof.
  unfold SFdiv_core_binary.
  set (d1 := Zdigits2 (Zpos m1)). set (d2 := Zdigits2 (Zpos m2)).
  set (e' := Z.min (fexp (d1 + e1 - (d2 + e2))) (e1 - e2)).
  remember (e1 - e2 - e') as s eqn:Es.
  assert (Hs : 0 <= s) by (unfold e' in Es; lia).
  set (m' := match s with Z.pos _ => Z.shiftl (Zpos m1) s | 0 => Zpos m1 | Z.neg _ => 0 end).
  assert (Hm' : m' = Zpos m1 * 2 ^ s).
  { unfold m'. clear m' Es. destruct s as [|p|p]; try lia.
    now rewrite Z.shiftl_mul_pow2 by lia. }
  assert (H2s : 0 < 2 ^ s) by (apply Z.pow_pos_nonneg; lia).
  assert (Hm'pos : 0 < m') by (rewrite Hm'; lia).
  pose proof (Z.div_mod m' (Zpos m2) ltac:(lia)) as Hdm.
  pose proof (Z.mod_pos_bound m' (Zpos m2) ltac:(lia)) as Hrb.
  assert (Hde : Z.div_eucl m' (Zpos m2) = (m' / Zpos m2, m' mod Zpos m2)).
  { unfold Z.div, Z.modulo. now destruct (Z.div_eucl m' (Zpos m2)). }
  rewrite Hde.
  set (q := m' / Zpos m2) in *. set (r := m' mod Zpos m2) in *.
  exists q, e', (new_location (Zpos m2) r).
  assert (Hq : 0 <= q) by (apply Z.div_pos; lia).
  assert (Hmq : (dy m' (e' + e2) == dy (Zpos m1) e1)%Q).
  { rewrite Hm', dy_shift by lia. now replace (e' + e2 + s) with e1 by lia. }
  split; [reflexivity |]. split; [exact Hq |]. split; [| split; [| split]].
  - (* the quotient has enough digits *)
    destruct (Z_le_gt_dec e' emin) as [Hle | Hgt].
    + pose proof (fexp_ge_emin prc emx (Zdigits2 q + e')). lia.
    + assert (HD : e' <= d1 + e1 - (d2 + e2) - prc)
        by (unfold e', SpecFloat.fexp, SpecFloat.emin in *; lia).
      pose proof (Zdigits2_bounds (Zpos m1) ltac:(lia)) as [Ha1 [Ha2 Ha3]].
      pose proof (Zdigits2_bounds (Zpos m2) ltac:(lia)) as [Hb1 [Hb2 Hb3]].
      simpl (if _ =? _ then _ else _) in Ha1, Hb1. fold d1 in Ha1, Ha2, Ha3. fold d2 in Hb1, Hb2, Hb3.
      assert (Hd1 : 1 <= d1) by (unfold d1; simpl; lia).
      assert (Hd2 : 1 <= d2) by (unfold d2; simpl; lia).
      assert (Hq2 : 2 ^ (prc - 1) <= q).
      { unfold q. apply Z.div_le_lower_bound; [lia |].
        assert (Hp1 : 0 < 2 ^ (prc - 1)) by (apply Z.pow_pos_nonneg; lia).
        assert (H1 : Zpos m2 * 2 ^ (prc - 1) <= 2 ^ d2 * 2 ^ (prc - 1))
          by (apply Z.mul_le_mono_nonneg_r; lia).
        rewrite <- Z.pow_add_r in H1 by lia.
        assert (H2 : 2 ^ (d2 + (prc - 1)) <= 2 ^ (d1 - 1) * 2 ^ s).
        { rewrite <- Z.pow_add_r by lia. apply Z.pow_le_mono_r; [lia |].
          clear - Es HD; clearbody e' d1 d2; lia. }
        assert (H3 : 2 ^ (d1 - 1) * 2 ^ s <= Zpos m1 * 2 ^ s)
          by (apply Z.mul_le_mono_nonneg_r; lia).
        rewrite Hm'. lia. }
      pose proof (Zdigits2_ge q prc Hprec Hq2).
      unfold SpecFloat.fexp. lia.
  - rewrite <- Hmq, <- dy_mul. apply dy_le. unfold q. nia.
  - rewrite <- Hmq, <- dy_mul. apply dy_lt. unfold q, r in *. nia.
  - intros Hl. rewrite <- Hmq, <- dy_mul. apply dy_lt.
    assert (r <> 0) by (intros E; apply Hl; rewrite E; apply new_location_exact).
    unfold q, r in *. nia.
Qed.

Theorem SFdiv_upper (x y : spec_float) (K eK : Z) :
  SFfinite x = true -> SFnonzero y = true ->
  0 <= K < 2 ^ prc -> emin <= eK <= emx - prc ->
  (SFmag x <= dy K eK * SFmag y)%Q ->
  SFfinite (SFdiv prc emx x y) = true
  /\ (SFmag (SFdiv prc emx x y) <= dy K eK)%Q.
Proof.
  intros Fx Fy HK HeK HB.
  assert (HB0 : (0 <= dy K eK)%Q) by (apply dy_nonneg; lia).
  destruct y as [sy|sy| |sy my ey]; try discriminate.
  destruct x as [sx|sx| |sx mx ex]; try discriminate;
    try (split; [reflexivity | exact HB0]).
  cbn [SFdiv SFmag] in *.
  destruct (SFdiv_core_spec mx my ex ey) as [q [e' [l [-> [Hq [Hpre [Hlo [Hhi Hl]]]]]]]].
  assert (HY : (0 < dy (Zpos my) ey)%Q) by (apply dy_pos; lia).
  apply round_upper with (v := (dy (Zpos mx) ex / dy (Zpos my) ey)%Q); auto; try lia.
  - apply Qle_shift_div_l; assumption.
  - intros Hne. apply Qlt_shift_div_l; auto.
  - apply Qle_shift_div_r; assumption.
Qed.

Theorem SFdiv_lower (x y : spec_float) (K eK : Z) :
  SFfinite x = true -> SFnonzero y = true ->
  0 <= K < 2 ^ prc -> emin <= eK ->
  (dy K eK * SFmag y <= SFmag x)%Q ->
  SFfinite (SFdiv prc emx x y) = true ->
  (dy K eK <= SFmag (SFdiv prc emx x y))%Q.
Proof.
  intros Fx Fy HK HeK HB.
  destruct y as [sy|sy| |sy my ey]; try discriminate.
  assert (HY : (0 < dy (Zpos my) ey)%Q) by (apply dy_pos; lia).
  destruct x as [sx|sx| |sx mx ex]; try discriminate.
  - intros _. cbn [SFdiv SFmag] in *.
    assert ((0 <= dy K eK)%Q) by (apply dy_nonneg; lia). nra.
  - cbn [SFdiv SFmag] in *.
    destruct (SFdiv_core_spec mx my ex ey) as [q [e' [l [-> [Hq [Hpre [Hlo [Hhi Hl]]]]]]]].
    apply round_lower with (v := (dy (Zpos mx) ex / dy (Zpos my) ey)%Q); auto; try lia.
    + apply Qlt_shift_div_r; assumption.
    + apply Qle_shift_div_l; assumption.
Qed.

Theorem SFdiv_neg (x y : spec_float) :
  SFfinite x = true -> SFnonzero y = true ->
  SFneg (SFdiv prc emx x y) = xorb (SFneg x) (SFneg y).
Proof.
  intros Fx Fy.
  destruct y as [sy|sy| |sy my ey]; try discriminate.
  destruct x as [sx|sx| |sx mx ex]; try discriminate; try reflexivity.
  cbn [SFdiv SFneg].
  destruct (SFdiv_core_spec mx my ex ey) as [q [e' [l [-> [Hq [Hpre _]]]]]].
  apply round_neg; auto.
Qed.

End Division.

(** ** Conversion and addition *)

Lemma Pos_iter_xO (m d : positive) : Zpos (Pos.iter xO m d) = Zpos m * 2 ^ Zpos d.
Proof.
  induction d as [|d IH] using Pos.peano_ind.
  - simpl. lia.
  - rewrite Pos.iter_succ, Pos2Z.inj_xO, IH, Pos2Z.inj_succ, Z.pow_succ_r by lia. ring.
Qed.

Lemma Zdigits2_shift (m k : Z) : 0 < m -> 0 <= k -> Zdigits2 (m * 2 ^ k) = Zdigits2 m + k.
Proof.
  intros Hm Hk. assert (0 < 2 ^ k) by (apply Z.pow_pos_nonneg; lia).
  rewrite !Zdigits2_log2 by nia. rewrite Z.log2_mul_pow2 by lia. lia.
Qed.

Section Normalize.

Variables prc emx : Z.
Hypothesis Hprec : 0 < prc.
Hypothesis Hemax : prc < emx.

#[local] Abbreviation fexp := (SpecFloat.fexp prc emx).
#[local] Abbreviation emin := (SpecFloat.emin prc emx).

Lemma shl_align_spec (mx : positive) (ex ex' : Z) :
  exists mz ez,
    shl_align mx ex ex' = (mz, ez)
    /\ ez = Z.min ex ex'
    /\ Zpos mz = Zpos mx * 2 ^ (ex - ez).
Proof.
  unfold shl_align. destruct (ex' - ex) as [|d|d] eqn:E.
  - exists mx, ex. replace (Z.min ex ex') with ex by lia.
    rewrite Z.sub_diag. simpl. split; [reflexivity | split; [reflexivity | lia]].
  - exists mx, ex. replace (Z.min ex ex') with ex by lia.
    rewrite Z.sub_diag. simpl. split; [reflexivity | split; [reflexivity | lia]].
  - exists (Pos.iter xO mx d), ex'. replace (Z.min ex ex') with ex' by lia.
    split; [reflexivity | split; [reflexivity |]].
    rewrite Pos_iter_xO. f_equal. f_equal. lia.
Qed.

(** [binary_round] pads the mantissa before it rounds, so that the
    rounding lemmas apply to any mantissa and exponent. *)
Lemma binary_round_eq (s : bool) (mx : positive) (ex : Z) :
  exists mz ez,
    binary_round prc emx s mx ex = binary_round_aux prc emx s (Zpos mz) ez loc_Exact
    /\ ez <= fexp (Zdigits2 (Zpos mz) + ez)
    /\ (dy (Zpos mz) ez == dy (Zpos mx) ex)%Q.
Proof.
  unfold binary_round.
  destruct (shl_align_spec mx ex (fexp (Zpos (digits2_pos mx) + ex)))
    as [mz [ez [-> [Hez Hmz]]]].
  exists mz, ez. split; [reflexivity |].
  change (Zpos (digits2_pos mx)) with (Zdigits2 (Zpos mx)) in Hez.
  assert (Hk : 0 <= ex - ez) by lia.
  split.
  - rewrite Hmz, Zdigits2_shift by lia.
    replace (Zdigits2 (Zpos mx) + (ex - ez) + ez) with (Zdigits2 (Zpos mx) + ex) by lia.
    lia.
  - rewrite Hmz, dy_shift by lia. now replace (ez + (ex - ez)) with ex by lia.
Qed.

Theorem binary_round_upper (s : bool) (mx : positive) (ex K eK : Z) :
  0 <= K < 2 ^ prc -> emin <= eK <= emx - prc ->
  (dy (Zpos mx) ex <= dy K eK)%Q ->
  SFfinite (binary_round prc emx s mx ex) = true
  /\ (SFmag (binary_round prc emx s mx ex) <= dy K eK)%Q.
Proof.
  intros HK HeK HB.
  destruct (binary_round_eq s mx ex) as [mz [ez [-> [Hpre Hv]]]].
  apply round_upper with (v := dy (Zpos mx) ex); auto; try lia.
  - rewrite Hv. lra.
  - intros H. now elim H.
Qed.

Theorem binary_round_lower (s : bool) (mx : positive) (ex K eK : Z) :
  0 <= K < 2 ^ prc -> emin <= eK ->
  (dy K eK <= dy (Zpos mx) ex)%Q ->
  SFfinite (binary_round prc emx s mx ex) = true ->
  (dy K eK <= SFmag (binary_round prc emx s mx ex))%Q.
Proof.
  intros HK HeK HB.
  destruct (binary_round_eq s mx ex) as [mz [ez [-> [Hpre Hv]]]].
  apply round_lower with (v := dy (Zpos mx) ex); auto; try lia.
  rewrite <- Hv. apply dy_lt. lia.
Qed.

Theorem binary_round_neg (s : bool) (mx : positive) (ex : Z) :
  SFneg (binary_round prc emx s mx ex) = s.
Proof.
  destruct (binary_round_eq s mx ex) as [mz [ez [-> [Hpre Hv]]]].
  apply round_neg; auto; lia.
Qed.

(** A representable value is not changed. *)
Theorem binary_round_exact (s : bool) (mx : positive) (ex K eK : Z) :
  0 <= K < 2 ^ prc -> emin <= eK <= emx - prc ->
  (dy (Zpos mx) ex == dy K eK)%Q ->
  SFfinite (binary_round prc emx s mx ex) = true
  /\ (SFmag (binary_round prc emx s mx ex) == dy K eK)%Q.
Proof.
  intros HK HeK HB.
  destruct (binary_round_upper s mx ex K eK) as [Hf Hu]; auto; [lra |].
  split; [exact Hf |].
  pose proof (binary_round_lower s mx ex K eK HK ltac:(lia) ltac:(lra) Hf). lra.
Qed.

Theorem binary_normalize_upper (m e : Z) (sz : bool) (K eK : Z) :
  0 <= K < 2 ^ prc -> emin <= eK <= emx - prc ->
  (dy (Z.abs m) e <= dy K eK)%Q ->
  SFfinite (binary_normalize prc emx m e sz) = true
  /\ (SFmag (binary_normalize prc emx m e sz) <= dy K eK)%Q.
Proof.
  intros HK HeK HB. destruct m as [|p|p]; cbn [binary_normalize].
  - split; [reflexivity | apply dy_nonneg; lia].
  - now apply binary_round_upper.
  - now apply binary_round_upper.
Qed.

Theorem binary_normalize_exact (m e : Z) (sz : bool) (K eK : Z) :
  0 <= K < 2 ^ prc -> emin <= eK <= emx - prc ->
  (dy (Z.abs m) e == dy K eK)%Q ->
  SFfinite (binary_normalize prc emx m e sz) = true
  /\ (SFmag (binary_normalize prc emx m e sz) == dy K eK)%Q.
Proof.
  intros HK HeK HB. destruct m as [|p|p]; cbn [binary_normalize].
  - split; [reflexivity |]. change (Z.abs 0) with 0 in HB.
    assert (H0 : (dy 0 e == 0)%Q) by (unfold dy; change (inject_Z 0) with 0%Q; ring).
    cbn [SFmag]. lra.
  - now apply binary_round_exact.
  - now apply binary_round_exact.
Qed.

Theorem binary_normalize_neg (m e : Z) :
  SFneg (binary_normalize prc emx m e false) = (m <? 0).
Proof.
  destruct m as [|p|p]; cbn [binary_normalize]; [reflexivity | |];
    now rewrite binary_round_neg.
Qed.

(** Addition: the magnitude of a sum is at most the rounded sum of the
    magnitudes. *)
Theorem SFadd_upper (x y : spec_float) (K eK : Z) :
  SFfinite x = true -> SFfinite y = true ->
  0 <= K < 2 ^ prc -> emin <= eK <= emx - prc ->
  (SFmag x + SFmag y <= dy K eK)%Q ->
  SFfinite (SFadd prc emx x y) = true
  /\ (SFmag (SFadd prc emx x y) <= dy K eK)%Q.
Proof.
  intros Fx Fy HK HeK HB.
  assert (HB0 : (0 <= dy K eK)%Q) by (apply dy_nonneg; lia).
  pose proof (SFmag_nonneg x) as Hx0. pose proof (SFmag_nonneg y) as Hy0.
  destruct x as [sx|sx| |sx mx ex], y as [sy|sy| |sy my ey]; try discriminate.
  - split; [destruct sx, sy; reflexivity | destruct sx, sy; exact HB0].
  - split; [reflexivity | simpl in *; lra].
  - split; [reflexivity | simpl in *; lra].
  - cbn [SFadd SFmag] in *.
    destruct (shl_align_spec mx ex (Z.min ex ey)) as [mx' [ex' [Ex [Hex' Hmx']]]].
    destruct (shl_align_spec my ey (Z.min ex ey)) as [my' [ey' [Ey [Hey' Hmy']]]].
    rewrite Ex, Ey. cbn [fst].
    set (ez := Z.min ex ey) in *.
    assert (Hex : ex' = ez) by lia. assert (Hey : ey' = ez) by lia.
    clear Hex' Hey'. subst ex' ey'.
    apply binary_normalize_upper; auto.
    assert (H1 : (dy (Zpos mx') ez == dy (Zpos mx) ex)%Q).
    { rewrite Hmx', dy_shift by lia. now replace (ez + (ex - ez)) with ex by lia. }
    assert (H2 : (dy (Zpos my') ez == dy (Zpos my) ey)%Q).
    { rewrite Hmy', dy_shift by lia. now replace (ez + (ey - ez)) with ey by lia. }
    assert (H3 : (dy (Z.abs (cond_Zopp sx (Zpos mx') + cond_Zopp sy (Zpos my'))) ez
                  <= dy (Zpos mx' + Zpos my') ez)%Q).
    { apply dy_le. destruct sx, sy; unfold cond_Zopp; lia. }
    assert (H4 : (dy (Zpos mx' + Zpos my') ez == dy (Zpos mx') ez + dy (Zpos my') ez)%Q).
    { unfold dy. rewrite inject_Z_plus. ring. }
    lra.
Qed.

End Normalize.

(** ** Comparison *)

Section Compare.

Variables prc emx : Z.
Hypothesis Hprec : 0 < prc.
Hypothesis Hemax : prc < emx.

#[local] Abbreviation fexp := (SpecFloat.fexp prc emx).
#[local] Abbreviation emin := (SpecFloat.emin prc emx).

Lemma canonical_lt_exp (m1 m2 : positive) (e1 e2 : Z) :
  canonical prc emx m1 e1 -> canonical prc emx m2 e2 -> e1 < e2 ->
  (dy (Zpos m1) e1 < dy (Zpos m2) e2)%Q.
Proof.
  intros H1 H2 Hlt.
  apply (canonical_bounds prc emx Hprec) in H1, H2.
  destruct H1 as [He1 [Hm1 _]], H2 as [He2 [_ Hm2]].
  assert (Hn : 2 ^ (prc - 1) <= Zpos m2) by (apply Hm2; lia).
  apply (dy_pow_upper _ _ e1) in Hm1; [| lia].
  apply (dy_pow_lower _ _ e2) in Hn; [| lia].
  assert ((2 ^ (prc + e1) <= 2 ^ (prc - 1 + e2))%Q) by (apply pow2_le; lia).
  lra.
Qed.

(** The order of two canonical magnitudes is decided by the exponents,
    then by the mantissas. *)
Lemma canonical_compare (m1 m2 : positive) (e1 e2 : Z) :
  canonical prc emx m1 e1 -> canonical prc emx m2 e2 ->
  match Z.compare e1 e2 with
  | Lt => Lt
  | Gt => Gt
  | Eq => Pos.compare_cont Eq m1 m2
  end = Qcompare (dy (Zpos m1) e1) (dy (Zpos m2) e2).
Proof.
  intros H1 H2. symmetry. destruct (Z.compare_spec e1 e2) as [-> | Hlt | Hgt].
  - change (Pos.compare_cont Eq m1 m2) with (Pos.compare m1 m2).
    destruct (Pos.compare_spec m1 m2) as [-> | Hl | Hg].
    + rewrite <- Qeq_alt. reflexivity.
    + rewrite <- Qlt_alt. apply dy_lt. lia.
    + rewrite <- Qgt_alt. apply dy_lt. lia.
  - rewrite <- Qlt_alt. now apply canonical_lt_exp.
  - rewrite <- Qgt_alt. now apply canonical_lt_exp.
Qed.

Lemma Qcompare_opp (a b : Q) : Qcompare (- a) (- b) = CompOpp (Qcompare a b).
Proof.
  destruct (Qcompare a b) eqn:E; cbn [CompOpp].
  - rewrite <- Qeq_alt. rewrite <- Qeq_alt in E. lra.
  - rewrite <- Qgt_alt. rewrite <- Qlt_alt in E. lra.
  - rewrite <- Qlt_alt. rewrite <- Qgt_alt in E. lra.
Qed.

Theorem SFcompare_val (x y : spec_float) :
  SpecFloat.valid_binary prc emx x = true -> SpecFloat.valid_binary prc emx y = true ->
  SFfinite x = true -> SFfinite y = true ->
  SFcompare x y = Some (Qcompare (SFval x) (SFval y)).
Proof.
  intros Vx Vy Fx Fy.
  destruct x as [sx|sx| |sx mx ex], y as [sy|sy| |sy my ey]; try discriminate.
  - destruct sx, sy; reflexivity.
  - cbn [SFcompare]. f_equal. symmetry. unfold SFval. cbn [SFneg SFmag].
    assert ((0 < dy (Zpos my) ey)%Q) by (apply dy_pos; lia).
    destruct sx, sy; (rewrite <- Qlt_alt || rewrite <- Qgt_alt); lra.
  - cbn [SFcompare]. f_equal. symmetry. unfold SFval. cbn [SFneg SFmag].
    assert ((0 < dy (Zpos mx) ex)%Q) by (apply dy_pos; lia).
    destruct sx, sy; (rewrite <- Qlt_alt || rewrite <- Qgt_alt); lra.
  - apply valid_canonical in Vx, Vy. cbn [SFcompare]. f_equal.
    unfold SFval. cbn [SFneg SFmag].
    assert ((0 < dy (Zpos mx) ex)%Q) by (apply dy_pos; lia).
    assert ((0 < dy (Zpos my) ey)%Q) by (apply dy_pos; lia).
    destruct sx, sy.
    + rewrite Qcompare_opp, <- canonical_compare by assumption.
      destruct (ex ?= ey); reflexivity.
    + symmetry. rewrite <- Qlt_alt. lra.
    + symmetry. rewrite <- Qgt_alt. lra.
    + now apply canonical_compare.
Qed.

End Compare.

(** ** Integer parts *)

Lemma shiftl_floor (a e : Z) :
  (inject_Z (Z.shiftl a e) <= dy a e < inject_Z (Z.shiftl a e) + 1)%Q.
Proof.
  assert (Hd0 : forall n, (dy n 0 == inject_Z n)%Q) by (intros n; unfold dy; simpl; ring).
  destruct (Z_le_gt_dec 0 e) as [He | He].
  - rewrite Z.shiftl_mul_pow2 by lia. rewrite <- (Hd0 (a * 2 ^ e)), dy_shift by lia.
    simpl. lra.
  - remember (- e) as k eqn:Ek. assert (Hk : 0 <= k) by lia.
    assert (He' : e = - k) by lia. clear He Ek. subst e.
    rewrite Z.shiftl_opp_r, Z.shiftr_div_pow2 by lia.
    assert (H2 : 0 < 2 ^ k) by (apply Z.pow_pos_nonneg; lia).
    pose proof (Z.div_mod a (2 ^ k) ltac:(lia)) as Hdm.
    pose proof (Z.mod_pos_bound a (2 ^ k) H2) as Hmb.
    set (n := a / 2 ^ k) in *.
    assert (Hn : (dy (n * 2 ^ k) (- k) == inject_Z n)%Q).
    { rewrite dy_shift by lia. replace (- k + k) with 0 by lia. apply Hd0. }
    assert (Hn1 : (dy ((n + 1) * 2 ^ k) (- k) == inject_Z n + 1)%Q).
    { rewrite dy_shift by lia. replace (- k + k) with 0 by lia.
      rewrite Hd0, inject_Z_plus. reflexivity. }
    assert (H1 : (dy (n * 2 ^ k) (- k) <= dy a (- k))%Q) by (apply dy_le; lia).
    assert (H3 : (dy a (- k) < dy ((n + 1) * 2 ^ k) (- k))%Q) by (apply dy_lt; lia).
    lra.
Qed.

(** ** The operations of binary64 *)

Lemma Hprec64 : 0 < prec. Proof. reflexivity. Qed.
Lemma Hemax64 : prec < emax. Proof. reflexivity. Qed.

Lemma val_mag (x : float) : val x = if neg x then (- mag x)%Q else mag x.
Proof. reflexivity. Qed.

Lemma mag_nonneg (x : float) : (0 <= mag x)%Q.
Proof. apply SFmag_nonneg. Qed.

Lemma repr64_dy (K eK : Z) : 0 <= K < 2 ^ 53 -> -1074 <= eK <= 971 -> repr64 (dy K eK).
Proof. intros HK HeK. exists K, eK. split; [exact HK | split; [exact HeK | reflexivity]]. Qed.

Lemma repr64_mag (x : float) : repr64 (mag x).
Proof.
  unfold mag. pose proof (Prim2SF_valid x) as V.
  destruct (Prim2SF x) as [s|s| |s m e]; cbn [SFmag];
    try (exists 0, 0; split; [lia | split; [lia | unfold dy; simpl; ring]]).
  apply valid_canonical in V. apply (canonical_bounds _ _ Hprec64) in V.
  destruct V as [He [Hm _]]. exists (Zpos m), e.
  split; [split; [lia | exact Hm] | split; [exact He | reflexivity]].
Qed.

Theorem mul_upper (x y : float) (B : Q) :
  finite x = true -> finite y = true -> repr64 B ->
  (mag x * mag y <= B)%Q ->
  finite (x * y) = true /\ (mag (x * y) <= B)%Q.
Proof.
  intros Fx Fy [K [eK [HK [HeK HB]]]] H. unfold finite, mag in *.
  rewrite FloatAxioms.mul_spec. rewrite HB in *.
  apply (SFmul_upper prec emax Hprec64 Hemax64); auto using Prim2SF_valid.
Qed.

Theorem mul_lower (x y : float) (B : Q) :
  finite x = true -> finite y = true -> repr64 B ->
  (B <= mag x * mag y)%Q ->
  finite (x * y) = true ->
  (B <= mag (x * y))%Q.
Proof.
  intros Fx Fy [K [eK [HK [HeK HB]]]] H. unfold finite, mag in *.
  rewrite FloatAxioms.mul_spec. rewrite HB in *.
  apply (SFmul_lower prec emax Hprec64 Hemax64); auto using Prim2SF_valid.
  change (SpecFloat.emin prec emax) with (-1074). lia.
Qed.

Theorem mul_neg (x y : float) :
  finite x = true -> finite y = true -> neg (x * y) = xorb (neg x) (neg y).
Proof.
  intros Fx Fy. unfold finite, neg in *. rewrite FloatAxioms.mul_spec.
  apply (SFmul_neg prec emax Hprec64 Hemax64); auto using Prim2SF_valid.
Qed.


Theorem div_upper (x y : float) (B : Q) :
  finite x = true -> nonzero y = true -> repr64 B ->
  (mag x <= B * mag y)%Q ->
  finite (x / y) = true /\ (mag (x / y) <= B)%Q.
Proof.
  intros Fx Fy [K [eK [HK [HeK HB]]]] H. unfold finite, nonzero, mag in *.
  rewrite FloatAxioms.div_spec. rewrite HB in *.
  apply (SFdiv_upper prec emax Hprec64); auto.
Qed.

Theorem div_lower (x y : float) (B : Q) :
  finite x = true -> nonzero y = true -> repr64 B ->
  (B * mag y <= mag x)%Q ->
  finite (x / y) = true ->
  (B <= mag (x / y))%Q.
Proof.
  intros Fx Fy [K [eK [HK [HeK HB]]]] H. unfold finite, nonzero, mag in *.
  rewrite FloatAxioms.div_spec. rewrite HB in *.
  apply (SFdiv_lower prec emax Hprec64); auto.
  change (SpecFloat.emin prec emax) with (-1074). lia.
Qed.

Theorem div_neg (x y : float) :
  finite x = true -> nonzero y = true -> neg (x / y) = xorb (neg x) (neg y).
Proof.
  intros Fx Fy. unfold finite, nonzero, neg in *. rewrite FloatAxioms.div_spec.
  apply (SFdiv_neg prec emax Hprec64); auto.
Qed.

Theorem add_upper (x y : float) (B : Q) :
  finite x = true -> finite y = true -> repr64 B ->
  (mag x + mag y <= B)%Q ->
  finite (x + y) = true /\ (mag (x + y) <= B)%Q.
Proof.
  intros Fx Fy [K [eK [HK [HeK HB]]]] H. unfold finite, mag in *.
  rewrite FloatAxioms.add_spec. rewrite HB in *.
  apply (SFadd_upper prec emax Hprec64); auto.
Qed.

Lemma nonzero_finite (x : float) : nonzero x = true -> finite x = true.
Proof. unfold nonzero, finite. now destruct (Prim2SF x). Qed.

Lemma nonzero_mag (x : float) : finite x = true -> (0 < mag x)%Q -> nonzero x = true.
Proof.
  unfold nonzero, finite, mag. destruct (Prim2SF x); simpl; try discriminate; auto.
Qed.

Lemma mag_pos_nonzero (x : float) : nonzero x = true -> (0 < mag x)%Q.
Proof.
  unfold nonzero, mag. destruct (Prim2SF x); simpl; try discriminate.
  intros _. apply dy_pos. lia.
Qed.

(** ** Comparisons *)

Theorem ltb_val (x y : float) :
  finite x = true -> finite y = true ->
  (x <? y)%float = true <-> (val x < val y)%Q.
Proof.
  intros Fx Fy. unfold finite, val in *. rewrite FloatAxioms.ltb_spec. unfold SFltb.
  rewrite (SFcompare_val prec emax Hprec64) by auto using Prim2SF_valid.
  rewrite Qlt_alt. destruct (Qcompare _ _); split; congruence.
Qed.

Theorem leb_val (x y : float) :
  finite x = true -> finite y = true ->
  (x <=? y)%float = true <-> (val x <= val y)%Q.
Proof.
  intros Fx Fy. unfold finite, val in *. rewrite FloatAxioms.leb_spec. unfold SFleb.
  rewrite (SFcompare_val prec emax Hprec64) by auto using Prim2SF_valid.
  rewrite Qle_alt. destruct (Qcompare _ _); split; congruence.
Qed.

Lemma finite_not_nan (x : float) : finite x = true -> is_nan x = false.
Proof.
  intros Fx. unfold is_nan. rewrite FloatAxioms.eqb_spec. unfold SFeqb, finite in *.
  rewrite (SFcompare_val prec emax Hprec64) by auto using Prim2SF_valid.
  assert (E : Qcompare (SFval (Prim2SF x)) (SFval (Prim2SF x)) = Eq)
    by (rewrite <- Qeq_alt; reflexivity).
  now rewrite E.
Qed.

(** ** Integers as numbers *)

Lemma of_uint63_exact (z : Z) :
  0 <= z < 2 ^ 53 ->
  finite (of_uint63 (Uint63.of_Z z)) = true
  /\ (mag (of_uint63 (Uint63.of_Z z)) == inject_Z z)%Q
  /\ neg (of_uint63 (Uint63.of_Z z)) = false.
Proof.
  intros Hz. unfold finite, mag, neg. rewrite FloatAxioms.of_uint63_spec.
  rewrite Uint63.of_Z_spec.
  rewrite Z.mod_small by (change wB with (2 ^ 63); split; [lia |];
    eapply Z.lt_trans; [apply Hz | reflexivity]).
  assert (Hd : (dy (Z.abs z) 0 == dy z 0)%Q) by (rewrite Z.abs_eq by lia; reflexivity).
  destruct (binary_normalize_exact prec emax Hprec64 z 0 false z 0) as [Hf Hm];
    auto; [change (SpecFloat.emin prec emax) with (-1074); change (emax - prec) with 971; lia |].
  split; [exact Hf |]. split.
  - rewrite Hm. unfold dy. simpl. ring.
  - rewrite (binary_normalize_neg prec emax Hprec64). apply Z.ltb_ge. lia.
Qed.

Lemma of_uint63_bounded (z : Z) :
  0 <= z < 2 ^ 63 ->
  finite (of_uint63 (Uint63.of_Z z)) = true
  /\ (mag (of_uint63 (Uint63.of_Z z)) <= inject_Z (2 ^ 63))%Q
  /\ neg (of_uint63 (Uint63.of_Z z)) = false.
Proof.
  intros Hz. unfold finite, mag, neg. rewrite FloatAxioms.of_uint63_spec.
  rewrite Uint63.of_Z_spec.
  rewrite Z.mod_small by (change wB with (2 ^ 63); lia).
  assert (Hd : (dy (Z.abs z) 0 <= dy 1 63)%Q).
  { rewrite Z.abs_eq by lia. rewrite <- (dy_shift 1 0 63) by lia.
    apply dy_le. lia. }
  destruct (binary_normalize_upper prec emax Hprec64 z 0 false 1 63) as [Hf Hm];
    auto; [change prec with 53; lia | change (SpecFloat.emin prec emax) with (-1074); change (emax - prec) with 971; lia |].
  split; [exact Hf |]. split.
  - assert (E : (dy 1 63 == inject_Z (2 ^ 63))%Q) by reflexivity.
    rewrite <- E. exact Hm.
  - rewrite (binary_normalize_neg prec emax Hprec64). apply Z.ltb_ge. lia.
Qed.

(** ** [Math.max], [Math.min] and the clamp *)

Lemma is_nan_spec (x : float) : is_nan x = true <-> Prim2SF x = S754_nan.
Proof.
  unfold is_nan. rewrite FloatAxioms.eqb_spec. unfold SFeqb.
  pose proof (Prim2SF_valid x) as V.
  destruct (Prim2SF x) as [s|s| |s m e] eqn:E.
  - destruct s; simpl; split; discriminate.
  - destruct s; simpl; split; discriminate.
  - simpl. tauto.
  - rewrite (SFcompare_val prec emax Hprec64) by auto.
    assert (Hq : Qcompare (SFval (S754_finite s m e)) (SFval (S754_finite s m e)) = Eq)
      by (rewrite <- Qeq_alt; reflexivity).
    rewrite Hq. simpl. split; discriminate.
Qed.

Lemma finite_cases (x : float) :
  finite x = true \/ is_nan x = true \/ exists s, Prim2SF x = S754_infinity s.
Proof.
  unfold finite. destruct (Prim2SF x) as [s|s| |s m e] eqn:E; simpl; auto.
  - right. right. now exists s.
  - right. left. now apply is_nan_spec.
Qed.

(** The magnitude is the absolute value. *)
Lemma mag_le_of_val (x : float) (B : Q) :
  (- B <= val x <= B)%Q -> (mag x <= B)%Q.
Proof. rewrite val_mag. destruct (neg x); lra. Qed.

Lemma val_bounds_of_mag (x : float) (B : Q) :
  (mag x <= B)%Q -> (- B <= val x <= B)%Q.
Proof. pose proof (mag_nonneg x). rewrite val_mag. destruct (neg x); lra. Qed.

(** [Math.min] and [Math.max] of finite numbers. *)
Lemma Math_min_finite (a b : float) :
  finite a = true -> finite b = true ->
  (Math_min a b = a \/ Math_min a b = b)
  /\ (val (Math_min a b) <= val a)%Q /\ (val (Math_min a b) <= val b)%Q.
Proof.
  intros Fa Fb. unfold Math_min.
  rewrite (finite_not_nan a Fa), (finite_not_nan b Fb). cbn [orb].
  pose proof (ltb_val a b Fa Fb) as Hab. pose proof (ltb_val b a Fb Fa) as Hba.
  destruct (a <? b)%float.
  - split; [now left |]. assert ((val a < val b)%Q) by now apply Hab. lra.
  - destruct (b <? a)%float.
    + split; [now right |]. assert ((val b < val a)%Q) by now apply Hba. lra.
    + assert (Hn1 : ~ (val a < val b)%Q) by (intros Hc; apply Hab in Hc; discriminate).
      assert (Hn2 : ~ (val b < val a)%Q) by (intros Hc; apply Hba in Hc; discriminate).
      destruct (get_sign a); (split; [auto |]); lra.
Qed.

Lemma Math_max_finite (a b : float) :
  finite a = true -> finite b = true ->
  (Math_max a b = a \/ Math_max a b = b)
  /\ (val a <= val (Math_max a b))%Q /\ (val b <= val (Math_max a b))%Q.
Proof.
  intros Fa Fb. unfold Math_max.
  rewrite (finite_not_nan a Fa), (finite_not_nan b Fb). cbn [orb].
  pose proof (ltb_val a b Fa Fb) as Hab. pose proof (ltb_val b a Fb Fa) as Hba.
  destruct (a <? b)%float.
  - split; [now right |]. assert ((val a < val b)%Q) by now apply Hab. lra.
  - destruct (b <? a)%float.
    + split; [now left |]. assert ((val b < val a)%Q) by now apply Hba. lra.
    + assert (Hn1 : ~ (val a < val b)%Q) by (intros Hc; apply Hab in Hc; discriminate).
      assert (Hn2 : ~ (val b < val a)%Q) by (intros Hc; apply Hba in Hc; discriminate).
      destruct (get_sign a); (split; [auto |]); lra.
Qed.

Lemma Math_max_finite_is_finite (a b : float) :
  finite a = true -> finite b = true -> finite (Math_max a b) = true.
Proof.
  intros Fa Fb. destruct (Math_max_finite a b Fa Fb) as [[-> | ->] _]; assumption.
Qed.

Lemma Math_min_finite_is_finite (a b : float) :
  finite a = true -> finite b = true -> finite (Math_min a b) = true.
Proof.
  intros Fa Fb. destruct (Math_min_finite a b Fa Fb) as [[-> | ->] _]; assumption.
Qed.

(** The clamp of the encoder: NaN stays NaN; anything else lands in
    [-1, 1], the infinities included. *)
Lemma clampSample_spec (x : float) :
  (is_nan x = true /\ is_nan (clampSample x) = true)
  \/ (finite (clampSample x) = true /\ (mag (clampSample x) <= 1)%Q).
Proof.
  unfold clampSample.
  assert (F1 : finite 1%float = true) by reflexivity.
  assert (Fm1 : finite (-1)%float = true) by reflexivity.
  assert (V1 : (val 1%float == 1)%Q) by reflexivity.
  assert (Vm1 : (val (-1)%float == - (1))%Q) by reflexivity.
  destruct (finite_cases x) as [Fx | [Nx | [s Ix]]].
  - right.
    destruct (Math_min_finite 1 x F1 Fx) as [Hc [H1 H2]].
    assert (Fy : finite (Math_min 1 x) = true) by now apply Math_min_finite_is_finite.
    destruct (Math_max_finite (-1) (Math_min 1 x) Fm1 Fy) as [Hc' [H3 H4]].
    split; [now apply Math_max_finite_is_finite |].
    apply mag_le_of_val.
    destruct Hc' as [E | E]; rewrite E in *; lra.
  - left. split; [exact Nx |].
    unfold Math_min. rewrite Nx, orb_true_r.
    unfold Math_max. now rewrite orb_true_r.
  - right.
    assert (Hn : is_nan x = false).
    { destruct (is_nan x) eqn:E; [| reflexivity]. apply is_nan_spec in E. congruence. }
    assert (Hmin : Math_min 1 x = if s then x else 1%float).
    { unfold Math_min. rewrite Hn. change (is_nan 1) with false. cbn [orb].
      rewrite !FloatAxioms.ltb_spec, Ix. now destruct s. }
    rewrite Hmin. destruct s.
    + assert (Hmax : Math_max (-1) x = (-1)%float).
      { unfold Math_max. rewrite Hn. change (is_nan (-1)) with false. cbn [orb].
        now rewrite !FloatAxioms.ltb_spec, Ix. }
      rewrite Hmax. split; [reflexivity | apply mag_le_of_val; lra].
    + split; [reflexivity |]. vm_compute. discriminate.
Qed.

(** ** Quantisation to 16 bits *)

Lemma SFtrunc_bound (y : spec_float) (B : Z) :
  SFfinite y = true -> (SFmag y <= inject_Z B)%Q ->
  exists t, SFtrunc y = Some t /\ - B <= t <= B.
Proof.
  intros Fy Hy. pose proof (SFmag_nonneg y) as H0.
  assert (HB : 0 <= B) by (rewrite Zle_Qle; change (inject_Z 0) with 0%Q; lra).
  destruct y as [s|s| |s m e]; try discriminate.
  - exists 0. split; [reflexivity | lia].
  - cbn [SFtrunc SFmag] in *. eexists. split; [reflexivity |].
    pose proof (shiftl_floor (Zpos m) e) as [Hf _].
    assert (Hn : Z.shiftl (Zpos m) e <= B) by (rewrite Zle_Qle; lra).
    assert (Hp : 0 <= Z.shiftl (Zpos m) e) by (apply Z.shiftl_nonneg; lia).
    destruct s; simpl; lia.
Qed.

(** ToInt16 of a finite number of magnitude at most 32767 is its
    truncation: nothing wraps. *)
Lemma ToInt16_small (y : float) :
  finite y = true -> (mag y <= 32767)%Q ->
  exists t, SFtrunc (Prim2SF y) = Some t /\ ToInt16 y = t /\ -32767 <= t <= 32767.
Proof.
  intros Fy Hy. destruct (SFtrunc_bound (Prim2SF y) 32767 Fy Hy) as [t [Ht Hb]].
  exists t. split; [exact Ht |]. split; [| exact Hb].
  unfold ToInt16. rewrite Ht. cbv zeta.
  destruct (Z_le_gt_dec 0 t) as [Hp | Hn].
  - rewrite Z.mod_small by lia.
    destruct (Z.leb_spec 32768 t); [lia | reflexivity].
  - replace (t mod 65536) with (t + 65536).
    + destruct (Z.leb_spec 32768 (t + 65536)); lia.
    + symmetry. rewrite <- (Z.mod_add t 1 65536) by lia. apply Z.mod_small. lia.
Qed.

Lemma mul_nan_l (x y : float) : is_nan x = true -> is_nan (x * y) = true.
Proof.
  rewrite !is_nan_spec, FloatAxioms.mul_spec. intros ->. reflexivity.
Qed.

(** Every PCM value fits 16 bits with room to spare, and is the
    truncation of the scaled clamped sample (0 for NaN). *)
Lemma pcm16_spec (x : float) :
  -32767 <= pcm16 x <= 32767
  /\ pcm16 x = match SFtrunc (Prim2SF (clampSample x * 32767)%float) with
               | Some t => t
               | None => 0
               end.
Proof.
  unfold pcm16.
  destruct (clampSample_spec x) as [[_ Hn] | [Fc Hc]].
  - apply (mul_nan_l _ 32767%float) in Hn. apply is_nan_spec in Hn.
    unfold ToInt16. rewrite Hn. simpl. split; [lia | reflexivity].
  - assert (F : finite 32767%float = true) by reflexivity.
    assert (M : (mag 32767%float == 32767)%Q) by reflexivity.
    pose proof (mag_nonneg (clampSample x)) as H0.
    destruct (mul_upper (clampSample x) 32767%float 32767 Fc F) as [Fp Hp].
    + apply (repr64_dy 32767 0); lia.
    + rewrite M. nra.
    + destruct (ToInt16_small _ Fp Hp) as [t [Ht [Hi Hb]]].
      rewrite Hi, Ht. split; [exact Hb | reflexivity].
Qed.

(** ** [Math.floor] *)

(** [Math.floor] of a finite number. *)
Lemma Math_floor_val (y : float) :
  finite y = true ->
  exists n, Math_floor y = Some n /\ (inject_Z n <= val y < inject_Z n + 1)%Q.
Proof.
  unfold finite, Math_floor, val. intros Fy.
  destruct (Prim2SF y) as [s|s| |s m e]; try discriminate.
  - exists 0. split; [reflexivity |]. unfold SFval. cbn [SFneg SFmag].
    change (inject_Z 0) with 0%Q. destruct s; lra.
  - eexists. split; [reflexivity |].
    pose proof (shiftl_floor (cond_Zopp s (Zpos m)) e) as H.
    unfold SFval. cbn [SFneg SFmag].
    destruct s; cbn [cond_Zopp] in H; [| exact H].
    assert (E : (dy (- Zpos m) e == - dy (Zpos m) e)%Q)
      by (unfold dy; rewrite inject_Z_opp; ring).
    rewrite E in H. exact H.
Qed.

Lemma ofZ_exact (z : Z) :
  0 <= z < 2 ^ 53 ->
  finite (ofZ z) = true /\ (mag (ofZ z) == inject_Z z)%Q /\ neg (ofZ z) = false.
Proof.
  intros Hz. unfold ofZ. destruct (Z.ltb_spec z 0); [lia |].
  now apply of_uint63_exact.
Qed.

Lemma val_nonneg (x : float) : neg x = false -> (val x == mag x)%Q.
Proof. intros H. rewrite val_mag, H. reflexivity. Qed.

(** Doubling an integer sample rate is exact. *)
Lemma floor_twice (r : Z) :
  0 < r < 2 ^ 53 -> Math_floor (2 * ofZ r)%float = Some (2 * r).
Proof.
  intros Hr. destruct (ofZ_exact r ltac:(lia)) as [Fr [Mr Nr]].
  assert (F2 : finite 2%float = true) by reflexivity.
  assert (M2 : (mag 2%float == 2)%Q) by reflexivity.
  assert (HB : repr64 (inject_Z (2 * r))).
  { exists r, 1. split; [lia | split; [lia |]].
    unfold dy. change (2 ^ 1)%Q with 2%Q. rewrite inject_Z_mult.
    change (inject_Z 2) with 2%Q. ring. }
  assert (HP : (mag 2%float * mag (ofZ r) == inject_Z (2 * r))%Q)
    by (rewrite M2, Mr, inject_Z_mult; reflexivity).
  destruct (mul_upper 2%float (ofZ r) _ F2 Fr HB) as [Fp Hu]; [lra |].
  pose proof (mul_lower 2%float (ofZ r) _ F2 Fr HB ltac:(lra) Fp) as Hl.
  assert (Np : neg (2 * ofZ r)%float = false) by (rewrite mul_neg, Nr by assumption; reflexivity).
  destruct (Math_floor_val _ Fp) as [n [Hn Hb]].
  rewrite Hn. f_equal. rewrite (val_nonneg _ Np) in Hb.
  assert (inject_Z n <= inject_Z (2 * r))%Q by lra.
  assert (inject_Z (2 * r) < inject_Z (n + 1))%Q
    by (rewrite inject_Z_plus; change (inject_Z 1) with 1%Q; lra).
  rewrite <- Zle_Qle in *. rewrite <- Zlt_Qlt in *. lia.
Qed.

(** A finite number of magnitude at least 1 is normal: its mantissa has
    53 bits, so one unit in the last place is at most [2^-52] of it. *)
(** ** The word index stays below the number of words *)

Lemma normal_form (y : float) :
  finite y = true -> (1 <= mag y)%Q ->
  exists m e,
    2 ^ 52 <= m < 2 ^ 53 /\ -1074 <= e <= 971
    /\ (mag y == inject_Z m * 2 ^ e)%Q.
Proof.
  unfold finite, mag. intros Fy Hy. pose proof (Prim2SF_valid y) as V.
  destruct (Prim2SF y) as [s|s| |s m e]; try discriminate;
    try (cbn [SFmag] in Hy; lra).
  apply valid_canonical in V. apply (canonical_bounds _ _ Hprec64) in V.
  destruct V as [He [Hm Hn]].
  change (SpecFloat.emin prec emax) with (-1074) in *.
  change (emax - prec) with 971 in *. change prec with 53 in *.
  exists (Zpos m), e. cbn [SFmag] in *.
  split; [| split; [exact He | reflexivity]].
  split; [| exact Hm].
  apply Hn. destruct (Z.eq_dec e (-1074)) as [-> | Hne]; [exfalso | lia].
  apply (dy_pow_upper _ _ (-1074)) in Hm; [| lia].
  assert ((2 ^ (53 + -1074) <= 2 ^ 0)%Q) by (apply pow2_le; lia).
  change (2 ^ 0)%Q with 1%Q in *. lra.
Qed.

Lemma Zlt_of_Q (a b : Z) : (inject_Z a < inject_Z b)%Q -> a < b.
Proof. now rewrite <- Zlt_Qlt. Qed.

Lemma Zle_of_Q (a b : Z) : (inject_Z a <= inject_Z b)%Q -> a <= b.
Proof. now rewrite <- Zle_Qle. Qed.

Lemma repr64_Z (z : Z) : 0 <= z < 2 ^ 53 -> repr64 (inject_Z z).
Proof.
  intros Hz. exists z, 0. split; [exact Hz | split; [lia |]]. unfold dy. simpl. ring.
Qed.

Lemma repr64_half (z : Z) : 0 <= z < 2 ^ 52 -> repr64 (inject_Z z + (1 # 2)).
Proof.
  intros Hz. exists (2 * z + 1), (-1). split; [lia | split; [lia |]].
  unfold dy. rewrite inject_Z_plus, inject_Z_mult.
  change (2 ^ (-1))%Q with (1 # 2)%Q. change (inject_Z 2) with 2%Q.
  change (inject_Z 1) with 1%Q. field.
Qed.

(** The word index of the synthesis loop stays inside the word array: the
    float computation [floor(((i / rate) / duration) * length)] never
    reaches [length] while [i] is below the sample count
    [floor(duration * rate)]. *)
Theorem index_below_length (d rf Lf : float) (R L n i : Z) :
  finite d = true -> neg d = false -> (2 <= mag d)%Q ->
  finite rf = true -> neg rf = false -> (mag rf == inject_Z R)%Q -> 1 <= R ->
  finite Lf = true -> neg Lf = false -> (mag Lf == inject_Z L)%Q -> 1 <= L ->
  Math_floor (d * rf)%float = Some n ->
  n <= 2 ^ 32 ->
  0 <= i < n ->
  exists k,
    Math_floor (((ofZ i / rf) / d) * Lf)%float = Some k /\ 0 <= k < L.
Proof.
  intros Fd Nd Hd Fr Nr Mr HR FL NL ML HL Hfloor Hn Hi.
  (* the product duration * rate *)
  assert (FP : finite (d * rf)%float = true).
  { unfold finite. unfold Math_floor in Hfloor.
    destruct (Prim2SF (d * rf)%float); try discriminate; reflexivity. }
  destruct (Math_floor_val _ FP) as [n' [Hn' HP]].
  rewrite Hfloor in Hn'. injection Hn' as <-.
  assert (NP : neg (d * rf)%float = false) by (rewrite mul_neg, Nd, Nr by assumption; reflexivity).
  rewrite (val_nonneg _ NP) in HP.
  assert (HRq : (1 <= inject_Z R)%Q) by (rewrite Zle_Qle in HR; exact HR).
  assert (Hnq : (inject_Z n <= 4294967296)%Q)
    by (change 4294967296%Q with (inject_Z (2 ^ 32)); now rewrite <- Zle_Qle).
  (* the exact product is below n + 1 ... *)
  assert (HV1 : (mag d * inject_Z R < inject_Z n + 1)%Q).
  { destruct (Qlt_le_dec (mag d * inject_Z R) (inject_Z n + 1)) as [|Hge]; [assumption | exfalso].
    assert (Hrep : repr64 (inject_Z (n + 1))) by (apply repr64_Z; lia).
    pose proof (mul_lower d rf _ Fd Fr Hrep) as Hl.
    rewrite Mr, inject_Z_plus in Hl. change (inject_Z 1) with 1%Q in Hl.
    specialize (Hl Hge FP). lra. }
  (* ... and at least i + 1/2 *)
  assert (HV2 : (inject_Z i + (1 # 2) <= mag d * inject_Z R)%Q).
  { destruct (Qlt_le_dec (mag d * inject_Z R) (inject_Z i + (1 # 2))) as [Hlt|]; [exfalso | assumption].
    assert (Hrep : repr64 (inject_Z i + (1 # 2))) by (apply repr64_half; lia).
    destruct (mul_upper d rf _ Fd Fr Hrep) as [_ Hu]; [rewrite Mr; lra |].
    assert (Hni : (inject_Z n < inject_Z (i + 1))%Q).
    { rewrite inject_Z_plus. change (inject_Z 1) with 1%Q. lra. }
    apply Zlt_of_Q in Hni. lia. }
  (* the duration in normal form *)
  destruct (normal_form d Fd ltac:(lra)) as [md [ed [Hmd [Hed HD]]]].
  set (u := (2 ^ ed)%Q) in *.
  assert (Hu : (0 < u)%Q) by apply pow2_pos.
  assert (Hmd1 : (4503599627370496 <= inject_Z md)%Q)
    by (change 4503599627370496%Q with (inject_Z (2 ^ 52)); rewrite <- Zle_Qle; lia).
  assert (Hmd2 : (inject_Z md < 9007199254740992)%Q)
    by (change 9007199254740992%Q with (inject_Z (2 ^ 53)); rewrite <- Zlt_Qlt; lia).
  assert (HuD : (4503599627370496 * u <= mag d)%Q) by (rewrite HD; nra).
  assert (HDu : (mag d < 9007199254740992 * u)%Q) by (rewrite HD; nra).
  (* t = i / rate *)
  destruct (ofZ_exact i ltac:(lia)) as [Fi [Mi Ni]].
  assert (Nzr : nonzero rf = true) by (apply nonzero_mag; [assumption | rewrite Mr; lra]).
  assert (Nzd : nonzero d = true) by (apply nonzero_mag; [assumption | lra]).
  assert (HBt : repr64 (dy (md - 2) ed)) by (apply repr64_dy; lia).
  assert (EBt : (dy (md - 2) ed == mag d - 2 * u)%Q).
  { unfold dy. fold u. unfold Z.sub. rewrite inject_Z_plus, HD.
    change (inject_Z (- (2))) with (- (2))%Q. ring. }
  assert (HuR : (u * inject_Z R <= mag d * inject_Z R * (1 # 4503599627370496))%Q) by nra.
  destruct (div_upper (ofZ i) rf _ Fi Nzr HBt) as [Ft Ht].
  { rewrite Mi, Mr, EBt. nra. }
  assert (Nt : neg (ofZ i / rf)%float = false)
    by (rewrite div_neg, Ni, Nr by assumption; reflexivity).
  (* progress = t / duration *)
  assert (HBp : repr64 (dy (2 ^ 52 - 1) (-52))) by (apply repr64_dy; lia).
  assert (EBp : (dy (2 ^ 52 - 1) (-52) == 1 - (1 # 4503599627370496))%Q) by reflexivity.
  destruct (div_upper (ofZ i / rf)%float d _ Ft Nzd HBp) as [Fp Hp].
  { rewrite EBp. rewrite EBt in Ht. nra. }
  assert (Np : neg (ofZ i / rf / d)%float = false)
    by (rewrite div_neg, Nt, Nd by assumption; reflexivity).
  (* the word count in normal form *)
  assert (HLq : (1 <= inject_Z L)%Q) by (rewrite Zle_Qle in HL; exact HL).
  destruct (normal_form Lf FL ltac:(rewrite ML; exact HLq)) as [mL [eL [HmL [HeL HLf]]]].
  set (uL := (2 ^ eL)%Q) in *.
  assert (HuL : (0 < uL)%Q) by apply pow2_pos.
  assert (HmL1 : (4503599627370496 <= inject_Z mL)%Q)
    by (change 4503599627370496%Q with (inject_Z (2 ^ 52)); rewrite <- Zle_Qle; lia).
  assert (HBx : repr64 (dy (mL - 1) eL)) by (apply repr64_dy; lia).
  assert (EBx : (dy (mL - 1) eL == mag Lf - uL)%Q).
  { unfold dy. fold uL. unfold Z.sub. rewrite inject_Z_plus, HLf.
    change (inject_Z (- (1))) with (- (1))%Q. ring. }
  pose proof (mag_nonneg (ofZ i / rf / d)%float) as Hp0.
  destruct (mul_upper (ofZ i / rf / d)%float Lf _ Fp FL HBx) as [Fx Hx].
  { rewrite EBx, EBp in *. rewrite HLf in *. nra. }
  assert (Nx : neg (ofZ i / rf / d * Lf)%float = false)
    by (rewrite mul_neg, Np, NL by assumption; reflexivity).
  destruct (Math_floor_val _ Fx) as [k [Hk Hkb]].
  exists k. split; [exact Hk |].
  rewrite (val_nonneg _ Nx) in Hkb.
  pose proof (mag_nonneg (ofZ i / rf / d * Lf)%float) as Hx0.
  rewrite EBx, ML in Hx.
  assert (H1 : (inject_Z (-1) < inject_Z k)%Q) by (change (inject_Z (-1)) with (- (1))%Q; lra).
  assert (H2 : (inject_Z k < inject_Z L)%Q) by lra.
  apply Zlt_of_Q in H1, H2. lia.
Qed.

(** ** Rounding to binary32 *)

Section Nearest.

Variables prc emx : Z.
Hypothesis Hprec : 0 < prc.

#[local] Abbreviation fexp := (SpecFloat.fexp prc emx).
#[local] Abbreviation emin := (SpecFloat.emin prc emx).

Theorem binary_round_nearest (s : bool) (mx : positive) (ex K eK : Z) :
  0 <= K < 2 ^ prc -> emin <= eK ->
  (dy K eK <= dy (Zpos mx) ex)%Q ->
  SFfinite (binary_round prc emx s mx ex) = true ->
  (SFmag (binary_round prc emx s mx ex) <= 2 * dy (Zpos mx) ex - dy K eK)%Q.
Proof.
  intros HK HeK HB.
  destruct (binary_round_eq prc emx s mx ex) as [mz [ez [-> [Hez Hv]]]].
  rewrite <- Hv in *. apply (round_nearest prc emx Hprec); auto; lia.
Qed.

Theorem binary_round_shape (s : bool) (mx : positive) (ex : Z) :
  exists m3 e3,
    binary_round prc emx s mx ex = SFmake prc emx s m3 e3
    /\ 0 <= m3 < 2 ^ prc /\ emin <= e3 /\ (emin < e3 -> 2 ^ (prc - 1) <= m3).
Proof.
  destruct (binary_round_eq prc emx s mx ex) as [mz [ez [-> [Hez Hv]]]].
  apply (round_shape prc emx Hprec); [lia | exact Hez].
Qed.

(** Between a full mantissa and the next one there is no number of the
    format. *)
Lemma no_number_between (m3 e3 K eK : Z) :
  0 <= m3 < 2 ^ prc -> (emin < e3 -> 2 ^ (prc - 1) <= m3) ->
  2 ^ (prc - 1) <= K -> K + 1 < 2 ^ prc -> emin <= eK ->
  (dy m3 e3 < dy (K + 1) eK)%Q -> (dy m3 e3 <= dy K eK)%Q.
Proof.
  intros Hm3 Hn HK HK1 HeK Hlt.
  destruct (Z.lt_trichotomy e3 eK) as [H | [H | H]].
  - assert (H1 : (dy m3 e3 < 2 ^ (prc + e3))%Q) by (apply dy_pow_upper; lia).
    assert (H2 : (2 ^ (prc + e3) <= 2 ^ (prc - 1 + eK))%Q) by (apply pow2_le; lia).
    assert (H3 : (2 ^ (prc - 1 + eK) <= dy K eK)%Q) by (apply dy_pow_lower; lia).
    lra.
  - subst e3. apply dy_lt_inv in Hlt. apply dy_le. lia.
  - exfalso.
    assert (H0 : 2 ^ (prc - 1) <= m3) by (apply Hn; lia).
    assert (H1 : (2 ^ (prc - 1 + e3) <= dy m3 e3)%Q) by (apply dy_pow_lower; lia).
    assert (H2 : (2 ^ (prc + eK) <= 2 ^ (prc - 1 + e3))%Q) by (apply pow2_le; lia).
    assert (H3 : (dy (K + 1) eK < 2 ^ (prc + eK))%Q) by (apply dy_pow_upper; lia).
    lra.
Qed.

(** A value no farther above [K] than half the gap to the next number is
    rounded to [K] at most. *)
Theorem binary_round_below (s : bool) (mx : positive) (ex K eK : Z) (V : Q) :
  2 ^ (prc - 1) <= K -> K + 1 < 2 ^ prc -> emin <= eK <= emx - prc ->
  (dy (Zpos mx) ex <= V)%Q ->
  (2 * V - dy K eK < dy (K + 1) eK)%Q ->
  SFfinite (binary_round prc emx s mx ex) = true
  /\ (SFmag (binary_round prc emx s mx ex) <= dy K eK)%Q.
Proof.
  intros HK HK1 HeK HV Hhalf.
  assert (HKK : (dy K eK < dy (K + 1) eK)%Q) by (apply dy_lt; lia).
  assert (Hpos : 0 < 2 ^ (prc - 1)) by (apply Z.pow_pos_nonneg; lia).
  destruct (binary_round_upper prc emx Hprec s mx ex (K + 1) eK) as [Hfin Hup];
    [lia | exact HeK | lra |].
  split; [exact Hfin |].
  destruct (Qlt_le_dec (dy (Zpos mx) ex) (dy K eK)) as [Hlt | Hge].
  - apply (binary_round_upper prc emx Hprec); [lia | exact HeK | lra].
  - pose proof (binary_round_nearest s mx ex K eK ltac:(lia) ltac:(lia) Hge Hfin) as Hn.
    destruct (binary_round_shape s mx ex) as [m3 [e3 [E [Hm3 [He3 Hfull]]]]].
    rewrite E in *.
    rewrite SFmake_mag in * by (assumption || lia).
    apply no_number_between; auto; try lia. lra.
Qed.

End Nearest.

(** ** Binary32 numbers inside binary64 *)

Lemma opp_finite (x : float) : finite (- x) = finite x.
Proof. unfold finite. rewrite FloatAxioms.opp_spec. now destruct (Prim2SF x). Qed.

Lemma opp_mag (x : float) : mag (- x) = mag x.
Proof. unfold mag. rewrite FloatAxioms.opp_spec. now destruct (Prim2SF x). Qed.

Lemma opp_neg (x : float) : finite x = true -> neg (- x) = negb (neg x).
Proof.
  unfold neg, finite. rewrite FloatAxioms.opp_spec. now destruct (Prim2SF x).
Qed.

Lemma ldexp_exact (f : float) (e : Z) (K eK : Z) :
  finite f = true -> -1074 <= e <= 971 ->
  0 <= K < 2 ^ 53 -> -1074 <= eK <= 971 ->
  (mag f * 2 ^ e == dy K eK)%Q ->
  finite (Z.ldexp f e) = true
  /\ (mag (Z.ldexp f e) == dy K eK)%Q
  /\ neg (Z.ldexp f e) = neg f.
Proof.
  intros Ff He HK HeK Hv. unfold Z.ldexp.
  change (emax - SpecFloat.emin prec emax) with 2098.
  change (SpecFloat.emin prec emax - emax - 1) with (-2099).
  rewrite Z.min_l, Z.max_l by lia.
  unfold finite, mag, neg in *. rewrite FloatAxioms.ldshiftexp_spec.
  rewrite Uint63.of_Z_spec.
  rewrite Z.mod_small by (change wB with (2 ^ 63); change shift with 2101; lia).
  replace (e + shift - shift) with e by lia.
  destruct (Prim2SF f) as [s|s| |s m ex]; try discriminate.
  - cbn [SFldexp SFfinite SFmag SFneg] in *. split; [reflexivity |].
    split; [| reflexivity]. rewrite <- Hv. ring.
  - cbn [SFldexp]. cbn [SFmag] in Hv.
    assert (Hd : (dy (Zpos m) (ex + e) == dy K eK)%Q).
    { rewrite <- Hv. unfold dy. rewrite pow2_add. ring. }
    destruct (binary_round_exact prec emax Hprec64 s m (ex + e) K eK) as [H1 H2];
      [exact HK | change (SpecFloat.emin prec emax) with (-1074);
                  change (emax - prec) with 971; lia | exact Hd |].
    split; [exact H1 |]. split; [exact H2 |].
    rewrite (binary_round_neg prec emax Hprec64). reflexivity.
Qed.

Lemma SF2Prim_finite (s : bool) (p : positive) (e : Z) :
  Zpos p < 2 ^ 53 -> -1074 <= e <= 971 ->
  finite (SF2Prim (S754_finite s p e)) = true
  /\ (mag (SF2Prim (S754_finite s p e)) == dy (Zpos p) e)%Q
  /\ neg (SF2Prim (S754_finite s p e)) = s.
Proof.
  intros Hp He. cbn [SF2Prim].
  destruct (of_uint63_exact (Zpos p)) as [F [M N]]; [lia |].
  destruct (ldexp_exact (of_uint63 (Uint63.of_Z (Zpos p))) e (Zpos p) e)
    as [F' [M' N']]; auto; try lia.
  { rewrite M. reflexivity. }
  destruct s.
  - rewrite opp_finite, opp_mag, opp_neg by exact F'.
    rewrite N', N. auto.
  - rewrite N', N. auto.
Qed.

(** [Math.fround] of a value within half a gap above a binary32 number [K]
    is at most [K]. *)
Theorem Math_fround_le (x : float) (V : Q) (K eK : Z) :
  finite x = true -> (mag x <= V)%Q ->
  2 ^ 23 <= K -> K + 1 < 2 ^ 24 -> -149 <= eK <= 104 ->
  (2 * V - dy K eK < dy (K + 1) eK)%Q ->
  finite (Math_fround x) = true
  /\ (mag (Math_fround x) <= dy K eK)%Q
  /\ neg (Math_fround x) = neg x.
Proof.
  intros Fx Hx HK HK1 HeK Hhalf. unfold Math_fround.
  assert (HKK : (dy K eK < dy (K + 1) eK)%Q) by (apply dy_lt; lia).
  assert (H0 : (0 <= dy K eK)%Q) by (apply dy_nonneg; lia).
  unfold finite, mag, neg in *.
  destruct (Prim2SF x) as [s|s| |s m e] eqn:E; try discriminate.
  - rewrite E. cbn [SFfinite SFmag SFneg]. auto.
  - cbn [SFmag SFneg] in *.
    assert (Hprec32 : 0 < 24) by lia.
    destruct (binary_round_below 24 128 Hprec32 s m e K eK V) as [Hf Hm];
      [exact HK | exact HK1
       | change (SpecFloat.emin 24 128) with (-149); lia | exact Hx | exact Hhalf |].
    destruct (binary_round_shape 24 128 Hprec32 s m e) as [m3 [e3 [Es [Hm3 [He3 _]]]]].
    change (SpecFloat.emin 24 128) with (-149) in He3.
    rewrite Es in *. unfold SFmake in *.
    destruct m3 as [|p3|p3]; try discriminate.
    + destruct s; cbn [SF2Prim]; auto.
    + destruct (e3 <=? 128 - 24) eqn:El; try discriminate.
      apply Z.leb_le in El.
      destruct (SF2Prim_finite s p3 e3) as [F' [M' N']]; [lia | lia |].
      unfold finite, mag, neg in *. rewrite M'. cbn [SFmag] in Hm. auto.
Qed.

(** ** Numbers of the synthesizer *)

Lemma within_finite (x : float) (k : Z) : within x k -> finite x = true.
Proof. now intros [H _]. Qed.

Lemma dy_one_mul (a b : Z) : (dy 1 a * dy 1 b == dy 1 (a + b))%Q.
Proof. unfold dy. rewrite pow2_add. ring. Qed.

Lemma dy_one_le (a b : Z) : a <= b -> (dy 1 a <= dy 1 b)%Q.
Proof.
  intros H. unfold dy. apply pow2_le in H.
  change (inject_Z 1) with 1%Q. lra.
Qed.

Lemma dy_one_pos (a : Z) : (0 < dy 1 a)%Q.
Proof. apply dy_pos. lia. Qed.

Lemma within_weaken (x : float) (a b : Z) : a <= b -> within x a -> within x b.
Proof.
  intros H [F M]. split; [exact F |]. apply dy_one_le in H. lra.
Qed.

Lemma within_mul (x y : float) (a b : Z) :
  within x a -> within y b -> -1074 <= a + b <= 971 -> within (x * y) (a + b).
Proof.
  intros [Fx Mx] [Fy My] Hab.
  apply mul_upper; auto.
  - apply repr64_dy; [change (2 ^ 53) with 9007199254740992; lia | exact Hab].
  - rewrite <- dy_one_mul.
    pose proof (mag_nonneg x). pose proof (mag_nonneg y).
    pose proof (dy_one_pos a). nra.
Qed.

Lemma within_add (x y : float) (a : Z) :
  within x a -> within y a -> -1074 <= a + 1 <= 971 -> within (x + y) (a + 1).
Proof.
  intros [Fx Mx] [Fy My] Ha.
  apply add_upper; auto.
  - apply repr64_dy; [change (2 ^ 53) with 9007199254740992; lia | exact Ha].
  - assert (E : (dy 1 (a + 1) == 2 * dy 1 a)%Q).
    { unfold dy. rewrite pow2_add. change (2 ^ 1)%Q with 2%Q. ring. }
    rewrite E. lra.
Qed.

Lemma within_div (x y : float) (a : Z) :
  within x a -> finite y = true -> (1 <= mag y)%Q -> -1074 <= a <= 971 ->
  within (x / y) a.
Proof.
  intros [Fx Mx] Fy My Ha.
  apply div_upper; auto.
  - apply nonzero_mag; [exact Fy | lra].
  - apply repr64_dy; [change (2 ^ 53) with 9007199254740992; lia | exact Ha].
  - pose proof (dy_one_pos a). nra.
Qed.

Lemma of_uint63_within (n : int) :
  within (of_uint63 n) 63 /\ neg (of_uint63 n) = false.
Proof.
  rewrite <- (Uint63.of_to_Z n).
  pose proof (Uint63.to_Z_bounded n) as Hb. change wB with (2 ^ 63) in Hb.
  destruct (of_uint63_bounded (Uint63.to_Z n) Hb) as [F [M N]].
  split; [split |]; auto.
Qed.

Lemma ofZ_within (z : Z) : within (ofZ z) 63.
Proof.
  unfold ofZ. destruct (z <? 0).
  - destruct (of_uint63_within (Uint63.of_Z (- z))) as [[F M] _].
    split; [now rewrite opp_finite | now rewrite opp_mag].
  - apply of_uint63_within.
Qed.

Lemma durationSeconds_spec (text : JSString) :
  within (durationSeconds text) 69
  /\ neg (durationSeconds text) = false
  /\ (2 <= mag (durationSeconds text))%Q.
Proof.
  unfold durationSeconds, wordsPerMinute.
  set (y := (ofZ (wordCount text) / 150 * 60)%float).
  assert (Hy : within y 69).
  { apply (within_mul _ _ 63 6); [| split; by_computation | lia].
    apply within_div; [apply ofZ_within | by_computation | by_computation | lia]. }
  assert (F2 : finite 2%float = true) by reflexivity.
  destruct (Math_max_finite 2%float y F2 (proj1 Hy)) as [Hc [H2 _]].
  assert (V2 : (val 2%float == 2)%Q) by by_computation.
  rewrite V2 in H2.
  assert (W : within (Math_max 2 y) 69).
  { destruct Hc as [-> | ->]; [split; by_computation | exact Hy]. }
  split; [exact W |].
  rewrite val_mag in H2. pose proof (mag_nonneg (Math_max 2 y)).
  destruct (neg (Math_max 2 y)); [lra | split; [reflexivity | exact H2]].
Qed.

(** ** The pieces of a split *)

Lemma leadingWhiteSpace_app (s : JSString) (c : ascii) :
  leadingWhiteSpace (s ++ [c])
  = match s with [] => isWhiteSpace c | _ => leadingWhiteSpace s end.
Proof. now destruct s. Qed.

Lemma trailingWhiteSpace_cons (c : ascii) (s : JSString) :
  trailingWhiteSpace (c :: s)
  = match s with [] => isWhiteSpace c | _ => trailingWhiteSpace s end.
Proof.
  unfold trailingWhiteSpace. cbn [rev]. rewrite leadingWhiteSpace_app.
  destruct s as [|a s]; [reflexivity |].
  destruct (rev (a :: s)) eqn:E; [| reflexivity].
  apply (f_equal (@length ascii)) in E. rewrite length_rev in E. discriminate.
Qed.

Lemma splitLoop_empty_piece (s : JSString) :
  forall (b : bool) (cur : JSString),
    In [] (splitLoop b cur s) ->
    (cur = [] /\ (s = [] \/ (b = false /\ leadingWhiteSpace s = true)))
    \/ trailingWhiteSpace s = true.
Proof.
  induction s as [|c s IH]; intros b cur Hin.
  - simpl in Hin. destruct Hin as [<- | []]. left. auto.
  - cbn [splitLoop] in Hin. rewrite trailingWhiteSpace_cons.
    destruct (isWhiteSpace c) eqn:Hc.
    + destruct b.
      * apply IH in Hin. destruct Hin as [[_ [-> | [H _]]] | H].
        -- now right.
        -- discriminate.
        -- right. destruct s; [discriminate | exact H].
      * destruct Hin as [<- | Hin].
        -- left. split; [reflexivity |]. right. split; [reflexivity | exact Hc].
        -- apply IH in Hin. destruct Hin as [[_ [-> | [H _]]] | H].
           ++ now right.
           ++ discriminate.
           ++ right. destruct s; [discriminate | exact H].
    + apply IH in Hin. destruct Hin as [[H _] | H].
      * now destruct cur.
      * right. destruct s; [discriminate | exact H].
Qed.

Lemma isWhiteSpace_toLowerUnit (c : ascii) :
  isWhiteSpace (toLowerUnit c) = isWhiteSpace c.
Proof. destruct c as [[] [] [] [] [] [] [] []]; reflexivity. Qed.

Lemma leadingWhiteSpace_toLowerCase (s : JSString) :
  leadingWhiteSpace (toLowerCase s) = leadingWhiteSpace s.
Proof. destruct s; [reflexivity | apply isWhiteSpace_toLowerUnit]. Qed.

Lemma trailingWhiteSpace_toLowerCase (s : JSString) :
  trailingWhiteSpace (toLowerCase s) = trailingWhiteSpace s.
Proof.
  unfold trailingWhiteSpace, toLowerCase. rewrite <- map_rev.
  apply leadingWhiteSpace_toLowerCase.
Qed.

(** An empty word comes from an empty text or from white space at an end
    of the text. *)
Lemma words_empty_piece (text : JSString) :
  In [] (words text) ->
  text = [] \/ leadingWhiteSpace text = true \/ trailingWhiteSpace text = true.
Proof.
  unfold words, splitWhitespace. intros H. apply splitLoop_empty_piece in H.
  rewrite leadingWhiteSpace_toLowerCase, trailingWhiteSpace_toLowerCase in H.
  destruct H as [[_ [H | [_ H]]] | H]; auto.
  left. now destruct text.
Qed.

Lemma splitLoop_length (s : JSString) :
  forall (b : bool) (cur : JSString),
    (length (splitLoop b cur s) <= length s + 1)%nat.
Proof.
  induction s as [|c s IH]; intros b cur; simpl; [lia |].
  destruct (isWhiteSpace c); [destruct b |]; simpl;
    [specialize (IH true cur) | specialize (IH true []) | specialize (IH false (cur ++ [c]))];
    lia.
Qed.

Lemma words_length (text : JSString) :
  (1 <= length (words text) <= length text + 1)%nat.
Proof.
  unfold words, splitWhitespace. split; [apply splitLoop_nonempty |].
  etransitivity; [apply splitLoop_length |]. unfold toLowerCase. now rewrite length_map.
Qed.

(** ** The word index *)

Lemma samples_of_index (text : JSString) (rate : Z) (i : nat) :
  (i < sampleCount text rate)%nat ->
  exists n, samples text rate = Some n /\ 0 <= Z.of_nat i < n
            /\ Z.of_nat (sampleCount text rate) = n.
Proof.
  unfold sampleCount. destruct (samples text rate) as [n|]; [| lia].
  intros H. exists n. split; [reflexivity | lia].
Qed.

Theorem wordIndex_in_bounds (text : JSString) (rate : Z) (i : nat) :
  0 < rate < 2 ^ 53 ->
  Z.of_nat (length text) < 2 ^ 53 - 1 ->
  Z.of_nat (sampleCount text rate) <= 2 ^ 32 ->
  (i < sampleCount text rate)%nat ->
  exists k,
    wordIndex text rate i = Some (Z.of_nat k)
    /\ (k < length (words text))%nat
    /\ nth_error (words text) k = Some (currentWord text rate i).
Proof.
  intros Hrate Hlen Hcount Hi.
  destruct (samples_of_index text rate i Hi) as [n [Hn [Hin En]]].
  destruct (durationSeconds_spec text) as [[Fd _] [Nd Md]].
  destruct (ofZ_exact rate) as [Fr [Mr Nr]]; [lia |].
  pose proof (words_length text) as HL.
  destruct (ofZ_exact (Z.of_nat (length (words text)))) as [FL [ML NL]]; [lia |].
  destruct (index_below_length (durationSeconds text) (ofZ rate)
              (ofZ (Z.of_nat (length (words text))))
              rate (Z.of_nat (length (words text))) n (Z.of_nat i))
    as [k [Hk Hkr]]; auto; try lia.
  exists (Z.to_nat k).
  assert (Ew : wordIndex text rate i = Some k) by exact Hk.
  rewrite Z2Nat.id by lia.
  split; [exact Ew |]. split; [lia |].
  unfold currentWord, elementOrEmpty. rewrite Ew.
  replace (k <? 0) with false by (symmetry; apply Z.ltb_ge; lia).
  apply nth_error_nth'. lia.
Qed.

(** ** Reading the container back *)

Lemma le16_read (v : Z) :
  let w := v mod 65536 in w mod 256 + 256 * (w / 256) = w.
Proof. intros w. pose proof (Z.div_mod w 256). lia. Qed.

Lemma le32_read (v : Z) :
  let w := v mod 4294967296 in
  w mod 256 + 256 * (w / 256 mod 256) + 65536 * (w / 65536 mod 256)
  + 16777216 * (w / 16777216) = w.
Proof.
  intros w.
  pose proof (Z.div_mod w 256).
  pose proof (Z.div_mod (w / 256) 256).
  pose proof (Z.div_mod (w / 65536) 256).
  assert (E1 : w / 65536 = w / 256 / 256) by (rewrite Z.div_div by lia; reflexivity).
  assert (E2 : w / 16777216 = w / 65536 / 256) by (rewrite Z.div_div by lia; reflexivity).
  lia.
Qed.

Lemma readUint16_le16 (pre rest : list Z) (v : Z) :
  readUint16 (pre ++ le16 v ++ rest) (length pre) = v mod 65536.
Proof.
  unfold readUint16.
  rewrite <- (Nat.add_0_r (length pre)) at 1.
  rewrite !app_nth2_plus. cbn [le16 app nth]. apply le16_read.
Qed.

Lemma readInt16_le16 (pre rest : list Z) (v : Z) :
  -32768 <= v < 32768 ->
  readInt16 (pre ++ le16 v ++ rest) (length pre) = v.
Proof.
  intros Hv. unfold readInt16. rewrite readUint16_le16.
  destruct (Z_lt_ge_dec v 0) as [Hn | Hp].
  - replace (v mod 65536) with (v + 65536)
      by (apply Z.mod_unique with (q := -1); lia).
    replace (32768 <=? v + 65536) with true by (symmetry; apply Z.leb_le; lia). lia.
  - rewrite Z.mod_small by lia.
    replace (32768 <=? v) with false by (symmetry; apply Z.leb_gt; lia). reflexivity.
Qed.

(** A list cut at one of its positions. *)
Lemma flat_map_seq_split {B} (f : nat -> list B) (n i : nat) :
  (i < n)%nat ->
  flat_map f (seq 0 n)
  = flat_map f (seq 0 i) ++ f i ++ flat_map f (seq (S i) (n - S i)).
Proof.
  intros Hi. replace n with (i + S (n - S i))%nat at 1 by lia.
  rewrite seq_app, flat_map_app. cbn [seq flat_map Nat.add]. reflexivity.
Qed.

(** The payload around the slot of frame [i], channel [c]. *)
Lemma payloadBytes_slot (buffer : AudioBuffer) (i c : nat) :
  (i < buffer_length buffer)%nat -> (c < numberOfChannels buffer)%nat ->
  exists pre rest,
    payloadBytes buffer
    = pre ++ le16 (pcm16 (getSample (getChannelData buffer c) i)) ++ rest
    /\ length pre = ((i * numberOfChannels buffer + c) * 2)%nat.
Proof.
  intros Hi Hc. unfold payloadBytes.
  rewrite (flat_map_seq_split _ _ i Hi).
  unfold frameBytes at 2. rewrite (flat_map_seq_split _ _ c Hc).
  set (slot := le16 (pcm16 (getSample (getChannelData buffer c) i))).
  set (f := fun channel => le16 (pcm16 (getSample (getChannelData buffer channel) i))).
  exists (flat_map (frameBytes buffer) (seq 0 i) ++ flat_map f (seq 0 c)).
  eexists. split.
  - rewrite <- !app_assoc. reflexivity.
  - rewrite length_app.
    rewrite (flat_map_length_const _ (numberOfChannels buffer * 2)%nat)
      by apply frameBytes_length.
    rewrite (flat_map_length_const _ 2%nat) by reflexivity.
    rewrite !length_seq. lia.
Qed.

(** The 16-bit value at the slot of frame [i], channel [c] of the output. *)
Lemma encoded_slot (buffer : AudioBuffer) (i c : nat) :
  (i < buffer_length buffer)%nat -> (c < numberOfChannels buffer)%nat ->
  exists bytes,
    audioBufferToWav buffer = Ok bytes
    /\ readInt16 bytes (44 + (i * numberOfChannels buffer + c) * 2)
       = pcm16 (getSample (getChannelData buffer c) i).
Proof.
  intros Hi Hc. rewrite audioBufferToWav_bytes. eexists. split; [reflexivity |].
  destruct (payloadBytes_slot buffer i c Hi Hc) as [pre [rest [-> Hlen]]].
  rewrite app_assoc.
  replace (44 + (i * numberOfChannels buffer + c) * 2)%nat
    with (length (wavHeader (Z.of_nat (buffer_length buffer))
                            (Z.of_nat (numberOfChannels buffer))
                            (sampleRate buffer) ++ pre))
    by (rewrite length_app, wavHeader_length, Hlen; reflexivity).
  apply readInt16_le16. pose proof (pcm16_spec (getSample (getChannelData buffer c) i)). lia.
Qed.

(** ** The channel after the loop *)

Lemma fold_upd_seq {A} (f : nat -> A) (n : nat) :
  forall (pre rest : list A),
    length rest = n ->
    fold_left (fun data i => upd data i (f i)) (seq (length pre) n) (pre ++ rest)
    = pre ++ map f (seq (length pre) n).
Proof.
  induction n as [|n IH]; intros pre rest Hr.
  - destruct rest; [reflexivity | discriminate].
  - destruct rest as [|a rest]; [discriminate |]. injection Hr as Hr.
    cbn [seq fold_left map]. rewrite upd_app_here.
    replace (pre ++ f (length pre) :: rest) with ((pre ++ [f (length pre)]) ++ rest)
      by (now rewrite <- app_assoc).
    replace (S (length pre)) with (length (pre ++ [f (length pre)]))
      by (rewrite length_app; simpl; lia).
    rewrite IH by exact Hr. now rewrite <- app_assoc.
Qed.

Section Channel.

Variable Math_sin : float -> float.

Lemma fillChannel_spec (text voiceName : JSString) (rate : Z) (n : nat) (data : list float) :
  length data = n ->
  fillChannel Math_sin text voiceName rate n data
  = map (fun i => Math_fround (sample Math_sin text voiceName rate i)) (seq 0 n).
Proof.
  intros H. unfold fillChannel.
  apply (fold_upd_seq (fun i => Math_fround (sample Math_sin text voiceName rate i)) n [] data H).
Qed.

Lemma synthesizeBuffer_channel (text voiceName : JSString) (rate : Z) :
  getChannelData (synthesizeBuffer Math_sin text voiceName rate) 0
  = map (fun i => Math_fround (sample Math_sin text voiceName rate i))
        (seq 0 (sampleCount text rate)).
Proof.
  unfold synthesizeBuffer, getChannelData. cbn [channels nth createBuffer repeat].
  apply fillChannel_spec. apply repeat_length.
Qed.

Lemma synthesizeBuffer_sample (text voiceName : JSString) (rate : Z) (i : nat) :
  (i < sampleCount text rate)%nat ->
  getSample (getChannelData (synthesizeBuffer Math_sin text voiceName rate) 0) i
  = Math_fround (sample Math_sin text voiceName rate i).
Proof.
  intros Hi. rewrite synthesizeBuffer_channel. unfold getSample.
  rewrite (nth_indep _ nan (Math_fround (sample Math_sin text voiceName rate 0)))
    by (rewrite length_map, length_seq; exact Hi).
  rewrite (map_nth (fun i => Math_fround (sample Math_sin text voiceName rate i))).
  now rewrite seq_nth.
Qed.

End Channel.

(** ** The clamp on a sample that is in range *)

Lemma clampSample_in_range (x : float) :
  finite x = true -> (mag x <= 1)%Q ->
  clampSample x = x /\ ((-1 <=? x) && (x <=? 1))%float = true.
Proof.
  intros Fx Mx.
  pose proof (val_bounds_of_mag x 1 Mx) as [Hlo Hhi].
  assert (F1 : finite 1%float = true) by reflexivity.
  assert (Fm : finite (-1)%float = true) by reflexivity.
  assert (V1 : (val 1%float == 1)%Q) by by_computation.
  assert (Vm : (val (-1)%float == -1)%Q) by by_computation.
  pose proof (finite_not_nan x Fx) as Nx.
  assert (Emin : Math_min 1 x = x).
  { unfold Math_min. rewrite Nx. cbn [orb].
    change (PrimFloat.is_nan 1) with false. cbn [orb].
    destruct (1 <? x)%float eqn:E1.
    - apply (ltb_val 1 x F1 Fx) in E1. lra.
    - destruct (x <? 1)%float; reflexivity. }
  assert (Emax : Math_max (-1) x = x).
  { unfold Math_max. rewrite Nx.
    change (PrimFloat.is_nan (-1)) with false. cbn [orb].
    destruct (-1 <? x)%float eqn:E1; [reflexivity |].
    destruct (x <? -1)%float eqn:E2; [| reflexivity].
    apply (ltb_val x (-1) Fx Fm) in E2. lra. }
  split.
  - unfold clampSample. now rewrite Emin, Emax.
  - apply andb_true_intro. split.
    + apply (leb_val (-1) x Fm Fx). lra.
    + apply (leb_val x 1 Fx F1). lra.
Qed.

(** ** The magnitude of a synthesized sample *)

Lemma atMost_mul (x y : float) (Bx By : Q) (b : float) :
  atMost x Bx -> atMost y By -> (Bx * By <= mag b)%Q -> atMost (x * y) (mag b).
Proof.
  intros [Fx Mx] [Fy My] H. apply mul_upper; auto using repr64_mag.
  pose proof (mag_nonneg x). pose proof (mag_nonneg y). nra.
Qed.

Lemma atMost_add (x y : float) (Bx By : Q) (b : float) :
  atMost x Bx -> atMost y By -> (Bx + By <= mag b)%Q -> atMost (x + y) (mag b).
Proof.
  intros [Fx Mx] [Fy My] H. apply add_upper; auto using repr64_mag. lra.
Qed.

Lemma atMost_const (c : float) : finite c = true -> atMost c (mag c).
Proof. intros F. split; [exact F | lra]. Qed.

Section Bound.

Variable Math_sin : float -> float.

Hypothesis Math_sin_range :
  forall x, finite x = true -> finite (Math_sin x) = true /\ (mag (Math_sin x) <= 1)%Q.

Variables (text voiceName : JSString) (rate : Z) (i : nat).

Hypothesis Hrate : 0 < rate < 2 ^ 53.

Lemma sample_t_within : within (sample_t rate i) 63.
Proof.
  unfold sample_t. destruct (ofZ_exact rate) as [Fr [Mr _]]; [lia |].
  apply within_div; [apply ofZ_within | exact Fr | | lia].
  rewrite Mr. change 1%Q with (inject_Z 1). rewrite <- Zle_Qle. lia.
Qed.

Lemma sample_progress_within : within (sample_progress text rate i) 63.
Proof.
  unfold sample_progress. destruct (durationSeconds_spec text) as [[Fd _] [_ Md]].
  apply within_div; [apply sample_t_within | exact Fd | lra | lia].
Qed.

Lemma frequency_within : within (frequency voiceName) 8.
Proof.
  unfold frequency. destruct (includes _ _); split; by_computation.
Qed.

Lemma wordFreq_within : within (wordFreq text voiceName rate i) 67.
Proof.
  unfold wordFreq. apply (within_add _ _ 66); [| | lia].
  - apply (within_weaken _ 8); [lia | apply frequency_within].
  - apply (within_mul _ _ 63 3); [apply ofZ_within | split; by_computation | lia].
Qed.

Lemma charCode_within : within (charCode text rate i) 63.
Proof.
  unfold charCode, numberOr, charCodeAt.
  destruct (nth_error (currentWord text rate i) 0) as [c|].
  - destruct (_ || _); [split; by_computation | apply ofZ_within].
  - split; by_computation.
Qed.

Lemma two_pi_within : within (2 * Math_PI)%float 3.
Proof. split; by_computation. Qed.

Lemma carrier_within : within (2 * Math_PI * wordFreq text voiceName rate i)%float 70.
Proof. apply (within_mul _ _ 3 67); [apply two_pi_within | apply wordFreq_within | lia]. Qed.

Lemma sin_bounded (x : float) (k : Z) : within x k -> atMost (Math_sin x) 1.
Proof. intros [F _]. apply Math_sin_range, F. Qed.

Lemma fundamental_bounded : atMost (fundamental Math_sin text voiceName rate i) 1.
Proof.
  unfold fundamental. apply (sin_bounded _ 133).
  apply (within_mul _ _ 70 63); [apply carrier_within | apply sample_t_within | lia].
Qed.

Lemma formant1_bounded :
  atMost (formant1 Math_sin text voiceName rate i) (mag 0.3%float).
Proof.
  unfold formant1. apply (atMost_mul _ _ 1 (mag 0.3%float)).
  - apply (sin_bounded _ 135).
    apply (within_mul _ _ 72 63); [| apply sample_t_within | lia].
    apply (within_mul _ _ 70 2); [apply carrier_within | split; by_computation | lia].
  - apply atMost_const. reflexivity.
  - lra.
Qed.

Lemma formant2_bounded :
  atMost (formant2 Math_sin text voiceName rate i) (mag 0.2%float).
Proof.
  unfold formant2. apply (atMost_mul _ _ 1 (mag 0.2%float)).
  - apply (sin_bounded _ 135).
    apply (within_mul _ _ 72 63); [| apply sample_t_within | lia].
    apply (within_mul _ _ 70 2); [apply carrier_within | split; by_computation | lia].
  - apply atMost_const. reflexivity.
  - lra.
Qed.

Lemma modulation_bounded :
  atMost (modulation Math_sin text rate i) (mag 0.3%float).
Proof.
  unfold modulation. apply (atMost_mul _ _ 1 (mag 0.3%float)).
  - apply (sin_bounded _ 66).
    apply (within_add _ _ 65); [| | lia].
    + apply (within_mul _ _ 65 0); [| split; by_computation | lia].
      apply (within_mul _ _ 63 2); [apply sample_t_within | split; by_computation | lia].
    + apply (within_weaken _ 63); [lia | apply charCode_within].
  - apply atMost_const. reflexivity.
  - lra.
Qed.

Lemma envelope_bounded :
  atMost (envelope Math_sin text rate i) (mag 0.8%float).
Proof.
  unfold envelope. apply (atMost_mul _ _ 1 (mag 0.8%float)).
  - apply (sin_bounded _ 65).
    apply (within_mul _ _ 2 63); [split; by_computation | apply sample_progress_within | lia].
  - apply atMost_const. reflexivity.
  - lra.
Qed.

(** The sample before it is stored, within a few units in the last place
    of 0.288. *)
Lemma sample_bounded :
  atMost (sample Math_sin text voiceName rate i) (mag 0.2880000000000004%float).
Proof.
  unfold sample.
  apply (atMost_mul _ _ (mag 1.4400000000000015%float) (mag 0.2%float));
    [| apply atMost_const; reflexivity | by_computation].
  apply (atMost_mul _ _ (mag 1.800000000000001%float) (mag 0.8%float));
    [| apply envelope_bounded | by_computation].
  apply (atMost_add _ _ (mag 1.5000000000000005%float) (mag 0.3%float));
    [| apply modulation_bounded | by_computation].
  apply (atMost_add _ _ (mag 1.3000000000000003%float) (mag 0.2%float));
    [| apply formant2_bounded | by_computation].
  apply (atMost_add _ _ 1 (mag 0.3%float));
    [apply fundamental_bounded | apply formant1_bounded | by_computation].
Qed.

(** The sample as the [Float32Array] holds it. *)
Lemma stored_sample_bounded :
  atMost (Math_fround (sample Math_sin text voiceName rate i)) (288 # 1000).
Proof.
  destruct sample_bounded as [F M].
  destruct (Math_fround_le _ _ 9663676 (-25) F M) as [F' [M' _]];
    [by_computation | by_computation | lia | by_computation |].
  split; [exact F' |].
  assert (E : (dy 9663676 (-25) <= 288 # 1000)%Q) by by_computation.
  lra.
Qed.

End Bound.

(** ** The PCM payload *)

(** C7: whatever float the buffer holds in a slot (out of range, infinite
    or NaN included), the 16-bit value the encoder writes for it reads back
    as an integer between -32767 and 32767. *)
Theorem C7_pcm_values_in_range (buffer : AudioBuffer) (i c : nat) :
  (i < buffer_length buffer)%nat -> (c < numberOfChannels buffer)%nat ->
  exists bytes,
    audioBufferToWav buffer = Ok bytes
    /\ -32767 <= readInt16 bytes (44 + (i * numberOfChannels buffer + c) * 2) <= 32767.
Proof.
  intros Hi Hc. destruct (encoded_slot buffer i c Hi Hc) as [bytes [E R]].
  exists bytes. split; [exact E |]. rewrite R.
  apply pcm16_spec.
Qed.

Lemma C7_witness :
  (1 < buffer_length smallBuffer)%nat /\ (0 < numberOfChannels smallBuffer)%nat
  /\ exists bytes,
       audioBufferToWav smallBuffer = Ok bytes
       /\ -32767 <= readInt16 bytes (44 + (1 * numberOfChannels smallBuffer + 0) * 2) <= 32767.
Proof.
  assert (H1 : (1 < buffer_length smallBuffer)%nat) by (simpl; lia).
  assert (H2 : (0 < numberOfChannels smallBuffer)%nat) by (simpl; lia).
  split; [exact H1 | split; [exact H2 |]].
  exact (C7_pcm_values_in_range smallBuffer 1 0 H1 H2).
Defined.

(** C2 (amended): the slot of frame [i], channel [c], at byte offset
    [44 + (i * channelCount + c) * 2], holds as a signed 16-bit
    little-endian integer the clamped sample times 32767 with its fraction
    dropped (truncated toward zero, not rounded); a NaN sample gives 0. *)
Theorem C2_payload_slot_truncates (buffer : AudioBuffer) (i c : nat) :
  (i < buffer_length buffer)%nat -> (c < numberOfChannels buffer)%nat ->
  exists bytes,
    audioBufferToWav buffer = Ok bytes
    /\ readInt16 bytes (44 + (i * numberOfChannels buffer + c) * 2)
       = match SFtrunc (Prim2SF
                 (clampSample (getSample (getChannelData buffer c) i) * 32767)%float) with
         | Some t => t
         | None => 0
         end.
Proof.
  intros Hi Hc. destruct (encoded_slot buffer i c Hi Hc) as [bytes [E R]].
  exists bytes. split; [exact E |]. rewrite R.
  apply pcm16_spec.
Qed.

Lemma C2_witness :
  (0 < buffer_length quarterBuffer)%nat /\ (0 < numberOfChannels quarterBuffer)%nat
  /\ exists bytes,
       audioBufferToWav quarterBuffer = Ok bytes
       /\ readInt16 bytes (44 + (0 * numberOfChannels quarterBuffer + 0) * 2)
          = match SFtrunc (Prim2SF
                    (clampSample (getSample (getChannelData quarterBuffer 0) 0) * 32767)%float) with
            | Some t => t
            | None => 0
            end.
Proof.
  assert (H1 : (0 < buffer_length quarterBuffer)%nat) by (simpl; lia).
  assert (H2 : (0 < numberOfChannels quarterBuffer)%nat) by (simpl; lia).
  split; [exact H1 | split; [exact H2 |]].
  exact (C2_payload_slot_truncates quarterBuffer 0 0 H1 H2).
Defined.

(** C2 (as stated) fails: for the sample 0.25 the encoder writes 8191,
    while round(0.25 * 32767) = round(8191.75) is 8192. *)
Lemma C2_counterexample :
  (exists bytes,
     audioBufferToWav quarterBuffer = Ok bytes /\ readInt16 bytes 44 = 8191)
  /\ specPcm16 (getSample (getChannelData quarterBuffer 0) 0) = Some 8192.
Proof.
  split; [eexists; split |]; vm_compute; reflexivity.
Qed.

(** ** The header *)

(** The header fields a decoder reads, when each value fits its field. *)
Lemma decodeHeader_wavHeader (frames nChannels rate : Z) (payload : list Z) :
  0 <= rate < 2 ^ 32 -> 0 <= nChannels < 2 ^ 16 -> 0 <= frames * nChannels * 2 < 2 ^ 32 ->
  decodeHeader (wavHeader frames nChannels rate ++ payload)
  = {| fmt_sampleRate := rate;
       fmt_channelCount := nChannels;
       fmt_bitDepth := 16;
       fmt_dataBytes := frames * nChannels * 2 |}.
Proof.
  intros HR HC HD.
  change (2 ^ 32) with 4294967296 in *. change (2 ^ 16) with 65536 in *.
  pose proof (le32_read rate) as E1.
  pose proof (le16_read nChannels) as E2.
  pose proof (le32_read (frames * nChannels * 2)) as E3.
  cbv zeta in E1, E2, E3.
  unfold decodeHeader, readUint32, readUint16, wavHeader, le32, le16.
  cbn -[Z.modulo Z.div Z.mul Z.add].
  rewrite E1, E2, E3.
  rewrite (Z.mod_small rate), (Z.mod_small nChannels),
    (Z.mod_small (frames * nChannels * 2)) by assumption.
  reflexivity.
Qed.

Section HelloWorld.

Variable Math_sin : float -> float.

Lemma synthesizeBuffer_length (text voiceName : JSString) (rate : Z) :
  buffer_length (synthesizeBuffer Math_sin text voiceName rate) = sampleCount text rate.
Proof. reflexivity. Qed.

Lemma synthesizeBuffer_numberOfChannels (text voiceName : JSString) (rate : Z) :
  numberOfChannels (synthesizeBuffer Math_sin text voiceName rate) = 1%nat.
Proof. reflexivity. Qed.

Lemma synthesizeBuffer_sampleRate (text voiceName : JSString) (rate : Z) :
  sampleRate (synthesizeBuffer Math_sin text voiceName rate) = rate.
Proof. reflexivity. Qed.

Lemma sampleCount_hello_world :
  Z.of_nat (sampleCount (str "Hello world") 8000) = 16000.
Proof. vm_compute. reflexivity. Qed.

(** The end-to-end example of the specification, whatever [Math.sin]
    returns: 32044 bytes that begin with the header of a mono 8000 Hz
    stream of 32000 data bytes. *)
Example hello_world_container :
  exists bytes,
    audioBufferToWav
      (synthesizeBuffer Math_sin (str "Hello world") (str "voice-female-professional-1") 8000)
    = Ok bytes
    /\ Z.of_nat (length bytes) = 32044
    /\ firstn 4 bytes = map codeUnit (str "RIFF")
    /\ firstn 4 (skipn 8 bytes) = map codeUnit (str "WAVE")
    /\ readUint16 bytes 22 = 1
    /\ readUint32 bytes 24 = 8000.
Proof.
  rewrite audioBufferToWav_bytes. eexists. split; [reflexivity |].
  pose proof sampleCount_hello_world as E.
  rewrite synthesizeBuffer_length, synthesizeBuffer_numberOfChannels,
    synthesizeBuffer_sampleRate, E.
  split.
  - rewrite length_app, wavHeader_length, payloadBytes_length.
    rewrite synthesizeBuffer_length, synthesizeBuffer_numberOfChannels. lia.
  - repeat split; reflexivity.
Qed.

End HelloWorld.

(** C4: the encoder returns [44 + N*C*2] bytes; the first 44 are the header
    table of the specification, field by field, and a decoder of the header
    reads back the sample rate, the channel count, 16 bits per sample and
    the data size [N*C*2], each value being one its header field can hold. *)
Theorem C4_header_round_trip (buffer : AudioBuffer) :
  let N := Z.of_nat (buffer_length buffer) in
  let C := Z.of_nat (numberOfChannels buffer) in
  let R := sampleRate buffer in
  0 <= R < 2 ^ 32 -> C < 2 ^ 16 -> N * C * 2 < 2 ^ 32 ->
  exists bytes,
    audioBufferToWav buffer = Ok bytes
    /\ Z.of_nat (length bytes) = 44 + N * C * 2
    /\ firstn 44 bytes = wavHeader N C R
    /\ decodeHeader bytes
       = {| fmt_sampleRate := R;
            fmt_channelCount := C;
            fmt_bitDepth := 16;
            fmt_dataBytes := N * C * 2 |}.
Proof.
  intros N C R HR HC HD. rewrite audioBufferToWav_bytes. eexists.
  split; [reflexivity |]. fold N C R. split; [| split].
  - rewrite length_app, wavHeader_length, payloadBytes_length. unfold N, C. lia.
  - rewrite firstn_app, wavHeader_length, Nat.sub_diag, firstn_O, app_nil_r.
    apply firstn_all2. now rewrite wavHeader_length.
  - apply decodeHeader_wavHeader; unfold N, C in *; lia.
Qed.

Lemma C4_witness :
  let buffer :=
    synthesizeBuffer sinAtPeak (str "Hello world") (str "voice-female-professional-1") 8000 in
  let N := Z.of_nat (buffer_length buffer) in
  let C := Z.of_nat (numberOfChannels buffer) in
  let R := sampleRate buffer in
  0 <= R < 2 ^ 32 /\ C < 2 ^ 16 /\ N * C * 2 < 2 ^ 32
  /\ exists bytes,
       audioBufferToWav buffer = Ok bytes
       /\ Z.of_nat (length bytes) = 44 + N * C * 2
       /\ firstn 44 bytes = wavHeader N C R
       /\ decodeHeader bytes
          = {| fmt_sampleRate := R;
               fmt_channelCount := C;
               fmt_bitDepth := 16;
               fmt_dataBytes := N * C * 2 |}.
Proof.
  intros buffer N C R.
  assert (HN : N = 16000)
    by (unfold N, buffer; rewrite synthesizeBuffer_length;
        exact sampleCount_hello_world).
  assert (HR : 0 <= R < 2 ^ 32) by (unfold R, buffer; simpl; lia).
  assert (HC : C < 2 ^ 16) by (unfold C, buffer; simpl; lia).
  assert (HD : N * C * 2 < 2 ^ 32) by (rewrite HN; unfold C, buffer; simpl; lia).
  split; [exact HR | split; [exact HC | split; [exact HD |]]].
  exact (C4_header_round_trip buffer HR HC HD).
Defined.

(** ** Speech synthesis that is not there *)

Lemma configureUtterance_text (utterance : SpeechSynthesisUtterance) (voiceId : JSString) :
  utterance_text (configureUtterance utterance voiceId) = utterance_text utterance.
Proof. unfold configureUtterance. repeat destruct (includes _ _); reflexivity. Qed.

Lemma configureUtterance_voice (utterance : SpeechSynthesisUtterance) (voiceId : JSString) :
  utterance_voice (configureUtterance utterance voiceId) = utterance_voice utterance.
Proof. unfold configureUtterance. repeat destruct (includes _ _); reflexivity. Qed.

(** What [generateSpeech] hands to the synthesizer is the name of the
    platform voice it selected, not the voice identifier; with no platform
    voice listed it is "default", whatever the identifier. *)
Lemma generateSpeech_without_voices
  (Math_sin : float -> float) (window : Window) (handle : SpeechSynthesis)
  (text voiceId : JSString) :
  generateSpeech Math_sin window {| synth := Some handle; voices := [] |} text voiceId
  = (createSyntheticAudio Math_sin window text (str "default"),
     [configureUtterance (newUtterance text) voiceId]).
Proof.
  unfold generateSpeech, captureAudio, voiceNameOf. cbn [synth selectVoiceByCharacteristics voices].
  now rewrite configureUtterance_text, configureUtterance_voice.
Qed.

(** C9 (amended): without a speech-synthesis handle [generateSpeech]
    rejects with the error "Speech synthesis not supported"; nothing is
    synthesized and nothing is spoken. *)
Theorem C9_rejects_without_speech_synthesis
  (Math_sin : float -> float) (window : Window) (tts : BrowserTTS)
  (text voiceId : JSString) :
  synth tts = None ->
  generateSpeech Math_sin window tts text voiceId
  = (Rejected (Error (str "Speech synthesis not supported")), []).
Proof. intros H. unfold generateSpeech. now rewrite H. Qed.

Lemma C9_witness :
  synth (newBrowserTTS (Some silentPage)) = None
  /\ generateSpeech sinAtPeak silentPage (newBrowserTTS (Some silentPage))
       (str "Hello world") (str "voice-female-professional-1")
     = (Rejected (Error (str "Speech synthesis not supported")), []).
Proof.
  assert (H : synth (newBrowserTTS (Some silentPage)) = None) by reflexivity.
  split; [exact H |].
  exact (C9_rejects_without_speech_synthesis sinAtPeak silentPage
           (newBrowserTTS (Some silentPage))
           (str "Hello world") (str "voice-female-professional-1") H).
Defined.

(** C9 (as stated) fails: on a page without speech synthesis, where the
    synthesizer by itself resolves with a blob, [generateSpeech] is
    rejected. *)
Lemma C9_counterexample :
  isSupported (Some silentPage) = false
  /\ (exists blob,
        createSyntheticAudio sinAtPeak silentPage (str "Hello world") (str "default")
        = Resolved blob)
  /\ fst (generateSpeech sinAtPeak silentPage (newBrowserTTS (Some silentPage))
            (str "Hello world") (str "voice-female-professional-1"))
     = Rejected (Error (str "Speech synthesis not supported")).
Proof.
  split; [reflexivity | split; [| reflexivity]].
  unfold createSyntheticAudio. cbn [silentPage audioContext_sampleRate].
  rewrite audioBufferToWav_bytes. eexists. reflexivity.
Qed.

(** ** The sample *)

Lemma ofZ_codeUnit_truthy (c : ascii) :
  numberOr (ofZ (codeUnit c)) 65
  = if codeUnit c =? 0 then 65%float else ofZ (codeUnit c).
Proof. destruct c as [[] [] [] [] [] [] [] []]; vm_compute; reflexivity. Qed.

(** [currentWord.charCodeAt(0) || 65] *)
Lemma charCode_spec (word : JSString) :
  numberOr (charCodeAt word 0) 65 = charCodeOrDefault word.
Proof.
  destruct word as [|c word]; [vm_compute; reflexivity |].
  apply ofZ_codeUnit_truthy.
Qed.

(** C5 (amended): the constant [sample] of the loop body is the formula of
    the specification, evaluated in binary64 in the order the source writes
    it, with [charCode] the code of the first code unit of [currentWord], or
    65 if the word is empty or that code is 0; the buffer holds at index
    [i] this value rounded to binary32. *)
Theorem C5_sample_formula
  (Math_sin : float -> float) (text voiceId : JSString) (rate : Z) (i : nat) :
  (i < sampleCount text rate)%nat ->
  let baseFrequency := frequency voiceId in
  let t := (ofZ (Z.of_nat i) / ofZ rate)%float in
  let progress := (t / durationSeconds text)%float in
  let currentWord :=
    elementOrEmpty (words text)
      (Math_floor (progress * ofZ (Z.of_nat (length (words text))))%float) in
  let wordFreq := (baseFrequency + ofZ (Z.of_nat (length currentWord)) * 5)%float in
  let charCode := charCodeOrDefault currentWord in
  sample Math_sin text voiceId rate i
  = ((Math_sin (2 * Math_PI * wordFreq * t)
      + Math_sin (2 * Math_PI * wordFreq * 2.5 * t) * 0.3
      + Math_sin (2 * Math_PI * wordFreq * 3.5 * t) * 0.2
      + Math_sin (t * Math_PI * 0.5 + charCode) * 0.3)
     * (Math_sin (Math_PI * progress) * 0.8) * 0.2)%float
  /\ getSample (getChannelData (synthesizeBuffer Math_sin text voiceId rate) 0) i
     = Math_fround (sample Math_sin text voiceId rate i).
Proof.
  intros Hi. cbv zeta. split.
  - unfold sample, fundamental, formant1, formant2, modulation, envelope, charCode,
      wordFreq, currentWord, wordIndex, sample_progress, sample_t.
    now rewrite charCode_spec.
  - now apply synthesizeBuffer_sample.
Qed.

Lemma first_sample_exists : (0 < sampleCount (str "Hello world") 8000)%nat.
Proof. apply Nat.ltb_lt. vm_compute. reflexivity. Qed.

Lemma C5_witness :
  (0 < sampleCount (str "Hello world") 8000)%nat
  /\ let Math_sin := sinAtPeak in
     let text := str "Hello world" in
     let voiceId := str "voice-female-professional-1" in
     let rate := 8000 in
     let i := 0%nat in
     let baseFrequency := frequency voiceId in
     let t := (ofZ (Z.of_nat i) / ofZ rate)%float in
     let progress := (t / durationSeconds text)%float in
     let currentWord :=
       elementOrEmpty (words text)
         (Math_floor (progress * ofZ (Z.of_nat (length (words text))))%float) in
     let wordFreq := (baseFrequency + ofZ (Z.of_nat (length currentWord)) * 5)%float in
     let charCode := charCodeOrDefault currentWord in
     sample Math_sin text voiceId rate i
     = ((Math_sin (2 * Math_PI * wordFreq * t)
         + Math_sin (2 * Math_PI * wordFreq * 2.5 * t) * 0.3
         + Math_sin (2 * Math_PI * wordFreq * 3.5 * t) * 0.2
         + Math_sin (t * Math_PI * 0.5 + charCode) * 0.3)
        * (Math_sin (Math_PI * progress) * 0.8) * 0.2)%float
     /\ getSample (getChannelData (synthesizeBuffer Math_sin text voiceId rate) 0) i
        = Math_fround (sample Math_sin text voiceId rate i).
Proof.
  split; [exact first_sample_exists |].
  exact (C5_sample_formula sinAtPeak (str "Hello world")
           (str "voice-female-professional-1") 8000 0 first_sample_exists).
Defined.

(** C5 (as stated) fails: for a text that is the single code unit U+0000
    the current word is not empty and its first character code is 0, yet
    the code modulates with 65. *)
Lemma C5_counterexample :
  Nat.ltb 0 (sampleCount [Ascii.zero] 8000) = true
  /\ currentWord [Ascii.zero] 8000 0 = [Ascii.zero]
  /\ specCharCode (currentWord [Ascii.zero] 8000 0) = 0%float
  /\ charCode [Ascii.zero] 8000 0 = 65%float.
Proof. repeat split; vm_compute; reflexivity. Qed.

(** ** The number of samples *)

Lemma specSampleCount_samples (text : JSString) (rate : Z) :
  specSampleCount text rate = samples text rate.
Proof.
  unfold specSampleCount, samples, durationSeconds, wordsPerMinute.
  now rewrite wordCount_spec.
Qed.

(** The product [durationSeconds * sampleRate] has an integer part, and it
    is not negative. *)
Lemma samples_defined (text : JSString) (rate : Z) :
  0 <= rate < 2 ^ 53 ->
  exists n, samples text rate = Some n /\ 0 <= n.
Proof.
  intros Hrate. unfold samples.
  destruct (durationSeconds_spec text) as [Wd [Nd _]].
  destruct (ofZ_exact rate Hrate) as [Fr [Mr Nr]].
  assert (Wr : within (ofZ rate) 53).
  { split; [exact Fr |]. rewrite Mr.
    assert (E : (dy 1 53 == inject_Z (2 ^ 53))%Q) by reflexivity.
    rewrite E, <- Zle_Qle. lia. }
  destruct (within_mul _ _ 69 53 Wd Wr) as [F _]; [lia |].
  destruct (Math_floor_val _ F) as [n [En [_ Hn]]].
  exists n. split; [exact En |].
  assert (Hneg : neg (durationSeconds text * ofZ rate)%float = false).
  { rewrite mul_neg by (exact (proj1 Wd) || exact Fr). now rewrite Nd, Nr. }
  rewrite val_nonneg in Hn by exact Hneg.
  pose proof (mag_nonneg (durationSeconds text * ofZ rate)%float) as H0.
  assert (H1 : (inject_Z 0 < inject_Z (n + 1))%Q).
  { rewrite inject_Z_plus. change (inject_Z 0) with 0%Q. change (inject_Z 1) with 1%Q. lra. }
  rewrite <- Zlt_Qlt in H1. lia.
Qed.

Lemma sampleCount_samples (text : JSString) (rate : Z) :
  0 <= rate < 2 ^ 53 ->
  samples text rate = Some (Z.of_nat (sampleCount text rate)).
Proof.
  intros Hrate. destruct (samples_defined text rate Hrate) as [n [E Hn]].
  unfold sampleCount. rewrite E. now rewrite Z2Nat.id.
Qed.

Lemma durationSeconds_single_word (text : JSString) :
  specWordCount text = 1 -> durationSeconds text = 2%float.
Proof.
  intros H. unfold durationSeconds. rewrite wordCount_spec, H.
  vm_compute. reflexivity.
Qed.

(** C3: the buffer of [createSyntheticAudio] has
    [floor(max(2, wordCount/150*60) * r)] frames, the arithmetic being that
    of binary64 in the order written and [wordCount] the number of
    white-space-delimited tokens of the trimmed text, at least 1; channel 0
    has that many samples; and a text of one word (or none) gives [2*r]. *)
Theorem C3_sample_count
  (Math_sin : float -> float) (text voiceId : JSString) (rate : Z) :
  0 < rate < 2 ^ 53 ->
  let buffer := synthesizeBuffer Math_sin text voiceId rate in
  specSampleCount text rate = Some (Z.of_nat (buffer_length buffer))
  /\ length (getChannelData buffer 0) = buffer_length buffer
  /\ (specWordCount text = 1 -> Z.of_nat (buffer_length buffer) = 2 * rate).
Proof.
  intros Hrate buffer. unfold buffer.
  rewrite synthesizeBuffer_length, synthesizeBuffer_channel.
  assert (E : samples text rate = Some (Z.of_nat (sampleCount text rate)))
    by (apply sampleCount_samples; lia).
  split; [| split].
  - now rewrite specSampleCount_samples.
  - now rewrite length_map, length_seq.
  - intros H1. unfold samples in E.
    rewrite (durationSeconds_single_word text H1), (floor_twice rate Hrate) in E.
    now injection E.
Qed.

Lemma C3_witness :
  0 < 8000 < 2 ^ 53
  /\ let buffer :=
       synthesizeBuffer sinAtPeak (str "Hello") (str "voice-male-casual-1") 8000 in
     specSampleCount (str "Hello") 8000 = Some (Z.of_nat (buffer_length buffer))
     /\ length (getChannelData buffer 0) = buffer_length buffer
     /\ (specWordCount (str "Hello") = 1 -> Z.of_nat (buffer_length buffer) = 2 * 8000).
Proof.
  assert (H : 0 < 8000 < 2 ^ 53) by (split; reflexivity).
  split; [exact H |].
  exact (C3_sample_count sinAtPeak (str "Hello") (str "voice-male-casual-1") 8000 H).
Defined.

(** In binary64 nine words last 3.5999999999999996 seconds, which at
    8000 Hz is 28799 frames: one less than the 3.6 * 8000 = 28800 of exact
    arithmetic. *)
Example nine_words_sample_count :
  specWordCount (str "a b c d e f g h i") = 9
  /\ durationSeconds (str "a b c d e f g h i") = 3.5999999999999996%float
  /\ specSampleCount (str "a b c d e f g h i") 8000 = Some 28799.
Proof. repeat split; vm_compute; reflexivity. Qed.

(** ** The word lookup *)

(** C10 (amended): for a sample rate and a text length that are safe
    integers and a frame count of at most 2^32, the word index of every
    frame is an index of [words], so [words[wordIndex]] is an element and
    the fallback for [undefined] is never taken; the current word is empty
    only if the text is empty or begins or ends with white space. *)
Theorem C10_word_lookup_in_bounds (text : JSString) (rate : Z) (i : nat) :
  0 < rate < 2 ^ 53 ->
  Z.of_nat (length text) < 2 ^ 53 - 1 ->
  Z.of_nat (sampleCount text rate) <= 2 ^ 32 ->
  (i < sampleCount text rate)%nat ->
  exists k,
    wordIndex text rate i = Some (Z.of_nat k)
    /\ (k < length (words text))%nat
    /\ nth_error (words text) k = Some (currentWord text rate i)
    /\ (currentWord text rate i = [] ->
        text = [] \/ leadingWhiteSpace text = true \/ trailingWhiteSpace text = true).
Proof.
  intros Hrate Hlen Hcount Hi.
  destruct (wordIndex_in_bounds text rate i Hrate Hlen Hcount Hi) as [k [E [Hk Hn]]].
  exists k. repeat split; auto.
  intros Hw. apply words_empty_piece. rewrite <- Hw.
  eapply nth_error_In, Hn.
Qed.

Lemma last_sample_exists : (lastFrame < sampleCount (str "Hello world") 8000)%nat.
Proof. apply Nat.ltb_lt. vm_compute. reflexivity. Qed.

Lemma C10_witness :
  0 < 8000 < 2 ^ 53
  /\ Z.of_nat (length (str "Hello world")) < 2 ^ 53 - 1
  /\ Z.of_nat (sampleCount (str "Hello world") 8000) <= 2 ^ 32
  /\ (lastFrame < sampleCount (str "Hello world") 8000)%nat
  /\ exists k,
       wordIndex (str "Hello world") 8000 lastFrame = Some (Z.of_nat k)
       /\ (k < length (words (str "Hello world")))%nat
       /\ nth_error (words (str "Hello world")) k
          = Some (currentWord (str "Hello world") 8000 lastFrame)
       /\ (currentWord (str "Hello world") 8000 lastFrame = [] ->
           str "Hello world" = []
           \/ leadingWhiteSpace (str "Hello world") = true
           \/ trailingWhiteSpace (str "Hello world") = true).
Proof.
  assert (H1 : 0 < 8000 < 2 ^ 53) by (split; reflexivity).
  assert (H2 : Z.of_nat (length (str "Hello world")) < 2 ^ 53 - 1) by reflexivity.
  assert (H3 : Z.of_nat (sampleCount (str "Hello world") 8000) <= 2 ^ 32)
    by (rewrite sampleCount_hello_world; discriminate).
  split; [exact H1 | split; [exact H2 | split; [exact H3 | split; [exact last_sample_exists |]]]].
  exact (C10_word_lookup_in_bounds (str "Hello world") 8000 lastFrame H1 H2 H3 last_sample_exists).
Defined.

(** C10 (as stated) fails in its last part: the empty text has neither
    leading nor trailing white space, yet its only word is empty and the
    modulation falls back to 65. *)
Lemma C10_counterexample :
  Nat.ltb 0 (sampleCount (str "") 8000) = true
  /\ leadingWhiteSpace (str "") = false
  /\ trailingWhiteSpace (str "") = false
  /\ wordIndex (str "") 8000 0 = Some 0
  /\ currentWord (str "") 8000 0 = []
  /\ charCode (str "") 8000 0 = 65%float.
Proof. repeat split; vm_compute; reflexivity. Qed.

(** ** The range of the stored samples *)

(** C8: with a [Math.sin] whose values on finite arguments lie in [-1, 1],
    every sample that [createSyntheticAudio] stores in the buffer is finite,
    at most 0.288 in magnitude and so within [-1, 1], and the clamp of the
    encoder returns it unchanged. *)
Theorem C8_stored_samples_in_range
  (Math_sin : float -> float) (text voiceId : JSString) (rate : Z) (i : nat) :
  (forall x, finite x = true ->
             finite (Math_sin x) = true /\ (mag (Math_sin x) <= 1)%Q) ->
  0 < rate < 2 ^ 53 ->
  (i < sampleCount text rate)%nat ->
  let stored := getSample (getChannelData (synthesizeBuffer Math_sin text voiceId rate) 0) i in
  finite stored = true
  /\ (mag stored <= 288 # 1000)%Q
  /\ ((-1 <=? stored) && (stored <=? 1))%float = true
  /\ clampSample stored = stored.
Proof.
  intros Hsin Hrate Hi stored. unfold stored.
  rewrite synthesizeBuffer_sample by exact Hi.
  destruct (stored_sample_bounded Math_sin Hsin text voiceId rate i Hrate) as [F M].
  destruct (clampSample_in_range _ F) as [Hc Hr]; [lra |].
  auto.
Qed.

Lemma sinAtPeak_range (x : float) :
  finite x = true ->
  finite (sinAtPeak x) = true /\ (mag (sinAtPeak x) <= 1)%Q.
Proof. intros _. split; by_computation. Qed.

Lemma C8_witness :
  (forall x, finite x = true ->
             finite (sinAtPeak x) = true /\ (mag (sinAtPeak x) <= 1)%Q)
  /\ 0 < 8000 < 2 ^ 53
  /\ (lastFrame < sampleCount (str "Hello world") 8000)%nat
  /\ let stored :=
       getSample
         (getChannelData
            (synthesizeBuffer sinAtPeak (str "Hello world")
               (str "voice-female-professional-1") 8000) 0) lastFrame in
     finite stored = true
     /\ (mag stored <= 288 # 1000)%Q
     /\ ((-1 <=? stored) && (stored <=? 1))%float = true
     /\ clampSample stored = stored.
Proof.
  assert (H : 0 < 8000 < 2 ^ 53) by (split; reflexivity).
  split; [exact sinAtPeak_range | split; [exact H | split; [exact last_sample_exists |]]].
  exact (C8_stored_samples_in_range sinAtPeak (str "Hello world")
           (str "voice-female-professional-1") 8000 lastFrame
           sinAtPeak_range H last_sample_exists).
Defined.

(** With every sine at 1 the binary64 sample is one unit in the last place
    above 0.288; the store into the [Float32Array] brings it below. *)
Example sample_at_peak :
  sample sinAtPeak (str "Hello world") (str "voice-female-professional-1") 8000 1
  = 0.28800000000000003%float
  /\ Math_fround 0.28800000000000003%float = 0.28799998760223389%float.
Proof. split; vm_compute; reflexivity. Qed.

(** * Further properties *)

(** ** Voice selection *)

Lemma strEqb_eq (a b : JSString) : strEqb a b = true <-> a = b.
Proof. unfold strEqb. destruct (list_eq_dec ascii_dec a b); split; congruence. Qed.

Lemma orFind_some {A} (found again : option A) (a : A) :
  orFind found again = Some a -> found = Some a \/ (found = None /\ again = Some a).
Proof. destruct found; simpl; auto. Qed.

(** Every entry of [voiceMap], and the default, asks for English. *)
Lemma characteristicsOf_lang (voiceId : JSString) :
  lang (characteristicsOf voiceId) = str "en-US"
  \/ lang (characteristicsOf voiceId) = str "en-GB".
Proof.
  unfold characteristicsOf.
  destruct (find _ voiceMap) as [kv|] eqn:E; [| now left].
  apply find_some in E. destruct E as [Hin _].
  unfold voiceMap in Hin. simpl in Hin.
  repeat (destruct Hin as [<- | Hin]; [simpl; auto |]). contradiction.
Qed.

Lemma characteristicsOf_family (voiceId : JSString) :
  beforeDash (lang (characteristicsOf voiceId)) = str "en".
Proof. destruct (characteristicsOf_lang voiceId) as [-> | ->]; reflexivity. Qed.

Lemma selectVoice_none (tts : BrowserTTS) (voiceId : JSString) :
  selectVoiceByCharacteristics tts voiceId = None <-> voices tts = [].
Proof.
  unfold selectVoiceByCharacteristics.
  destruct (voices tts) as [|first rest] eqn:Ev; [tauto |].
  split; [| discriminate]. intros H.
  repeat match type of H with
         | orFind ?f ?a = None => destruct f; [discriminate | cbn [orFind] in H]
         end.
  discriminate.
Qed.

Lemma selectVoice_in (tts : BrowserTTS) (voiceId : JSString) (voice : SpeechSynthesisVoice) :
  selectVoiceByCharacteristics tts voiceId = Some voice -> In voice (voices tts).
Proof.
  unfold selectVoiceByCharacteristics.
  destruct (voices tts) as [|first rest] eqn:Ev; [discriminate |].
  intros H.
  repeat match type of H with
         | orFind ?f ?a = Some _ =>
             apply orFind_some in H; destruct H as [H | [_ H]]
         end;
    try (apply find_some in H; tauto).
  injection H as <-. now left.
Qed.

(** X1: [selectVoiceByCharacteristics] returns [null] exactly when no voice
    is loaded, and otherwise one of the loaded voices. *)
Theorem selectVoice_is_a_loaded_voice (tts : BrowserTTS) (voiceId : JSString) :
  plainKey voiceId = true ->
  (selectVoiceByCharacteristics tts voiceId = None <-> voices tts = [])
  /\ (forall voice,
        selectVoiceByCharacteristics tts voiceId = Some voice -> In voice (voices tts)).
Proof.
  intros _. split; [apply selectVoice_none | apply selectVoice_in].
Qed.

Lemma selectVoice_is_a_loaded_voice_witness :
  plainKey (str "voice-male-news-1") = true
  /\ (selectVoiceByCharacteristics (newBrowserTTS (Some speakingPage)) (str "voice-male-news-1")
      = None <-> voices (newBrowserTTS (Some speakingPage)) = [])
  /\ (forall voice,
        selectVoiceByCharacteristics (newBrowserTTS (Some speakingPage)) (str "voice-male-news-1")
        = Some voice -> In voice (voices (newBrowserTTS (Some speakingPage)))).
Proof.
  assert (H : plainKey (str "voice-male-news-1") = true) by reflexivity.
  split; [exact H |].
  exact (selectVoice_is_a_loaded_voice (newBrowserTTS (Some speakingPage))
           (str "voice-male-news-1") H).
Defined.

(** X2: when some loaded voice is English, the selected voice is English,
    whatever the identifier; a voice of another language is selected only
    when no English voice is loaded. *)
Theorem selectVoice_prefers_english (tts : BrowserTTS) (voiceId : JSString) :
  plainKey voiceId = true ->
  existsb isEnglish (voices tts) = true ->
  exists voice,
    selectVoiceByCharacteristics tts voiceId = Some voice
    /\ In voice (voices tts)
    /\ isEnglish voice = true.
Proof.
  intros Hk Hex.
  destruct (selectVoiceByCharacteristics tts voiceId) as [voice|] eqn:E.
  - exists voice. split; [reflexivity |].
    split; [now apply selectVoice_in with voiceId |].
    unfold selectVoiceByCharacteristics in E.
    destruct (voices tts) as [|first rest] eqn:Ev; [discriminate |].
    repeat match type of E with
           | orFind ?f ?a = Some _ =>
               apply orFind_some in E; destruct E as [E | [Hnone E]]
           end.
    + apply find_some in E. destruct E as [_ E].
      apply andb_true_iff in E. destruct E as [E _]. apply strEqb_eq in E.
      unfold isEnglish. rewrite E.
      destruct (characteristicsOf_lang voiceId) as [-> | ->]; reflexivity.
    + apply find_some in E. destruct E as [_ E].
      apply andb_true_iff in E. destruct E as [E _].
      now rewrite characteristicsOf_family in E.
    + apply find_some in E. now destruct E.
    + (* the first voice, as the last resort: then no voice is English *)
      exfalso. apply existsb_exists in Hex. destruct Hex as [v [Hin Hv]].
      repeat match type of Hnone with
             | orFind ?f ?a = None => destruct f; [discriminate | cbn [orFind] in Hnone]
             end.
      pose proof (find_none _ _ Hnone v Hin) as Hf. unfold isEnglish in Hv. congruence.
  - exfalso. apply selectVoice_none in E.
    rewrite E in Hex. discriminate.
Qed.

Lemma selectVoice_prefers_english_witness :
  plainKey (str "no-such-voice") = true
  /\ existsb isEnglish (voices (newBrowserTTS (Some speakingPage))) = true
  /\ exists voice,
       selectVoiceByCharacteristics (newBrowserTTS (Some speakingPage)) (str "no-such-voice")
       = Some voice
       /\ In voice (voices (newBrowserTTS (Some speakingPage)))
       /\ isEnglish voice = true.
Proof.
  assert (H1 : plainKey (str "no-such-voice") = true) by reflexivity.
  assert (H2 : existsb isEnglish (voices (newBrowserTTS (Some speakingPage))) = true)
    by reflexivity.
  split; [exact H1 | split; [exact H2 |]].
  exact (selectVoice_prefers_english (newBrowserTTS (Some speakingPage))
           (str "no-such-voice") H1 H2).
Defined.

Lemma female_includes_male (name : JSString) :
  includes name (str "female") = true -> includes name (str "male") = true.
Proof.
  rewrite !includes_spec. intros [pre [post ->]].
  exists (pre ++ str "fe"), post. rewrite <- app_assoc. reflexivity.
Qed.

(** X3: a male identifier selects a voice with "female" in its name when
    that voice comes first among those of the wanted language: the test
    for the gender is a substring test, and "female" contains "male". *)
Theorem male_id_selects_female_voice
  (handle : option SpeechSynthesis) (voice : SpeechSynthesisVoice)
  (rest : list SpeechSynthesisVoice) (voiceId : JSString) :
  gender (characteristicsOf voiceId) = str "male" ->
  voice_lang voice = lang (characteristicsOf voiceId) ->
  includes (toLowerCase (voice_name voice)) (str "female") = true ->
  selectVoiceByCharacteristics {| synth := handle; voices := voice :: rest |} voiceId
  = Some voice.
Proof.
  intros Hg Hl Hf. unfold selectVoiceByCharacteristics. cbn [voices find].
  rewrite Hg. rewrite (proj2 (strEqb_eq _ _) Hl).
  rewrite (female_includes_male _ Hf). reflexivity.
Qed.

Lemma male_id_selects_female_voice_witness :
  gender (characteristicsOf (str "voice-male-professional-1")) = str "male"
  /\ voice_lang samantha = lang (characteristicsOf (str "voice-male-professional-1"))
  /\ includes (toLowerCase (voice_name samantha)) (str "female") = true
  /\ selectVoiceByCharacteristics
       {| synth := Some threeVoices; voices := samantha :: [alex] |}
       (str "voice-male-professional-1")
     = Some samantha.
Proof.
  assert (H1 : gender (characteristicsOf (str "voice-male-professional-1")) = str "male")
    by reflexivity.
  assert (H2 : voice_lang samantha = lang (characteristicsOf (str "voice-male-professional-1")))
    by reflexivity.
  assert (H3 : includes (toLowerCase (voice_name samantha)) (str "female") = true)
    by reflexivity.
  split; [exact H1 | split; [exact H2 | split; [exact H3 |]]].
  exact (male_id_selects_female_voice (Some threeVoices) samantha [alex]
           (str "voice-male-professional-1") H1 H2 H3).
Defined.

(** X4: an identifier that [voiceMap] does not define is treated as a
    female en-US voice: it selects what "voice-female-professional-1"
    selects. *)
Theorem unknown_voice_id_is_female_en_US (tts : BrowserTTS) (voiceId : JSString) :
  plainKey voiceId = true ->
  existsb (strEqb voiceId) (map fst voiceMap) = false ->
  selectVoiceByCharacteristics tts voiceId
  = selectVoiceByCharacteristics tts (str "voice-female-professional-1").
Proof.
  intros _ Hno.
  assert (E : characteristicsOf voiceId
              = characteristicsOf (str "voice-female-professional-1")).
  { unfold characteristicsOf at 1.
    destruct (find _ voiceMap) as [kv|] eqn:Ef; [| reflexivity].
    apply find_some in Ef. destruct Ef as [Hin Hk].
    exfalso. apply strEqb_eq in Hk.
    assert (Hex : existsb (strEqb voiceId) (map fst voiceMap) = true).
    { apply existsb_exists. exists (fst kv). split; [now apply in_map |].
      apply strEqb_eq. congruence. }
    congruence. }
  unfold selectVoiceByCharacteristics. now rewrite E.
Qed.

Lemma unknown_voice_id_is_female_en_US_witness :
  plainKey (str "no-such-voice") = true
  /\ existsb (strEqb (str "no-such-voice")) (map fst voiceMap) = false
  /\ selectVoiceByCharacteristics (newBrowserTTS (Some speakingPage)) (str "no-such-voice")
     = selectVoiceByCharacteristics (newBrowserTTS (Some speakingPage))
         (str "voice-female-professional-1").
Proof.
  assert (H1 : plainKey (str "no-such-voice") = true) by reflexivity.
  assert (H2 : existsb (strEqb (str "no-such-voice")) (map fst voiceMap) = false)
    by reflexivity.
  split; [exact H1 | split; [exact H2 |]].
  exact (unknown_voice_id_is_female_en_US (newBrowserTTS (Some speakingPage))
           (str "no-such-voice") H1 H2).
Defined.

(** ** What [generateSpeech] speaks and what it promises *)

Lemma configureUtterance_volume (utterance : SpeechSynthesisUtterance) (voiceId : JSString) :
  utterance_volume (configureUtterance utterance voiceId) = 1%float.
Proof. unfold configureUtterance. repeat destruct (includes _ _); reflexivity. Qed.

(** The four presets, and the untouched defaults of a new utterance, keep
    the rate within 0.8..1 and the pitch within 0.9..1.1. *)
Lemma configureUtterance_ranges (utterance : SpeechSynthesisUtterance) (voiceId : JSString) :
  utterance_rate utterance = 1%float -> utterance_pitch utterance = 1%float ->
  ((0.8 <=? utterance_rate (configureUtterance utterance voiceId))
   && (utterance_rate (configureUtterance utterance voiceId) <=? 1))%float = true
  /\ ((0.9 <=? utterance_pitch (configureUtterance utterance voiceId))
      && (utterance_pitch (configureUtterance utterance voiceId) <=? 1.1))%float = true.
Proof.
  intros Hr Hp. unfold configureUtterance.
  repeat destruct (includes _ _); cbn [utterance_rate utterance_pitch];
    rewrite ?Hr, ?Hp; split; reflexivity.
Qed.



(** X6: with a speech-synthesis handle, [generateSpeech] hands exactly one
    utterance to [speak]: it carries the text, the selected voice (if any),
    volume 1, a rate within 0.8..1 and a pitch within 0.9..1.1; and the
    promise settles as [createSyntheticAudio] does on the text and the name
    of that voice, or "default". The identifier reaches the audio only
    through the voice it selects. *)
Theorem generateSpeech_speaks_once
  (Math_sin : float -> float) (window : Window) (tts : BrowserTTS)
  (handle : SpeechSynthesis) (text voiceId : JSString) :
  synth tts = Some handle ->
  plainKey voiceId = true ->
  exists utterance,
    generateSpeech Math_sin window tts text voiceId
    = (createSyntheticAudio Math_sin window text (voiceNameOf utterance), [utterance])
    /\ utterance_text utterance = text
    /\ utterance_voice utterance = selectVoiceByCharacteristics tts voiceId
    /\ utterance_volume utterance = 1%float
    /\ ((0.8 <=? utterance_rate utterance) && (utterance_rate utterance <=? 1))%float = true
    /\ ((0.9 <=? utterance_pitch utterance) && (utterance_pitch utterance <=? 1.1))%float = true.
Proof.
  intros Hs _. unfold generateSpeech, captureAudio. rewrite Hs.
  match goal with
  | |- context [configureUtterance ?u voiceId] => set (u0 := u)
  end.
  exists (configureUtterance u0 voiceId).
  assert (Ht : utterance_text u0 = text)
    by (unfold u0; destruct (selectVoiceByCharacteristics tts voiceId); reflexivity).
  assert (Hv : utterance_voice u0 = selectVoiceByCharacteristics tts voiceId)
    by (unfold u0; destruct (selectVoiceByCharacteristics tts voiceId); reflexivity).
  assert (Hr : utterance_rate u0 = 1%float)
    by (unfold u0; destruct (selectVoiceByCharacteristics tts voiceId); reflexivity).
  assert (Hp : utterance_pitch u0 = 1%float)
    by (unfold u0; destruct (selectVoiceByCharacteristics tts voiceId); reflexivity).
  rewrite configureUtterance_text, configureUtterance_voice, configureUtterance_volume, Ht, Hv.
  repeat split; try reflexivity; now apply configureUtterance_ranges.
Qed.

Lemma generateSpeech_speaks_once_witness :
  synth (newBrowserTTS (Some speakingPage)) = Some threeVoices
  /\ plainKey (str "voice-female-casual-1") = true
  /\ exists utterance,
       generateSpeech sinAtPeak speakingPage (newBrowserTTS (Some speakingPage))
         (str "Hello world") (str "voice-female-casual-1")
       = (createSyntheticAudio sinAtPeak speakingPage (str "Hello world")
            (voiceNameOf utterance), [utterance])
       /\ utterance_text utterance = str "Hello world"
       /\ utterance_voice utterance
          = selectVoiceByCharacteristics (newBrowserTTS (Some speakingPage))
              (str "voice-female-casual-1")
       /\ utterance_volume utterance = 1%float
       /\ ((0.8 <=? utterance_rate utterance) && (utterance_rate utterance <=? 1))%float = true
       /\ ((0.9 <=? utterance_pitch utterance) && (utterance_pitch utterance <=? 1.1))%float
          = true.
Proof.
  assert (H1 : synth (newBrowserTTS (Some speakingPage)) = Some threeVoices) by reflexivity.
  assert (H2 : plainKey (str "voice-female-casual-1") = true) by reflexivity.
  split; [exact H1 | split; [exact H2 |]].
  exact (generateSpeech_speaks_once sinAtPeak speakingPage (newBrowserTTS (Some speakingPage))
           threeVoices (str "Hello world") (str "voice-female-casual-1") H1 H2).
Defined.

(** X7: on a page with speech synthesis and without Web Audio the promise
    is rejected with a TypeError, and the text is spoken all the same. *)
Theorem generateSpeech_speaks_without_audio_context
  (Math_sin : float -> float) (window : Window) (tts : BrowserTTS)
  (handle : SpeechSynthesis) (text voiceId : JSString) :
  synth tts = Some handle ->
  audioContext_sampleRate window = None ->
  plainKey voiceId = true ->
  exists utterance,
    generateSpeech Math_sin window tts text voiceId = (Rejected TypeError, [utterance])
    /\ utterance_text utterance = text.
Proof.
  intros Hs Ha _. unfold generateSpeech, captureAudio, createSyntheticAudio.
  rewrite Hs, Ha. cbn [settle]. eexists. split; [reflexivity |].
  rewrite configureUtterance_text.
  destruct (selectVoiceByCharacteristics tts voiceId); reflexivity.
Qed.

Lemma generateSpeech_speaks_without_audio_context_witness :
  synth (newBrowserTTS (Some mutePage)) = Some threeVoices
  /\ audioContext_sampleRate mutePage = None
  /\ plainKey (str "voice-male-news-1") = true
  /\ exists utterance,
       generateSpeech sinAtPeak mutePage (newBrowserTTS (Some mutePage))
         (str "Hello world") (str "voice-male-news-1")
       = (Rejected TypeError, [utterance])
       /\ utterance_text utterance = str "Hello world".
Proof.
  assert (H1 : synth (newBrowserTTS (Some mutePage)) = Some threeVoices) by reflexivity.
  assert (H2 : audioContext_sampleRate mutePage = None) by reflexivity.
  assert (H3 : plainKey (str "voice-male-news-1") = true) by reflexivity.
  split; [exact H1 | split; [exact H2 | split; [exact H3 |]]].
  exact (generateSpeech_speaks_without_audio_context sinAtPeak mutePage
           (newBrowserTTS (Some mutePage)) threeVoices
           (str "Hello world") (str "voice-male-news-1") H1 H2 H3).
Defined.

(** X8: while the platform lists no voice, every identifier, the male ones
    included, is synthesized under the name "default", that is at 200 Hz. *)
Theorem generateSpeech_before_voices_load
  (Math_sin : float -> float) (window : Window) (tts : BrowserTTS)
  (handle : SpeechSynthesis) (text voiceId : JSString) :
  synth tts = Some handle ->
  voices tts = [] ->
  fst (generateSpeech Math_sin window tts text voiceId)
  = createSyntheticAudio Math_sin window text (str "default")
  /\ frequency (str "default") = 200%float.
Proof.
  intros Hs Hv. split; [| reflexivity].
  unfold generateSpeech, captureAudio, voiceNameOf, selectVoiceByCharacteristics.
  rewrite Hs, Hv. cbn [fst].
  now rewrite configureUtterance_text, configureUtterance_voice.
Qed.

Lemma generateSpeech_before_voices_load_witness :
  synth {| synth := Some threeVoices; voices := [] |} = Some threeVoices
  /\ voices {| synth := Some threeVoices; voices := [] |} = []
  /\ fst (generateSpeech sinAtPeak speakingPage {| synth := Some threeVoices; voices := [] |}
            (str "Hello world") (str "voice-male-casual-1"))
     = createSyntheticAudio sinAtPeak speakingPage (str "Hello world") (str "default")
  /\ frequency (str "default") = 200%float.
Proof.
  assert (H1 : synth {| synth := Some threeVoices; voices := [] |} = Some threeVoices)
    by reflexivity.
  assert (H2 : voices {| synth := Some threeVoices; voices := [] |} = []) by reflexivity.
  split; [exact H1 | split; [exact H2 |]].
  exact (generateSpeech_before_voices_load sinAtPeak speakingPage
           {| synth := Some threeVoices; voices := [] |} threeVoices
           (str "Hello world") (str "voice-male-casual-1") H1 H2).
Defined.

(** ** The synthesizer ignores the case of letters *)

Lemma trimStart_toLowerCase (s : JSString) :
  trimStart (toLowerCase s) = toLowerCase (trimStart s).
Proof.
  induction s as [|c s IH]; [reflexivity |].
  cbn [toLowerCase map trimStart]. rewrite isWhiteSpace_toLowerUnit.
  destruct (isWhiteSpace c); [exact IH | reflexivity].
Qed.

Lemma trimEnd_toLowerCase (s : JSString) :
  trimEnd (toLowerCase s) = toLowerCase (trimEnd s).
Proof.
  induction s as [|c s IH]; [reflexivity |].
  cbn [toLowerCase map trimEnd]. fold (toLowerCase s). rewrite IH.
  rewrite isWhiteSpace_toLowerUnit.
  destruct (trimEnd s); [destruct (isWhiteSpace c) |]; reflexivity.
Qed.

Lemma splitLoop_toLowerCase (s : JSString) :
  forall (b : bool) (cur : JSString),
    splitLoop b (toLowerCase cur) (toLowerCase s)
    = map toLowerCase (splitLoop b cur s).
Proof.
  induction s as [|c s IH]; intros b cur; [reflexivity |].
  cbn [toLowerCase map splitLoop]. fold (toLowerCase s).
  rewrite isWhiteSpace_toLowerUnit.
  destruct (isWhiteSpace c); [destruct b |].
  - apply IH.
  - cbn [map]. f_equal. apply (IH true []).
  - rewrite <- IH. f_equal. unfold toLowerCase. now rewrite map_app.
Qed.

Lemma wordCount_toLowerCase (text : JSString) :
  wordCount (toLowerCase text) = wordCount text.
Proof.
  unfold wordCount, trim, splitWhitespace.
  rewrite trimStart_toLowerCase, trimEnd_toLowerCase.
  rewrite (splitLoop_toLowerCase _ false []). now rewrite length_map.
Qed.

Lemma words_toLowerCase (text : JSString) : words (toLowerCase text) = words text.
Proof. unfold words. now rewrite toLowerCase_idem. Qed.

Lemma frequency_toLowerCase (voiceName : JSString) :
  frequency (toLowerCase voiceName) = frequency voiceName.
Proof. unfold frequency. now rewrite toLowerCase_idem. Qed.

Lemma durationSeconds_toLowerCase (text : JSString) :
  durationSeconds (toLowerCase text) = durationSeconds text.
Proof. unfold durationSeconds. now rewrite wordCount_toLowerCase. Qed.

Section CaseOfLetters.

Variable Math_sin : float -> float.

Lemma sample_toLowerCase (text voiceName : JSString) (rate : Z) (i : nat) :
  sample Math_sin (toLowerCase text) (toLowerCase voiceName) rate i
  = sample Math_sin text voiceName rate i.
Proof.
  unfold sample, fundamental, formant1, formant2, modulation, envelope, charCode,
    wordFreq, currentWord, wordIndex, sample_progress, sample_t.
  now rewrite durationSeconds_toLowerCase, words_toLowerCase, frequency_toLowerCase.
Qed.

Lemma synthesizeBuffer_toLowerCase (text voiceName : JSString) (rate : Z) :
  synthesizeBuffer Math_sin (toLowerCase text) (toLowerCase voiceName) rate
  = synthesizeBuffer Math_sin text voiceName rate.
Proof.
  assert (En : sampleCount (toLowerCase text) rate = sampleCount text rate)
    by (unfold sampleCount, samples; now rewrite durationSeconds_toLowerCase).
  unfold synthesizeBuffer. rewrite En.
  cbn [createBuffer getChannelData channels nth repeat buffer_length numberOfChannels
       sampleRate].
  rewrite !fillChannel_spec by apply repeat_length.
  f_equal. f_equal. apply map_ext. intros i. now rewrite sample_toLowerCase.
Qed.

End CaseOfLetters.

(** X9: the synthesized audio does not depend on the case of the letters of
    the text or of the voice name: inputs that agree once lower-cased give
    the same promise, byte for byte. *)
Theorem createSyntheticAudio_ignores_case
  (Math_sin : float -> float) (window : Window) (text text' voiceName voiceName' : JSString) :
  toLowerCase text = toLowerCase text' ->
  toLowerCase voiceName = toLowerCase voiceName' ->
  createSyntheticAudio Math_sin window text voiceName
  = createSyntheticAudio Math_sin window text' voiceName'.
Proof.
  intros Ht Hv. unfold createSyntheticAudio.
  destruct (audioContext_sampleRate window) as [rate|]; [| reflexivity].
  rewrite <- (synthesizeBuffer_toLowerCase Math_sin text voiceName).
  rewrite <- (synthesizeBuffer_toLowerCase Math_sin text' voiceName').
  now rewrite Ht, Hv.
Qed.

Lemma createSyntheticAudio_ignores_case_witness :
  toLowerCase (str "Hello World") = toLowerCase (str "hELLO wORLD")
  /\ toLowerCase (str "Alex Male") = toLowerCase (str "ALEX MALE")
  /\ createSyntheticAudio sinAtPeak speakingPage (str "Hello World") (str "Alex Male")
     = createSyntheticAudio sinAtPeak speakingPage (str "hELLO wORLD") (str "ALEX MALE").
Proof.
  assert (H1 : toLowerCase (str "Hello World") = toLowerCase (str "hELLO wORLD"))
    by reflexivity.
  assert (H2 : toLowerCase (str "Alex Male") = toLowerCase (str "ALEX MALE")) by reflexivity.
  split; [exact H1 | split; [exact H2 |]].
  exact (createSyntheticAudio_ignores_case sinAtPeak speakingPage
           (str "Hello World") (str "hELLO wORLD") (str "Alex Male") (str "ALEX MALE") H1 H2).
Defined.

(** ** The shortest audio *)

Lemma sampleCount_at_least (text : JSString) (rate : Z) :
  0 < rate < 2 ^ 53 -> 2 * rate <= Z.of_nat (sampleCount text rate).
Proof.
  intros Hrate.
  pose proof (sampleCount_samples text rate ltac:(lia)) as E. unfold samples in E.
  destruct (durationSeconds_spec text) as [[Fd _] [Nd Md]].
  destruct (ofZ_exact rate ltac:(lia)) as [Fr [Mr Nr]].
  assert (Wr : within (ofZ rate) 53).
  { split; [exact Fr |]. rewrite Mr.
    assert (E53 : (dy 1 53 == inject_Z (2 ^ 53))%Q) by reflexivity.
    rewrite E53, <- Zle_Qle. lia. }
  destruct (within_mul _ _ 69 53 (conj Fd (proj2 (proj1 (durationSeconds_spec text)))) Wr)
    as [F _]; [lia |].
  assert (Hlow : (dy rate 1 <= mag (durationSeconds text * ofZ rate)%float)%Q).
  { apply mul_lower; auto.
    - apply repr64_dy; lia.
    - rewrite Mr. unfold dy. change (2 ^ 1)%Q with 2%Q.
      assert (H0 : (0 <= inject_Z rate)%Q) by (change 0%Q with (inject_Z 0); rewrite <- Zle_Qle; lia).
      nra. }
  destruct (Math_floor_val _ F) as [n [En [_ Hn]]].
  rewrite En in E. injection E as E. rewrite <- E.
  assert (Hneg : neg (durationSeconds text * ofZ rate)%float = false).
  { rewrite mul_neg by assumption. now rewrite Nd, Nr. }
  rewrite val_nonneg in Hn by exact Hneg.
  assert (H1 : (inject_Z (2 * rate) < inject_Z (n + 1))%Q).
  { rewrite inject_Z_plus. change (inject_Z 1) with 1%Q.
    assert (E2 : (dy rate 1 == inject_Z (2 * rate))%Q).
    { unfold dy. rewrite inject_Z_mult. change (2 ^ 1)%Q with 2%Q.
      change (inject_Z 2) with 2%Q. ring. }
    rewrite <- E2. lra. }
  rewrite <- Zlt_Qlt in H1. lia.
Qed.

(** X10: with an [AudioContext] whose sample rate is an integer below 2^53,
    [createSyntheticAudio] never rejects: it resolves with a blob of type
    "audio/wav" that holds the 44 header bytes and two bytes for each of
    at least [2 * sampleRate] frames (two seconds at least), however short
    or empty the text. *)
Theorem createSyntheticAudio_resolves
  (Math_sin : float -> float) (window : Window) (text voiceName : JSString) (rate : Z) :
  audioContext_sampleRate window = Some rate ->
  0 < rate < 2 ^ 53 ->
  exists blob,
    createSyntheticAudio Math_sin window text voiceName = Resolved blob
    /\ blob_type blob = str "audio/wav"
    /\ Z.of_nat (length (blob_parts blob)) = 44 + 2 * Z.of_nat (sampleCount text rate)
    /\ 44 + 4 * rate <= Z.of_nat (length (blob_parts blob)).
Proof.
  intros Ha Hrate. unfold createSyntheticAudio. rewrite Ha, audioBufferToWav_bytes.
  eexists. split; [reflexivity |]. cbn [blob_type blob_parts].
  split; [reflexivity |].
  rewrite length_app, wavHeader_length, payloadBytes_length.
  rewrite synthesizeBuffer_length, synthesizeBuffer_numberOfChannels.
  pose proof (sampleCount_at_least text rate Hrate). lia.
Qed.

Lemma createSyntheticAudio_resolves_witness :
  audioContext_sampleRate speakingPage = Some 8000
  /\ 0 < 8000 < 2 ^ 53
  /\ exists blob,
       createSyntheticAudio sinAtPeak speakingPage (str "") (str "default") = Resolved blob
       /\ blob_type blob = str "audio/wav"
       /\ Z.of_nat (length (blob_parts blob)) = 44 + 2 * Z.of_nat (sampleCount (str "") 8000)
       /\ 44 + 4 * 8000 <= Z.of_nat (length (blob_parts blob)).
Proof.
  assert (H1 : audioContext_sampleRate speakingPage = Some 8000) by reflexivity.
  assert (H2 : 0 < 8000 < 2 ^ 53) by (split; reflexivity).
  split; [exact H1 | split; [exact H2 |]].
  exact (createSyntheticAudio_resolves sinAtPeak speakingPage (str "") (str "default") 8000
           H1 H2).
Defined.

(** ** The header, read back *)

(** X11: whatever the buffer, the header reads back as the table says, each
    value reduced modulo the width of its field: nothing is rejected, a
    value too large for its field wraps around. *)
Theorem header_fields_read_back (buffer : AudioBuffer) :
  let N := Z.of_nat (buffer_length buffer) in
  let C := Z.of_nat (numberOfChannels buffer) in
  let R := sampleRate buffer in
  exists bytes,
    audioBufferToWav buffer = Ok bytes
    /\ readUint32 bytes 4 = (36 + N * C * 2) mod 2 ^ 32
    /\ readUint32 bytes 16 = 16
    /\ readUint16 bytes 20 = 1
    /\ readUint16 bytes 22 = C mod 2 ^ 16
    /\ readUint32 bytes 24 = R mod 2 ^ 32
    /\ readUint32 bytes 28 = (R * C * 2) mod 2 ^ 32
    /\ readUint16 bytes 32 = (C * 2) mod 2 ^ 16
    /\ readUint16 bytes 34 = 16
    /\ readUint32 bytes 40 = (N * C * 2) mod 2 ^ 32.
Proof.
  intros N C R. rewrite audioBufferToWav_bytes. eexists. split; [reflexivity |].
  fold N C R.
  change (2 ^ 32) with 4294967296. change (2 ^ 16) with 65536.
  pose proof (le32_read (36 + N * C * 2)) as E1.
  pose proof (le16_read C) as E2.
  pose proof (le32_read R) as E3.
  pose proof (le32_read (R * C * 2)) as E4.
  pose proof (le16_read (C * 2)) as E5.
  pose proof (le32_read (N * C * 2)) as E6.
  cbv zeta in E1, E2, E3, E4, E5, E6.
  unfold readUint32, readUint16, wavHeader, le32, le16.
  cbn -[Z.modulo Z.div Z.mul Z.add].
  rewrite E1, E2, E3, E4, E5, E6. repeat split; reflexivity.
Qed.

(** X12: when every value fits its field (an output shorter than 4 GiB,
    1 to 32767 channels, a byte rate below 2^32) the header agrees with
    the file and with itself: the RIFF chunk size is the length of the
    output less 8, the data size is the length less 44 and is the frame
    count times the block align, and the byte rate is the sample rate times
    the block align. *)
Theorem header_agrees_with_length (buffer : AudioBuffer) :
  let N := Z.of_nat (buffer_length buffer) in
  let C := Z.of_nat (numberOfChannels buffer) in
  let R := sampleRate buffer in
  44 + N * C * 2 < 2 ^ 32 -> 1 <= C < 2 ^ 15 -> 0 <= R -> R * C * 2 < 2 ^ 32 ->
  exists bytes,
    audioBufferToWav buffer = Ok bytes
    /\ readUint32 bytes 4 = Z.of_nat (length bytes) - 8
    /\ readUint32 bytes 40 = Z.of_nat (length bytes) - 44
    /\ readUint32 bytes 40 = N * readUint16 bytes 32
    /\ readUint32 bytes 28 = readUint32 bytes 24 * readUint16 bytes 32.
Proof.
  intros N C R Hlen HC15 HR HRC. rewrite audioBufferToWav_bytes.
  eexists. split; [reflexivity |].
  rewrite length_app, wavHeader_length, payloadBytes_length. fold N C R.
  assert (HN : 0 <= N) by (unfold N; lia).
  assert (HNC : 0 <= N * C) by (apply Z.mul_nonneg_nonneg; lia).
  assert (HRC0 : 0 <= R * C) by (apply Z.mul_nonneg_nonneg; lia).
  change (2 ^ 32) with 4294967296 in *. change (2 ^ 15) with 32768 in *.
  assert (HR32 : R < 4294967296) by nia.
  pose proof (le32_read (36 + N * C * 2)) as E1.
  pose proof (le32_read R) as E3.
  pose proof (le32_read (R * C * 2)) as E4.
  pose proof (le16_read (C * 2)) as E5.
  pose proof (le32_read (N * C * 2)) as E6.
  cbv zeta in E1, E3, E4, E5, E6.
  unfold readUint32, readUint16, wavHeader, le32, le16.
  cbn -[Z.modulo Z.div Z.mul Z.add Z.of_nat Z.sub].
  rewrite E1, E3, E4, E5, E6.
  rewrite (Z.mod_small (36 + N * C * 2)), (Z.mod_small R), (Z.mod_small (R * C * 2)),
    (Z.mod_small (C * 2)), (Z.mod_small (N * C * 2)) by lia.
  unfold N, C. repeat split; lia.
Qed.

Lemma header_agrees_with_length_witness :
  let N := Z.of_nat (buffer_length stereoBuffer) in
  let C := Z.of_nat (numberOfChannels stereoBuffer) in
  let R := sampleRate stereoBuffer in
  44 + N * C * 2 < 2 ^ 32 /\ 1 <= C < 2 ^ 15 /\ 0 <= R /\ R * C * 2 < 2 ^ 32
  /\ exists bytes,
       audioBufferToWav stereoBuffer = Ok bytes
       /\ readUint32 bytes 4 = Z.of_nat (length bytes) - 8
       /\ readUint32 bytes 40 = Z.of_nat (length bytes) - 44
       /\ readUint32 bytes 40 = N * readUint16 bytes 32
       /\ readUint32 bytes 28 = readUint32 bytes 24 * readUint16 bytes 32.
Proof.
  intros N C R.
  assert (H1 : 44 + N * C * 2 < 2 ^ 32) by reflexivity.
  assert (H2 : 1 <= C < 2 ^ 15) by (split; [discriminate | reflexivity]).
  assert (H3 : 0 <= R) by discriminate.
  assert (H4 : R * C * 2 < 2 ^ 32) by reflexivity.
  split; [exact H1 | split; [exact H2 | split; [exact H3 | split; [exact H4 |]]]].
  exact (header_agrees_with_length stereoBuffer H1 H2 H3 H4).
Defined.

(** ** Samples out of range *)

Lemma SFtrunc_val (y : spec_float) (t : Z) :
  SFtrunc y = Some t ->
  exists a, 0 <= a /\ t = (if SFneg y then - a else a)
            /\ (inject_Z a <= SFmag y < inject_Z a + 1)%Q.
Proof.
  destruct y as [s|s| |s m e]; try discriminate; cbn [SFtrunc SFneg SFmag].
  - intros [= <-]. exists 0. split; [lia |]. split; [now destruct s |].
    change (inject_Z 0) with 0%Q. lra.
  - intros [= <-]. exists (Z.shiftl (Zpos m) e).
    split; [apply Z.shiftl_nonneg; lia |].
    split; [now destruct s |]. apply shiftl_floor.
Qed.

Lemma leb_not_nan (a x : float) : (a <=? x)%float = true -> is_nan x = false.
Proof.
  rewrite FloatAxioms.leb_spec. intros H.
  destruct (is_nan x) eqn:E; [| reflexivity].
  apply is_nan_spec in E. rewrite E in H.
  unfold SFleb in H. now destruct (Prim2SF a).
Qed.

Lemma leb_not_nan_l (x a : float) : (x <=? a)%float = true -> is_nan x = false.
Proof.
  rewrite FloatAxioms.leb_spec. intros H.
  destruct (is_nan x) eqn:E; [| reflexivity].
  apply is_nan_spec in E. rewrite E in H. discriminate.
Qed.

(** The clamp of a sample that is 1 or more is a number equal to 1. *)
Lemma clampSample_high (x : float) :
  (1 <=? x)%float = true ->
  finite (clampSample x) = true /\ (val (clampSample x) == 1)%Q.
Proof.
  intros H. pose proof (leb_not_nan _ _ H) as Nx.
  assert (F1 : finite 1%float = true) by reflexivity.
  assert (Fm : finite (-1)%float = true) by reflexivity.
  assert (V1 : (val 1%float == 1)%Q) by by_computation.
  assert (Vm : (val (-1)%float == -1)%Q) by by_computation.
  assert (Hmin : finite (Math_min 1 x) = true /\ (val (Math_min 1 x) == 1)%Q).
  { unfold Math_min. rewrite Nx. change (PrimFloat.is_nan 1) with false. cbn [orb].
    destruct (1 <? x)%float eqn:E1; [split; [exact F1 | exact V1] |].
    destruct (finite_cases x) as [Fx | [Hn | [s Hs]]].
    - apply (leb_val 1 x F1 Fx) in H.
      destruct (x <? 1)%float eqn:E2.
      + apply (ltb_val x 1 Fx F1) in E2. lra.
      + change (get_sign 1) with false. cbv iota. split; [exact Fx |].
        assert (~ (val 1%float < val x)%Q).
        { intros Hlt. apply (ltb_val 1 x F1 Fx) in Hlt. congruence. }
        lra.
    - congruence.
    - exfalso. rewrite FloatAxioms.ltb_spec in E1. rewrite FloatAxioms.leb_spec in H.
      rewrite Hs in E1, H. destruct s; vm_compute in E1, H; discriminate. }
  destruct Hmin as [Fmin Vmin].
  unfold clampSample, Math_max. rewrite (finite_not_nan _ Fmin).
  change (PrimFloat.is_nan (-1)) with false. cbn [orb].
  destruct (-1 <? Math_min 1 x)%float eqn:E1; [split; assumption |].
  exfalso.
  assert (Hlt : (val (-1)%float < val (Math_min 1 x))%Q) by lra.
  apply (ltb_val _ _ Fm Fmin) in Hlt. congruence.
Qed.

(** The clamp of a sample that is -1 or less is a number equal to -1. *)
Lemma clampSample_low (x : float) :
  (x <=? -1)%float = true ->
  finite (clampSample x) = true /\ (val (clampSample x) == -1)%Q.
Proof.
  intros H. pose proof (leb_not_nan_l _ _ H) as Nx.
  assert (F1 : finite 1%float = true) by reflexivity.
  assert (Fm : finite (-1)%float = true) by reflexivity.
  assert (V1 : (val 1%float == 1)%Q) by by_computation.
  assert (Vm : (val (-1)%float == -1)%Q) by by_computation.
  assert (Hmin : Math_min 1 x = x).
  { unfold Math_min. rewrite Nx. change (PrimFloat.is_nan 1) with false. cbn [orb].
    destruct (finite_cases x) as [Fx | [Hn | [s Hs]]].
    - apply (leb_val x (-1) Fx Fm) in H.
      destruct (1 <? x)%float eqn:E1.
      + apply (ltb_val 1 x F1 Fx) in E1. lra.
      + destruct (x <? 1)%float eqn:E2; [reflexivity |].
        exfalso. assert (Hlt : (val x < val 1%float)%Q) by lra.
        apply (ltb_val x 1 Fx F1) in Hlt. congruence.
    - congruence.
    - rewrite FloatAxioms.leb_spec in H. rewrite !FloatAxioms.ltb_spec. rewrite Hs in *.
      destruct s; vm_compute in H; [| discriminate]. reflexivity. }
  unfold clampSample. rewrite Hmin.
  unfold Math_max. rewrite Nx. change (PrimFloat.is_nan (-1)) with false. cbn [orb].
  destruct (finite_cases x) as [Fx | [Hn | [s Hs]]].
  - apply (leb_val x (-1) Fx Fm) in H.
    destruct (-1 <? x)%float eqn:E1.
    + apply (ltb_val (-1) x Fm Fx) in E1. lra.
    + destruct (x <? -1)%float eqn:E2; [split; [exact Fm | exact Vm] |].
      change (get_sign (-1)) with true. cbv iota. split; [exact Fx |].
      assert (~ (val x < val (-1)%float)%Q).
      { intros Hlt. apply (ltb_val x (-1) Fx Fm) in Hlt. congruence. }
      lra.
  - congruence.
  - rewrite FloatAxioms.leb_spec in H. rewrite !FloatAxioms.ltb_spec. rewrite Hs in *.
    destruct s; vm_compute in H; [| discriminate].
    vm_compute. split; reflexivity.
Qed.

(** A clamped sample equal to 1 or to -1 is quantised to 32767 or -32767. *)
Lemma quantise_unit (c : float) (sgn : bool) :
  finite c = true -> (val c == (if sgn then -1 else 1))%Q ->
  ToInt16 (c * 0x7FFF)%float = if sgn then -32767 else 32767.
Proof.
  intros Fc Vc.
  assert (F : finite 32767%float = true) by reflexivity.
  assert (M : (mag 32767%float == 32767)%Q) by reflexivity.
  assert (N : neg 32767%float = false) by reflexivity.
  pose proof (mag_nonneg c) as H0.
  assert (Hc : neg c = sgn /\ (mag c == 1)%Q).
  { rewrite val_mag in Vc. destruct (neg c), sgn; split; try reflexivity; lra. }
  destruct Hc as [Nc Mc].
  destruct (mul_upper c 32767%float 32767 Fc F) as [Fp Hp];
    [apply (repr64_dy 32767 0); lia | rewrite M, Mc; lra |].
  assert (Hl : (32767 <= mag (c * 32767)%float)%Q).
  { apply mul_lower; auto; [apply (repr64_dy 32767 0); lia | rewrite M, Mc; lra]. }
  destruct (ToInt16_small _ Fp Hp) as [t [Ht [Hi _]]].
  change 0x7FFF%float with 32767%float. rewrite Hi.
  destruct (SFtrunc_val _ _ Ht) as [a [Ha [Et Hb]]].
  fold (neg (c * 32767)%float) in Et. fold (mag (c * 32767)%float) in Hb.
  rewrite mul_neg, Nc, N, xorb_false_r in Et by assumption.
  assert (E : a = 32767).
  { assert (H1 : (inject_Z a <= inject_Z 32767)%Q) by (change (inject_Z 32767) with 32767%Q; lra).
    assert (H2 : (inject_Z 32767 < inject_Z (a + 1))%Q)
      by (rewrite inject_Z_plus; change (inject_Z 32767) with 32767%Q;
          change (inject_Z 1) with 1%Q; lra).
    rewrite <- Zle_Qle in H1. rewrite <- Zlt_Qlt in H2. lia. }
  subst a. now destruct sgn.
Qed.

(** X13: samples out of range saturate, they do not wrap: a sample of 1 or
    more (infinity included) is written as 32767, a sample of -1 or less
    as -32767, and NaN as 0. *)
Theorem out_of_range_samples_saturate (buffer : AudioBuffer) (i c : nat) :
  (i < buffer_length buffer)%nat -> (c < numberOfChannels buffer)%nat ->
  let x := getSample (getChannelData buffer c) i in
  exists bytes,
    audioBufferToWav buffer = Ok bytes
    /\ let written := readInt16 bytes (44 + (i * numberOfChannels buffer + c) * 2) in
       ((1 <=? x)%float = true -> written = 32767)
       /\ ((x <=? -1)%float = true -> written = -32767)
       /\ (PrimFloat.is_nan x = true -> written = 0).
Proof.
  intros Hi Hc x. destruct (encoded_slot buffer i c Hi Hc) as [bytes [E R]].
  exists bytes. split; [exact E |]. cbv zeta. rewrite R. fold x. unfold pcm16.
  clearbody x.
  split; [| split].
  - intros H. destruct (clampSample_high x H) as [F V].
    exact (quantise_unit _ false F V).
  - intros H. destruct (clampSample_low x H) as [F V].
    exact (quantise_unit _ true F V).
  - intros H. destruct (clampSample_spec x) as [[_ Hn] | [Fc _]].
    + apply (mul_nan_l _ 0x7FFF%float) in Hn. apply is_nan_spec in Hn.
      unfold ToInt16. now rewrite Hn.
    + exfalso. unfold clampSample, Math_min, Math_max in Fc.
      rewrite H, orb_true_r in Fc. vm_compute in Fc. discriminate.
Qed.

Lemma out_of_range_samples_saturate_witness :
  (0 < buffer_length smallBuffer)%nat /\ (0 < numberOfChannels smallBuffer)%nat
  /\ let x := getSample (getChannelData smallBuffer 0) 0 in
     exists bytes,
       audioBufferToWav smallBuffer = Ok bytes
       /\ let written := readInt16 bytes (44 + (0 * numberOfChannels smallBuffer + 0) * 2) in
          ((1 <=? x)%float = true -> written = 32767)
          /\ ((x <=? -1)%float = true -> written = -32767)
          /\ (PrimFloat.is_nan x = true -> written = 0).
Proof.
  assert (H1 : (0 < buffer_length smallBuffer)%nat) by (simpl; lia).
  assert (H2 : (0 < numberOfChannels smallBuffer)%nat) by (simpl; lia).
  split; [exact H1 | split; [exact H2 |]].
  exact (out_of_range_samples_saturate smallBuffer 0 0 H1 H2).
Defined.

(** ** Rounding is to nearest, from either side *)

Lemma even_div_half (M k : Z) :
  0 <= M -> 0 < k -> Z.odd (M / 2 ^ (k - 1)) = false -> M mod 2 ^ k < 2 ^ (k - 1).
Proof.
  intros HM Hk Hodd.
  assert (Hp : 0 < 2 ^ (k - 1)) by (apply Z.pow_pos_nonneg; lia).
  assert (E : 2 ^ k = 2 * 2 ^ (k - 1)).
  { rewrite <- Z.pow_succ_r by lia. f_equal. lia. }
  pose proof (Z.div_mod M (2 ^ (k - 1)) ltac:(lia)) as H1.
  pose proof (Z.mod_pos_bound M (2 ^ (k - 1)) Hp) as H2.
  set (q := M / 2 ^ (k - 1)) in *. set (r := M mod 2 ^ (k - 1)) in *.
  rewrite <- Z.negb_even, negb_false_iff, Z.even_spec in Hodd. destruct Hodd as [c Hc].
  assert (Hmod : M mod 2 ^ k = r).
  { symmetry. apply Z.mod_unique with c; [left; lia |]. rewrite E, H1, Hc. ring. }
  lia.
Qed.

Lemma shr_1_s (mrs : shr_record) : shr_s (shr_1 mrs) = inexact mrs.
Proof.
  destruct mrs as [m r s]; unfold inexact; simpl.
  destruct m as [|[p|p|]|[p|p|]]; reflexivity.
Qed.

Lemma shr_iter_exact (k : nat) (mrs : shr_record) :
  0 <= shr_m mrs ->
  inexact (Nat.iter k shr_1 mrs) = false ->
  inexact mrs = false /\ shr_m mrs mod 2 ^ Z.of_nat k = 0.
Proof.
  intros Hm. induction k as [|k IH].
  - intros H. split; [exact H |]. simpl. apply Z.mod_1_r.
  - rewrite Nat.iter_succ.
    rewrite shr_1_inexact by (rewrite shr_iter_m by assumption; apply Z.div_pos; lia).
    rewrite orb_false_iff. intros [Hodd Hin]. destruct (IH Hin) as [H0 Hmod].
    split; [exact H0 |].
    rewrite shr_iter_m in Hodd by assumption.
    rewrite Nat2Z.inj_succ, Z.pow_succ_r by lia.
    assert (Hp : 0 < 2 ^ Z.of_nat k) by (apply Z.pow_pos_nonneg; lia).
    apply Z.mod_divide in Hmod; [| lia]. destruct Hmod as [c Hc].
    rewrite Hc, Z.div_mul in Hodd by lia.
    rewrite <- Z.negb_even, negb_false_iff, Z.even_spec in Hodd. destruct Hodd as [d Hd].
    rewrite Hc, Hd. replace (2 * d * 2 ^ Z.of_nat k) with (d * (2 * 2 ^ Z.of_nat k)) by ring.
    apply Z.mod_mul. lia.
Qed.

Section NearestAny.

Variables prc emx : Z.
Hypothesis Hprec : 0 < prc.

#[local] Abbreviation fexp := (SpecFloat.fexp prc emx).
#[local] Abbreviation emin := (SpecFloat.emin prc emx).

(** What the round bit and the sticky bit say after the shift. *)
Lemma shr_bits (M e sh : Z) (l : location) :
  0 <= M -> 0 <= sh ->
  exists mrs,
    shr (shr_record_of_loc M l) e sh = (mrs, e + sh)
    /\ shr_m mrs = M / 2 ^ sh
    /\ (shr_r mrs = true ->
        (sh = 0 /\ (l = loc_Inexact Eq \/ l = loc_Inexact Gt))
        \/ (0 < sh /\ 2 ^ (sh - 1) <= M mod 2 ^ sh))
    /\ (shr_r mrs = false ->
        (sh = 0 /\ l <> loc_Inexact Gt) \/ (0 < sh /\ M mod 2 ^ sh < 2 ^ (sh - 1)))
    /\ (shr_s mrs = false ->
        (sh = 0 /\ l <> loc_Inexact Gt)
        \/ (0 < sh /\ l = loc_Exact /\ M mod 2 ^ sh <= 2 ^ (sh - 1))).
Proof.
  intros HM Hsh.
  assert (Hrec : shr_m (shr_record_of_loc M l) = M) by (destruct l as [|[]]; reflexivity).
  destruct sh as [|p|p]; try lia.
  - exists (shr_record_of_loc M l). simpl. rewrite Z.add_0_r, Z.div_1_r.
    split; [reflexivity |]. split; [exact Hrec |].
    destruct l as [|[]]; simpl; repeat split; intros H; try discriminate;
      left; (split; [reflexivity |]); auto; discriminate.
  - exists (iter_pos shr_1 p (shr_record_of_loc M l)). cbn [shr].
    rewrite iter_pos_nat. split; [reflexivity |].
    destruct (Pos2Nat.is_succ p) as [k Hk]. rewrite Hk.
    assert (Ek : Z.of_nat k = Zpos p - 1) by lia.
    split; [| split; [| split]].
    + rewrite shr_iter_m by lia. rewrite Hrec. f_equal. f_equal. lia.
    + intros H. right. split; [lia |].
      rewrite shr_iter_r, Hrec, Ek in H by lia.
      apply odd_div_half; [assumption | lia | assumption].
    + intros H. right. split; [lia |].
      rewrite shr_iter_r, Hrec, Ek in H by lia.
      apply even_div_half; [assumption | lia | assumption].
    + intros H. right. split; [lia |].
      rewrite Nat.iter_succ, shr_1_s in H.
      apply shr_iter_exact in H; [| lia]. destruct H as [H0 Hmod].
      rewrite Hrec, Ek in Hmod.
      split; [destruct l as [|[]]; unfold inexact in H0; simpl in H0; congruence |].
      assert (Hp : 0 < 2 ^ (Zpos p - 1)) by (apply Z.pow_pos_nonneg; lia).
      assert (E : 2 ^ Zpos p = 2 * 2 ^ (Zpos p - 1)).
      { rewrite <- Z.pow_succ_r by lia. f_equal. lia. }
      apply Z.mod_divide in Hmod; [| lia]. destruct Hmod as [c Hc].
      pose proof (Z.mod_pos_bound M (2 ^ Zpos p) ltac:(lia)) as Hb.
      pose proof (Z.div_mod M (2 ^ Zpos p) ltac:(lia)) as Hd.
      rewrite E in *.
      set (q := M / (2 * 2 ^ (Zpos p - 1))) in *.
      set (r := M mod (2 * 2 ^ (Zpos p - 1))) in *.
      assert (Hr : r = (c - 2 * q) * 2 ^ (Zpos p - 1)) by lia.
      assert (c - 2 * q < 2) by nia. assert (0 <= c - 2 * q) by nia.
      assert (Hc2 : c - 2 * q = 0 \/ c - 2 * q = 1) by lia.
      destruct Hc2 as [Hz | Hz]; rewrite Hr, Hz; lia.
Qed.

Lemma round_nearest_even_inv (mrs : shr_record) :
  let m := round_nearest_even (shr_m mrs) (loc_of_shr_record mrs) in
  (m = shr_m mrs /\ (shr_r mrs = false \/ shr_s mrs = false))
  \/ (m = shr_m mrs + 1 /\ shr_r mrs = true).
Proof.
  destruct mrs as [m [] []]; simpl; auto.
  destruct (Z.even m); auto.
Qed.

(** The integer-level description of rounding with its two directions:
    the mantissa goes up only if at least half a unit was cut off, and
    stays only if at most half a unit was. *)
Lemma binary_round_aux_nearest (s : bool) (M e : Z) (l : location) :
  0 <= M ->
  e <= fexp (Zdigits2 M + e) ->
  let e1 := fexp (Zdigits2 M + e) in
  let sh := e1 - e in
  let m1 := M / 2 ^ sh in
  exists m2 m3 e3,
    ((m2 = m1
      /\ ((sh = 0 /\ l <> loc_Inexact Gt)
          \/ (0 < sh /\ (M mod 2 ^ sh < 2 ^ (sh - 1)
                         \/ (l = loc_Exact /\ M mod 2 ^ sh <= 2 ^ (sh - 1))))))
     \/ (m2 = m1 + 1
         /\ ((sh = 0 /\ (l = loc_Inexact Eq \/ l = loc_Inexact Gt))
             \/ (0 < sh /\ 2 ^ (sh - 1) <= M mod 2 ^ sh))))
    /\ (e3 = e1 /\ m3 = m2 \/ e3 = e1 + 1 /\ m2 = 2 * m3)
    /\ 0 <= m3 < 2 ^ prc
    /\ 0 <= m1
    /\ (emin < e1 -> 2 ^ (prc - 1) <= m1)
    /\ binary_round_aux prc emx s M e l = SFmake prc emx s m3 e3.
Proof.
  intros HM He e1 sh m1.
  assert (Hsh : 0 <= sh) by (unfold sh, e1; lia).
  destruct (shr_bits M e sh l HM Hsh) as [mrs [Hshr [Hm [Hup [Hdn Hst]]]]].
  unfold binary_round_aux, shr_fexp. fold e1. fold sh. rewrite Hshr.
  replace (e + sh) with e1 by (unfold sh; lia).
  pose proof (round_nearest_even_inv mrs) as Hr. cbv zeta in Hr.
  set (m2 := round_nearest_even (shr_m mrs) (loc_of_shr_record mrs)) in *.
  rewrite Hm in Hr. fold m1 in Hr.
  pose proof (Zdigits2_bounds M HM) as [Hd1 [Hd2 Hd0]].
  assert (Hpow : 0 < 2 ^ sh) by (apply Z.pow_pos_nonneg; lia).
  assert (Hm1 : 0 <= m1) by (apply Z.div_pos; lia).
  assert (He1 : emin <= e1) by apply fexp_ge_emin.
  assert (Hm1p : m1 < 2 ^ prc).
  { unfold m1. apply Z.div_lt_upper_bound; [lia |].
    rewrite <- Z.pow_add_r by lia.
    eapply Z.lt_le_trans; [exact Hd2 |].
    apply Z.pow_le_mono_r; [lia |]. unfold sh, e1, SpecFloat.fexp, SpecFloat.emin. lia. }
  assert (Hnorm : emin < e1 -> 2 ^ (prc - 1) <= m1).
  { intros Hlt. assert (He1eq : e1 = Zdigits2 M + e - prc)
      by (unfold e1, SpecFloat.fexp, SpecFloat.emin in *; lia).
    assert (HMpos : M <> 0).
    { intros ->. simpl in He1eq. lia. }
    replace (if M =? 0 then 1 else 0) with 0 in Hd1
      by (destruct (Z.eqb_spec M 0); congruence).
    unfold m1. apply Z.div_le_lower_bound; [lia |].
    rewrite <- Z.pow_add_r by lia.
    replace (sh + (prc - 1)) with (Zdigits2 M - 1) by (unfold sh; lia). lia. }
  assert (Hm2 : 0 <= m2 <= 2 ^ prc) by (destruct Hr as [[-> _] | [-> _]]; lia).
  assert (Hcause :
    (m2 = m1
      /\ ((sh = 0 /\ l <> loc_Inexact Gt)
          \/ (0 < sh /\ (M mod 2 ^ sh < 2 ^ (sh - 1)
                         \/ (l = loc_Exact /\ M mod 2 ^ sh <= 2 ^ (sh - 1))))))
     \/ (m2 = m1 + 1
         /\ ((sh = 0 /\ (l = loc_Inexact Eq \/ l = loc_Inexact Gt))
             \/ (0 < sh /\ 2 ^ (sh - 1) <= M mod 2 ^ sh)))).
  { destruct Hr as [[E [Hr | Hs]] | [E Hr]].
    - left. split; [exact E |]. destruct (Hdn Hr) as [H | [H1 H2]]; [now left | right; auto].
    - left. split; [exact E |]. destruct (Hst Hs) as [H | [H1 [H2 H3]]]; [now left | right; auto].
    - right. split; [exact E |]. now apply Hup. }
  exists m2.
  destruct (Z.eq_dec m2 (2 ^ prc)) as [Hfull | Hnot].
  - exists (2 ^ (prc - 1)), (e1 + 1).
    assert (H2p : 2 ^ prc = 2 * 2 ^ (prc - 1)).
    { rewrite <- Z.pow_succ_r by lia. f_equal. lia. }
    assert (Hpp : 0 < 2 ^ (prc - 1)) by (apply Z.pow_pos_nonneg; lia).
    split; [exact Hcause |].
    split; [right; split; [reflexivity | lia] |].
    split; [lia |]. split; [exact Hm1 |]. split; [exact Hnorm |].
    rewrite Hfull, Zdigits2_pow2 by lia.
    replace (fexp (prc + 1 + e1) - e1) with 1
      by (clear - He1; unfold SpecFloat.fexp, SpecFloat.emin in *; lia).
    cbn [shr shr_record_of_loc iter_pos]. rewrite H2p.
    assert (Hs : shr_m (shr_1 {| shr_m := 2 * 2 ^ (prc - 1); shr_r := false; shr_s := false |})
                 = 2 ^ (prc - 1)).
    { rewrite shr_1_m by (cbn [shr_m]; lia). cbn [shr_m].
      rewrite Z.mul_comm, Z.div_mul by lia. reflexivity. }
    rewrite Hs. unfold SFmake. reflexivity.
  - exists m2, e1.
    split; [exact Hcause |].
    split; [left; split; reflexivity |].
    split; [lia |]. split; [exact Hm1 |]. split; [exact Hnorm |].
    assert (Hd : Zdigits2 m2 <= prc) by (apply Zdigits2_le; lia).
    assert (Hno : fexp (Zdigits2 m2 + e1) - e1 <= 0)
      by (clear - He1 Hd Hprec; unfold SpecFloat.fexp, SpecFloat.emin in *; lia).
    unfold shr. destruct (fexp (Zdigits2 m2 + e1) - e1) as [|p|p] eqn:E; try lia;
      (destruct m2; reflexivity).
Qed.

Lemma dy_half (e : Z) : (dy 1 e == 2 * dy 1 (e - 1))%Q.
Proof.
  assert (Hp : (2 ^ e == 2 ^ (e - 1) * 2 ^ 1)%Q).
  { rewrite <- pow2_add. now replace (e - 1 + 1) with e by lia. }
  unfold dy. rewrite Hp. change (2 ^ 1)%Q with 2%Q. ring.
Qed.

Lemma dy_succ (M e : Z) : (dy (M + 1) e == dy M e + dy 1 e)%Q.
Proof. unfold dy. rewrite inject_Z_plus. ring. Qed.

Lemma inbetween_bounds (M e : Z) (l : location) (v : Q) :
  inbetween M e l v ->
  (dy M e <= v)%Q /\ (l <> loc_Exact -> (dy M e < v)%Q) /\ (v < dy (M + 1) e)%Q.
Proof.
  pose proof (dy_half e) as Hh. pose proof (dy_succ M e) as Hs.
  pose proof (dy_pos 1 (e - 1) ltac:(lia)) as Hp.
  destruct l as [|[]]; cbn [inbetween]; intros H;
    (split; [lra | split; [intros Hl; try congruence; lra | lra]]).
Qed.

(** A number of the format below the next mantissa is at most the
    mantissa. *)
Lemma repr_below (K eK m1 e1 : Z) :
  0 <= K < 2 ^ prc -> emin <= eK ->
  (emin < e1 -> 2 ^ (prc - 1) <= m1) ->
  (dy K eK < dy (m1 + 1) e1)%Q -> (dy K eK <= dy m1 e1)%Q.
Proof.
  intros HK HeK Hn1 Hlt.
  destruct (Z_le_gt_dec e1 eK) as [Hle | Hgt].
  - assert (Heq : (dy K eK == dy (K * 2 ^ (eK - e1)) e1)%Q).
    { rewrite dy_shift by lia. now replace (e1 + (eK - e1)) with eK by lia. }
    rewrite Heq in *. apply dy_lt_inv in Hlt. apply dy_le. lia.
  - assert (H1 : 2 ^ (prc - 1) <= m1) by (apply Hn1; lia).
    apply (dy_pow_lower _ _ e1) in H1; [| lia].
    assert (H2 : (dy K eK < 2 ^ (prc + eK))%Q) by (apply dy_pow_upper; lia).
    assert (H3 : (2 ^ (prc + eK) <= 2 ^ (prc - 1 + e1))%Q) by (apply pow2_le; lia).
    lra.
Qed.

(** The rounded value, the mantissa it was cut to, and on which side of
    the middle the exact value lies. *)
Lemma round_sides (s : bool) (M e : Z) (l : location) (v : Q) :
  0 <= M -> e <= fexp (Zdigits2 M + e) -> inbetween M e l v ->
  SFfinite (binary_round_aux prc emx s M e l) = true ->
  exists m1 e1,
    (emin < e1 -> 2 ^ (prc - 1) <= m1)
    /\ (dy m1 e1 <= v < dy (m1 + 1) e1)%Q
    /\ (((SFmag (binary_round_aux prc emx s M e l) == dy m1 e1)%Q
         /\ (v <= dy m1 e1 + dy 1 (e1 - 1))%Q)
        \/ ((SFmag (binary_round_aux prc emx s M e l) == dy (m1 + 1) e1)%Q
            /\ (dy m1 e1 + dy 1 (e1 - 1) <= v)%Q)).
Proof.
  intros HM He Hin.
  destruct (binary_round_aux_nearest s M e l HM He)
    as [m2 [m3 [e3 [Hm2 [Hm3 [Hr3 [Hm1 [Hn1 ->]]]]]]]].
  set (e1 := fexp (Zdigits2 M + e)) in *.
  set (sh := e1 - e) in *.
  set (m1 := M / 2 ^ sh) in *.
  intros Hfin.
  assert (Hsh : 0 <= sh) by (unfold sh; lia).
  assert (He1 : e1 = e + sh) by (unfold sh; lia).
  destruct (inbetween_bounds M e l v Hin) as [Hlo [Hstrict Hhi]].
  assert (Hlow : (dy m1 e1 <= dy M e)%Q) by (rewrite He1; now apply dy_div_lower).
  assert (Hup : (dy (M + 1) e <= dy (m1 + 1) e1)%Q) by (rewrite He1; now apply dy_div_upper).
  assert (HB3 : (dy m3 e3 == dy m2 e1)%Q).
  { destruct Hm3 as [[-> ->] | [-> ->]]; [reflexivity |].
    replace (2 * m3) with (m3 * 2 ^ 1) by lia. now rewrite dy_shift by lia. }
  exists m1, e1. split; [exact Hn1 |]. split; [lra |].
  rewrite SFmake_mag by (assumption || lia). rewrite HB3.
  assert (Hpow : 0 < 2 ^ sh) by (apply Z.pow_pos_nonneg; lia).
  pose proof (Z.div_mod M (2 ^ sh) ltac:(lia)) as Hdm. fold m1 in Hdm.
  pose proof (Z.mod_pos_bound M (2 ^ sh) Hpow) as Hmb.
  (* the middle of the interval, at the exponent [e] *)
  assert (Hmid : 0 < sh ->
                 (dy m1 e1 + dy 1 (e1 - 1) == dy (m1 * 2 ^ sh + 2 ^ (sh - 1)) e)%Q).
  { intros Hpos.
    assert (E1 : (dy m1 e1 == dy (m1 * 2 ^ sh) e)%Q)
      by (rewrite dy_shift by lia; now rewrite He1).
    assert (E2 : (dy 1 (e1 - 1) == dy (1 * 2 ^ (sh - 1)) e)%Q).
    { rewrite dy_shift by lia. now replace (e + (sh - 1)) with (e1 - 1) by lia. }
    rewrite E1, E2. unfold dy. rewrite inject_Z_plus, Z.mul_1_l. ring. }
  assert (Hzero : sh = 0 -> m1 = M /\ e1 = e).
  { intros E. unfold m1. rewrite E, Z.div_1_r. split; [reflexivity | lia]. }
  destruct Hm2 as [[-> Hc] | [-> Hc]]; [left | right]; (split; [reflexivity |]).
  - destruct Hc as [[E Hl] | [Hpos [Hc | [Hl Hc]]]].
    + destruct (Hzero E) as [-> ->].
      pose proof (dy_pos 1 (e - 1) ltac:(lia)).
      destruct l as [|[]]; cbn [inbetween] in Hin; try congruence; lra.
    + rewrite (Hmid Hpos).
      assert (H1 : (dy (M + 1) e <= dy (m1 * 2 ^ sh + 2 ^ (sh - 1)) e)%Q)
        by (apply dy_le; lia).
      lra.
    + rewrite (Hmid Hpos). subst l. cbn [inbetween] in Hin. rewrite Hin.
      apply dy_le. lia.
  - destruct Hc as [[E Hl] | [Hpos Hc]].
    + destruct (Hzero E) as [-> ->].
      destruct Hl as [-> | ->]; cbn [inbetween] in Hin; lra.
    + rewrite (Hmid Hpos).
      assert (H1 : (dy (m1 * 2 ^ sh + 2 ^ (sh - 1)) e <= dy M e)%Q) by (apply dy_le; lia).
      lra.
Qed.

(** The result is no farther above the exact value than any number of the
    format is below it. *)
Theorem round_near_up (s : bool) (M e : Z) (l : location) (v : Q) (K eK : Z) :
  0 <= M -> e <= fexp (Zdigits2 M + e) -> inbetween M e l v ->
  0 <= K < 2 ^ prc -> emin <= eK ->
  (dy K eK <= v)%Q ->
  SFfinite (binary_round_aux prc emx s M e l) = true ->
  (SFmag (binary_round_aux prc emx s M e l) <= 2 * v - dy K eK)%Q.
Proof.
  intros HM He Hin HK HeK HKv Hfin.
  destruct (round_sides s M e l v HM He Hin Hfin) as [m1 [e1 [Hn1 [Hv [[-> Hc] | [-> Hc]]]]]].
  - lra.
  - assert (HA : (dy K eK <= dy m1 e1)%Q) by (apply repr_below; auto; lra).
    pose proof (dy_succ m1 e1). pose proof (dy_half e1). lra.
Qed.

(** The result is no farther below the exact value than any number of the
    format is above it. *)
Theorem round_near_down (s : bool) (M e : Z) (l : location) (v : Q) (K eK : Z) :
  0 <= M -> e <= fexp (Zdigits2 M + e) -> inbetween M e l v ->
  0 <= K < 2 ^ prc -> emin <= eK ->
  (v <= dy K eK)%Q ->
  SFfinite (binary_round_aux prc emx s M e l) = true ->
  (2 * v - dy K eK <= SFmag (binary_round_aux prc emx s M e l))%Q.
Proof.
  intros HM He Hin HK HeK HKv Hfin.
  destruct (round_sides s M e l v HM He Hin Hfin) as [m1 [e1 [Hn1 [Hv [[-> Hc] | [-> Hc]]]]]].
  - pose proof (dy_succ m1 e1). pose proof (dy_half e1).
    destruct (Qlt_le_dec (dy K eK) (dy (m1 + 1) e1)) as [Hlt | Hge]; [| lra].
    assert (HA : (dy K eK <= dy m1 e1)%Q) by (apply repr_below; auto).
    lra.
  - lra.
Qed.

(** Rounding is monotone: of two values, the larger is rounded to the
    larger result, or the same. *)
Theorem round_mono (s s' : bool) (M e M' e' : Z) (l l' : location) (v v' : Q) :
  prc < emx ->
  0 <= M -> e <= fexp (Zdigits2 M + e) -> inbetween M e l v ->
  0 <= M' -> e' <= fexp (Zdigits2 M' + e') -> inbetween M' e' l' v' ->
  (v < v')%Q ->
  SFfinite (binary_round_aux prc emx s M e l) = true ->
  SFfinite (binary_round_aux prc emx s' M' e' l') = true ->
  (SFmag (binary_round_aux prc emx s M e l)
   <= SFmag (binary_round_aux prc emx s' M' e' l'))%Q.
Proof.
  intros Hemax HM He Hin HM' He' Hin' Hlt Hfin Hfin'.
  destruct (inbetween_bounds M e l v Hin) as [Hlo [Hstrict Hhi]].
  destruct (inbetween_bounds M' e' l' v' Hin') as [Hlo' [Hstrict' Hhi']].
  (* both results are numbers of the format *)
  assert (Hrep : forall (t : bool) (N f : Z) (k : location),
             0 <= N -> f <= fexp (Zdigits2 N + f) ->
             SFfinite (binary_round_aux prc emx t N f k) = true ->
             exists K eK, 0 <= K < 2 ^ prc /\ emin <= eK <= emx - prc
                          /\ (SFmag (binary_round_aux prc emx t N f k) == dy K eK)%Q).
  { intros t N f k HN Hf HF.
    destruct (round_shape prc emx Hprec t N f k HN Hf) as [m3 [e3 [E [Hm3 [He3 _]]]]].
    rewrite E in *. unfold SFmake in *.
    destruct m3 as [|p|p]; try lia.
    - exists 0, (SpecFloat.emin prc emx).
      split; [lia |]. split; [unfold SpecFloat.emin; lia |].
      cbn [SFmag]. unfold dy. simpl. ring.
    - destruct (e3 <=? emx - prc) eqn:El; [| discriminate].
      apply Z.leb_le in El. exists (Zpos p), e3. split; [lia |]. split; [lia |]. reflexivity. }
  destruct (Hrep s M e l HM He Hfin) as [K [eK [HK [HeK EK]]]].
  destruct (Hrep s' M' e' l' HM' He' Hfin') as [K' [eK' [HK' [HeK' EK']]]].
  destruct (Qlt_le_dec v' (dy K eK)) as [Hb | Ha].
  - destruct (Qlt_le_dec (dy K' eK') v) as [Hb2 | Hb1].
    + (* both results would lie on the far side of both values *)
      pose proof (round_near_up s M e l v K' eK' HM He Hin HK' ltac:(lia) ltac:(lra) Hfin).
      pose proof (round_near_down s' M' e' l' v' K eK HM' He' Hin' HK ltac:(lia) ltac:(lra) Hfin').
      lra.
    + rewrite EK'.
      apply (round_upper prc emx Hprec s M e l v K' eK'); auto.
  - rewrite EK.
    apply (round_lower prc emx Hprec s' M' e' l' v' K eK); auto. lia.
Qed.

End NearestAny.

(** ** Products and quotients are monotone *)

Section Monotone.

Variables prc emx : Z.
Hypothesis Hprec : 0 < prc.
Hypothesis Hemax : prc < emx.

#[local] Abbreviation fexp := (SpecFloat.fexp prc emx).
#[local] Abbreviation emin := (SpecFloat.emin prc emx).

Lemma canonical_unique (m m' : positive) (e e' : Z) :
  canonical prc emx m e -> canonical prc emx m' e' ->
  (dy (Zpos m) e == dy (Zpos m') e')%Q -> m = m' /\ e = e'.
Proof.
  intros C C' E.
  destruct (Z.lt_trichotomy e e') as [H | [H | H]].
  - pose proof (canonical_lt_exp prc emx Hprec m m' e e' C C' H). lra.
  - subst e'. split; [| reflexivity].
    assert (H1 : (dy (Zpos m) e <= dy (Zpos m') e)%Q) by lra.
    assert (H2 : (dy (Zpos m') e <= dy (Zpos m) e)%Q) by lra.
    apply dy_le_inv in H1, H2. lia.
  - pose proof (canonical_lt_exp prc emx Hprec m' m e' e C' C H). lra.
Qed.

(** Two finite numbers of the format with one sign and one magnitude are
    one number. *)
Lemma SF_unique (x y : spec_float) :
  SpecFloat.valid_binary prc emx x = true -> SpecFloat.valid_binary prc emx y = true ->
  SFfinite x = true -> SFfinite y = true ->
  SFneg x = SFneg y -> (SFmag x == SFmag y)%Q -> x = y.
Proof.
  intros Vx Vy Fx Fy Hn Hm.
  destruct x as [sx|sx| |sx mx ex], y as [sy|sy| |sy my ey]; try discriminate;
    cbn [SFneg SFmag] in *.
  - now subst.
  - pose proof (dy_pos (Zpos my) ey ltac:(lia)). lra.
  - pose proof (dy_pos (Zpos mx) ex ltac:(lia)). lra.
  - apply valid_canonical in Vx, Vy.
    destruct (canonical_unique mx my ex ey Vx Vy Hm) as [-> ->]. now subst.
Qed.

Lemma binary_round_aux_sign (s s' : bool) (M e : Z) (l : location) :
  SFfinite (binary_round_aux prc emx s M e l) = SFfinite (binary_round_aux prc emx s' M e l)
  /\ SFmag (binary_round_aux prc emx s M e l) = SFmag (binary_round_aux prc emx s' M e l).
Proof.
  unfold binary_round_aux.
  destruct (shr_fexp prc emx M e l) as [mrs e1].
  destruct (shr_fexp prc emx _ e1 loc_Exact) as [mrs' e2].
  destruct (shr_m mrs') as [|p|p]; [split; reflexivity | | split; reflexivity].
  destruct (e2 <=? emx - prc); split; reflexivity.
Qed.

Theorem SFmul_mono (x y x' y' : spec_float) :
  SpecFloat.valid_binary prc emx x = true -> SpecFloat.valid_binary prc emx y = true ->
  SpecFloat.valid_binary prc emx x' = true -> SpecFloat.valid_binary prc emx y' = true ->
  SFfinite x = true -> SFfinite y = true -> SFfinite x' = true -> SFfinite y' = true ->
  (SFmag x * SFmag y < SFmag x' * SFmag y')%Q ->
  SFfinite (SFmul prc emx x y) = true -> SFfinite (SFmul prc emx x' y') = true ->
  (SFmag (SFmul prc emx x y) <= SFmag (SFmul prc emx x' y'))%Q.
Proof.
  intros Vx Vy Vx' Vy' Fx Fy Fx' Fy' Hlt.
  pose proof (SFmag_nonneg x). pose proof (SFmag_nonneg y).
  destruct x' as [sx'|sx'| |sx' mx' ex'], y' as [sy'|sy'| |sy' my' ey']; try discriminate;
    cbn [SFmag] in Hlt; try (exfalso; nra).
  destruct x as [sx|sx| |sx mx ex], y as [sy|sy| |sy my ey]; try discriminate;
    try (intros _ _; cbn [SFmul SFmag]; apply SFmag_nonneg).
  apply valid_canonical in Vx, Vy, Vx', Vy'. cbn [SFmul SFmag] in *.
  apply round_mono with (v := (dy (Zpos mx) ex * dy (Zpos my) ey)%Q)
                        (v' := (dy (Zpos mx') ex' * dy (Zpos my') ey')%Q); auto; try lia.
  - now apply mul_precondition.
  - cbn [inbetween]. now rewrite Pos2Z.inj_mul, dy_mul.
  - now apply mul_precondition.
  - cbn [inbetween]. now rewrite Pos2Z.inj_mul, dy_mul.
Qed.

(** The quotient that [SFdiv_core_binary] hands to the rounding, with the
    side of the middle its location names. *)
Lemma SFdiv_core_inbetween (m1 m2 : positive) (e1 e2 : Z) :
  exists q e' l,
    SFdiv_core_binary prc emx (Zpos m1) e1 (Zpos m2) e2 = (q, e', l)
    /\ 0 <= q
    /\ e' <= fexp (Zdigits2 q + e')
    /\ inbetween q e' l (dy (Zpos m1) e1 / dy (Zpos m2) e2)%Q.
Proof.
  destruct (SFdiv_core_spec prc emx Hprec m1 m2 e1 e2) as [q [e' [l [E [Hq [Hpre _]]]]]].
  exists q, e', l. split; [exact E |]. split; [exact Hq |]. split; [exact Hpre |].
  unfold SFdiv_core_binary in E. cbv zeta in E.
  remember (Z.min (fexp (Zdigits2 (Zpos m1) + e1 - (Zdigits2 (Zpos m2) + e2))) (e1 - e2))
    as e0 eqn:Ee0.
  remember (e1 - e2 - e0) as s eqn:Es.
  assert (Hs : 0 <= s) by lia.
  set (m' := match s with Z.pos _ => Z.shiftl (Zpos m1) s | 0 => Zpos m1 | Z.neg _ => 0 end) in E.
  assert (Hm' : m' = Zpos m1 * 2 ^ s).
  { unfold m'. clear E m' Es. destruct s as [|p|p]; try lia.
    now rewrite Z.shiftl_mul_pow2 by lia. }
  assert (H2s : 0 < 2 ^ s) by (apply Z.pow_pos_nonneg; lia).
  assert (Hm'pos : 0 < m') by (rewrite Hm'; lia).
  pose proof (Z.div_mod m' (Zpos m2) ltac:(lia)) as Hdm.
  pose proof (Z.mod_pos_bound m' (Zpos m2) ltac:(lia)) as Hrb.
  assert (Hde : Z.div_eucl m' (Zpos m2) = (m' / Zpos m2, m' mod Zpos m2)).
  { unfold Z.div, Z.modulo. now destruct (Z.div_eucl m' (Zpos m2)). }
  rewrite Hde in E. injection E as Eq Ee El.
  set (r := m' mod Zpos m2) in *.
  subst e0. assert (Ee1 : e1 = e' + e2 + s) by lia.
  (* the exact quotient, in units of half [2^e'] *)
  set (Y := dy (Zpos m2) e2).
  assert (HY : (0 < Y)%Q) by (apply dy_pos; lia).
  set (v := (dy (Zpos m1) e1 / Y)%Q).
  assert (Hv : (v * Y == dy (2 * m') (e' - 1 + e2))%Q).
  { unfold v. field_simplify_eq; [| lra].
    replace (2 * m') with (m' * 2 ^ 1) by lia. rewrite dy_shift by lia.
    rewrite Hm', dy_shift by lia. now replace (e' - 1 + e2 + 1 + s) with e1 by lia. }
  assert (Hside : forall a : Z,
             (dy a (e' - 1) * Y == dy (a * Zpos m2) (e' - 1 + e2))%Q)
    by (intros a; now rewrite dy_mul).
  assert (Hq2 : (dy q e' == dy (2 * q) (e' - 1))%Q).
  { replace (2 * q) with (q * 2 ^ 1) by lia. rewrite dy_shift by lia.
    now replace (e' - 1 + 1) with e' by lia. }
  assert (Hq3 : (dy (q + 1) e' == dy (2 * q + 2) (e' - 1))%Q).
  { replace (2 * q + 2) with ((q + 1) * 2 ^ 1) by lia. rewrite dy_shift by lia.
    now replace (e' - 1 + 1) with e' by lia. }
  assert (Hmidq : (dy q e' + dy 1 (e' - 1) == dy (2 * q + 1) (e' - 1))%Q).
  { rewrite Hq2. unfold dy. rewrite !inject_Z_plus. ring. }
  (* comparisons of [v] with a mantissa at the exponent [e' - 1] *)
  assert (Hcmp_lt : forall a : Z, a * Zpos m2 < 2 * m' -> (dy a (e' - 1) < v)%Q).
  { intros a Ha. apply (dy_lt _ _ (e' - 1 + e2)) in Ha. rewrite <- Hside, <- Hv in Ha.
    apply Qmult_lt_r in Ha; assumption. }
  assert (Hcmp_gt : forall a : Z, 2 * m' < a * Zpos m2 -> (v < dy a (e' - 1))%Q).
  { intros a Ha. apply (dy_lt _ _ (e' - 1 + e2)) in Ha. rewrite <- Hside, <- Hv in Ha.
    apply Qmult_lt_r in Ha; assumption. }
  assert (Hcmp_eq : forall a : Z, a * Zpos m2 = 2 * m' -> (v == dy a (e' - 1))%Q).
  { intros a Ha.
    assert (H1 : (v * Y == dy a (e' - 1) * Y)%Q) by (rewrite Hv, Hside, Ha; reflexivity).
    apply Qmult_inj_r in H1; [exact H1 | lra]. }
  subst l. subst q. set (q := m' / Zpos m2) in *.
  unfold new_location, new_location_even, new_location_odd.
  destruct (Z.even (Zpos m2)) eqn:Hev; destruct (Z.eqb_spec r 0) as [Hr0 | Hr0].
  - cbn [inbetween]. rewrite Hq2. apply Hcmp_eq. lia.
  - destruct (Z.compare_spec (2 * r) (Zpos m2)) as [Hc | Hc | Hc]; cbn [inbetween].
    + rewrite Hmidq. apply Hcmp_eq. lia.
    + rewrite Hmidq, Hq2. split; [apply Hcmp_lt | apply Hcmp_gt]; lia.
    + rewrite Hmidq, Hq3. split; [apply Hcmp_lt | apply Hcmp_gt]; lia.
  - cbn [inbetween]. rewrite Hq2. apply Hcmp_eq. lia.
  - assert (Hodd : 2 * r <> Zpos m2).
    { intros Hc. rewrite <- Hc, Z.even_mul in Hev. discriminate. }
    destruct (Z.compare_spec (2 * r + 1) (Zpos m2)) as [Hc | Hc | Hc]; cbn [inbetween].
    + rewrite Hmidq, Hq2. split; [apply Hcmp_lt | apply Hcmp_gt]; lia.
    + rewrite Hmidq, Hq2. split; [apply Hcmp_lt | apply Hcmp_gt]; lia.
    + rewrite Hmidq, Hq3. split; [apply Hcmp_lt | apply Hcmp_gt]; lia.
Qed.

Theorem SFdiv_mono (x y x' y' : spec_float) :
  SFfinite x = true -> SFnonzero y = true -> SFfinite x' = true -> SFnonzero y' = true ->
  (SFmag x / SFmag y < SFmag x' / SFmag y')%Q ->
  SFfinite (SFdiv prc emx x y) = true -> SFfinite (SFdiv prc emx x' y') = true ->
  (SFmag (SFdiv prc emx x y) <= SFmag (SFdiv prc emx x' y'))%Q.
Proof.
  intros Fx Fy Fx' Fy' Hlt.
  destruct y as [sy|sy| |sy my ey]; try discriminate.
  destruct y' as [sy'|sy'| |sy' my' ey']; try discriminate.
  assert (HY : (0 < dy (Zpos my) ey)%Q) by (apply dy_pos; lia).
  assert (HY' : (0 < dy (Zpos my') ey')%Q) by (apply dy_pos; lia).
  cbn [SFmag] in Hlt.
  destruct x' as [sx'|sx'| |sx' mx' ex']; try discriminate.
  - exfalso. cbn [SFmag] in Hlt.
    assert (H0 : (0 <= SFmag x / dy (Zpos my) ey)%Q).
    { apply Qle_shift_div_l; [assumption |]. pose proof (SFmag_nonneg x). lra. }
    assert (E : (0 / dy (Zpos my') ey' == 0)%Q) by (field; lra).
    rewrite E in Hlt. lra.
  - destruct x as [sx|sx| |sx mx ex]; try discriminate.
    + intros _ _. cbn [SFdiv SFmag]. apply SFmag_nonneg.
    + cbn [SFdiv SFmag] in *.
      destruct (SFdiv_core_inbetween mx my ex ey) as [q [e' [l [-> [Hq [Hpre Hin]]]]]].
      destruct (SFdiv_core_inbetween mx' my' ex' ey') as [q' [e'' [l' [-> [Hq' [Hpre' Hin']]]]]].
      apply round_mono with (v := (dy (Zpos mx) ex / dy (Zpos my) ey)%Q)
                            (v' := (dy (Zpos mx') ex' / dy (Zpos my') ey')%Q); auto.
Qed.

Theorem SFdiv_near_up (x y : spec_float) (K eK : Z) :
  SFfinite x = true -> SFnonzero y = true ->
  0 <= K < 2 ^ prc -> emin <= eK ->
  (dy K eK <= SFmag x / SFmag y)%Q ->
  SFfinite (SFdiv prc emx x y) = true ->
  (SFmag (SFdiv prc emx x y) <= 2 * (SFmag x / SFmag y) - dy K eK)%Q.
Proof.
  intros Fx Fy HK HeK HKv.
  destruct y as [sy|sy| |sy my ey]; try discriminate.
  assert (HY : (0 < dy (Zpos my) ey)%Q) by (apply dy_pos; lia).
  destruct x as [sx|sx| |sx mx ex]; try discriminate.
  - intros _. cbn [SFdiv SFmag] in *.
    assert (E : (0 / dy (Zpos my) ey == 0)%Q) by (field; lra).
    assert (H0 : (0 <= dy K eK)%Q) by (apply dy_nonneg; lia).
    rewrite E in *. lra.
  - cbn [SFdiv SFmag] in *.
    destruct (SFdiv_core_inbetween mx my ex ey) as [q [e' [l [-> [Hq [Hpre Hin]]]]]].
    now apply round_near_up.
Qed.

End Monotone.

(** ** Monotone operations of binary64 *)

Lemma float_unique (a b : float) :
  finite a = true -> finite b = true -> neg a = neg b -> (mag a == mag b)%Q -> a = b.
Proof.
  intros Fa Fb Hn Hm. apply Prim2SF_inj.
  apply (SF_unique prec emax Hprec64); auto using Prim2SF_valid.
Qed.

Theorem mul_mono (x y x' y' : float) :
  finite x = true -> finite y = true -> finite x' = true -> finite y' = true ->
  (mag x * mag y < mag x' * mag y')%Q ->
  finite (x * y) = true -> finite (x' * y') = true ->
  (mag (x * y) <= mag (x' * y'))%Q.
Proof.
  intros Fx Fy Fx' Fy' H. unfold finite, mag in *. rewrite !FloatAxioms.mul_spec.
  apply (SFmul_mono prec emax Hprec64 Hemax64); auto using Prim2SF_valid.
Qed.

Theorem div_mono (x y x' y' : float) :
  finite x = true -> nonzero y = true -> finite x' = true -> nonzero y' = true ->
  (mag x / mag y < mag x' / mag y')%Q ->
  finite (x / y) = true -> finite (x' / y') = true ->
  (mag (x / y) <= mag (x' / y'))%Q.
Proof.
  intros Fx Fy Fx' Fy' H. unfold finite, nonzero, mag in *. rewrite !FloatAxioms.div_spec.
  apply (SFdiv_mono prec emax Hprec64 Hemax64); auto.
Qed.

Theorem div_near_up (x y : float) (B : Q) :
  finite x = true -> nonzero y = true -> repr64 B ->
  (B <= mag x / mag y)%Q ->
  finite (x / y) = true ->
  (mag (x / y) <= 2 * (mag x / mag y) - B)%Q.
Proof.
  intros Fx Fy [K [eK [HK [HeK HB]]]] H. unfold finite, nonzero, mag in *.
  rewrite FloatAxioms.div_spec. rewrite HB in *.
  apply (SFdiv_near_up prec emax Hprec64); auto.
  change (SpecFloat.emin prec emax) with (-1074). lia.
Qed.

(** ** Order is kept along the synthesizer's arithmetic *)

Lemma mul_mono_weak (x x' y : float) :
  finite x = true -> finite x' = true -> finite y = true ->
  neg x = neg x' -> (mag x <= mag x')%Q -> (0 < mag y)%Q ->
  finite (x * y) = true -> finite (x' * y) = true ->
  (mag (x * y) <= mag (x' * y))%Q.
Proof.
  intros Fx Fx' Fy Hn Hm Hy Fp Fp'.
  destruct (Qlt_le_dec (mag x) (mag x')) as [Hlt | Hge].
  - apply mul_mono; auto. nra.
  - assert (E : x = x') by (apply float_unique; auto; lra).
    subst x'. lra.
Qed.

Lemma div_mono_weak (x x' y : float) :
  finite x = true -> finite x' = true -> nonzero y = true ->
  neg x = neg x' -> (mag x <= mag x')%Q ->
  finite (x / y) = true -> finite (x' / y) = true ->
  (mag (x / y) <= mag (x' / y))%Q.
Proof.
  intros Fx Fx' Fy Hn Hm Fp Fp'.
  pose proof (mag_pos_nonzero y Fy) as Hy.
  destruct (Qlt_le_dec (mag x) (mag x')) as [Hlt | Hge].
  - apply div_mono; auto.
    unfold Qdiv. apply Qmult_lt_compat_r; [apply Qinv_lt_0_compat; exact Hy | exact Hlt].
  - assert (E : x = x') by (apply float_unique; auto; lra).
    subst x'. lra.
Qed.

Lemma ofZ_le (a b : Z) :
  0 <= a <= b -> b < 2 ^ 53 -> (mag (ofZ a) <= mag (ofZ b))%Q.
Proof.
  intros Hab Hb.
  destruct (ofZ_exact a ltac:(lia)) as [_ [Ma _]].
  destruct (ofZ_exact b ltac:(lia)) as [_ [Mb _]].
  rewrite Ma, Mb, <- Zle_Qle. lia.
Qed.

Lemma Math_floor_le (x y : float) (n m : Z) :
  finite x = true -> finite y = true -> neg x = false -> neg y = false ->
  (mag x <= mag y)%Q -> Math_floor x = Some n -> Math_floor y = Some m -> n <= m.
Proof.
  intros Fx Fy Nx Ny H En Em.
  destruct (Math_floor_val x Fx) as [n' [En' [Hn _]]].
  destruct (Math_floor_val y Fy) as [m' [Em' [_ Hm]]].
  rewrite En in En'. rewrite Em in Em'. injection En' as <-. injection Em' as <-.
  rewrite val_nonneg in Hn by exact Nx. rewrite val_nonneg in Hm by exact Ny.
  assert (Hq : (inject_Z n < inject_Z (m + 1))%Q).
  { rewrite inject_Z_plus. change (inject_Z 1) with 1%Q. lra. }
  rewrite <- Zlt_Qlt in Hq. lia.
Qed.

(** The duration in seconds grows with the word count. *)
Lemma durationSeconds_le (text text' : JSString) :
  wordCount text <= wordCount text' < 2 ^ 53 ->
  (mag (durationSeconds text) <= mag (durationSeconds text'))%Q.
Proof.
  intros Hw.
  assert (H0 : 0 <= wordCount text) by (unfold wordCount; lia).
  unfold durationSeconds, wordsPerMinute.
  set (a := ofZ (wordCount text)). set (a' := ofZ (wordCount text')).
  destruct (ofZ_exact (wordCount text) ltac:(lia)) as [Fa [Ma Na]].
  destruct (ofZ_exact (wordCount text') ltac:(lia)) as [Fa' [Ma' Na']].
  fold a in Fa, Ma, Na. fold a' in Fa', Ma', Na'.
  assert (Haa : (mag a <= mag a')%Q) by (apply ofZ_le; lia).
  assert (N150 : nonzero 150%float = true) by reflexivity.
  assert (F150 : finite 150%float = true) by reflexivity.
  assert (M150 : (1 <= mag 150%float)%Q) by by_computation.
  assert (W60 : within 60%float 6) by by_computation.
  assert (Wb : within (a / 150)%float 63)
    by (apply within_div; [apply ofZ_within | exact F150 | exact M150 | lia]).
  assert (Wb' : within (a' / 150)%float 63)
    by (apply within_div; [apply ofZ_within | exact F150 | exact M150 | lia]).
  assert (Nb : neg (a / 150)%float = false) by (rewrite div_neg, Na by auto; reflexivity).
  assert (Nb' : neg (a' / 150)%float = false) by (rewrite div_neg, Na' by auto; reflexivity).
  assert (Hbb : (mag (a / 150)%float <= mag (a' / 150)%float)%Q).
  { apply div_mono_weak; auto; try (apply Wb); try (apply Wb'). congruence. }
  assert (Wc : within (a / 150 * 60)%float (63 + 6)) by (apply within_mul; auto; lia).
  assert (Wc' : within (a' / 150 * 60)%float (63 + 6)) by (apply within_mul; auto; lia).
  assert (Nc : neg (a / 150 * 60)%float = false)
    by (rewrite mul_neg, Nb by (apply Wb || apply W60); reflexivity).
  assert (Nc' : neg (a' / 150 * 60)%float = false)
    by (rewrite mul_neg, Nb' by (apply Wb' || apply W60); reflexivity).
  assert (Hcc : (mag (a / 150 * 60)%float <= mag (a' / 150 * 60)%float)%Q).
  { apply mul_mono_weak; try (apply Wb); try (apply Wb'); try (apply W60);
      try (apply Wc); try (apply Wc'); auto; [congruence | by_computation]. }
  set (c := (a / 150 * 60)%float) in *. set (c' := (a' / 150 * 60)%float) in *.
  assert (F2 : finite 2%float = true) by reflexivity.
  destruct (Math_max_finite 2%float c F2 (proj1 Wc)) as [Hd [Hd2 Hdc]].
  destruct (Math_max_finite 2%float c' F2 (proj1 Wc')) as [Hd' [Hd2' Hdc']].
  assert (V2 : (val 2%float == 2)%Q) by reflexivity.
  assert (M2 : (mag 2%float == 2)%Q) by reflexivity.
  assert (N2 : neg 2%float = false) by reflexivity.
  assert (Nd : neg (Math_max 2%float c) = false) by (destruct Hd as [-> | ->]; assumption).
  assert (Nd' : neg (Math_max 2%float c') = false) by (destruct Hd' as [-> | ->]; assumption).
  rewrite (val_nonneg c Nc) in Hdc. rewrite (val_nonneg c' Nc') in Hdc'.
  rewrite (val_nonneg _ Nd') in Hd2', Hdc'.
  destruct Hd as [-> | ->]; lra.
Qed.

(** Frames come in the order of the words: the index of the current word
    does not decrease from one frame to a later one. *)
Lemma wordIndex_le (text : JSString) (rate : Z) (i j : nat) (ki kj : Z) :
  0 < rate < 2 ^ 53 ->
  Z.of_nat (length text) < 2 ^ 53 - 1 ->
  (i <= j)%nat -> Z.of_nat j < 2 ^ 53 ->
  wordIndex text rate i = Some ki -> wordIndex text rate j = Some kj ->
  ki <= kj.
Proof.
  intros Hrate Hlen Hij Hj Ei Ej.
  pose proof (words_length text) as HL.
  destruct (ofZ_exact rate ltac:(lia)) as [Fr [Mr Nr]].
  destruct (ofZ_exact (Z.of_nat i) ltac:(lia)) as [Fi [Mi Ni]].
  destruct (ofZ_exact (Z.of_nat j) ltac:(lia)) as [Fj [Mj Nj]].
  destruct (ofZ_exact (Z.of_nat (length (words text))) ltac:(lia)) as [FL [ML NL]].
  destruct (durationSeconds_spec text) as [[Fd _] [Nd Md]].
  assert (Hr1 : (1 <= mag (ofZ rate))%Q)
    by (rewrite Mr; change 1%Q with (inject_Z 1); rewrite <- Zle_Qle; lia).
  assert (NZr : nonzero (ofZ rate) = true) by (apply nonzero_mag; [exact Fr | lra]).
  assert (NZd : nonzero (durationSeconds text) = true) by (apply nonzero_mag; [exact Fd | lra]).
  assert (WL : within (ofZ (Z.of_nat (length (words text)))) 53).
  { split; [exact FL |]. rewrite ML.
    assert (E53 : (dy 1 53 == inject_Z (2 ^ 53))%Q) by reflexivity.
    rewrite E53, <- Zle_Qle. lia. }
  assert (HL0 : (0 < mag (ofZ (Z.of_nat (length (words text)))))%Q).
  { rewrite ML. change 0%Q with (inject_Z 0). rewrite <- Zlt_Qlt. lia. }
  pose proof (sample_t_within rate i Hrate) as Wti.
  pose proof (sample_t_within rate j Hrate) as Wtj.
  pose proof (sample_progress_within text rate i Hrate) as Wpi.
  pose proof (sample_progress_within text rate j Hrate) as Wpj.
  unfold wordIndex in Ei, Ej. unfold sample_progress in *. unfold sample_t in *.
  set (ti := (ofZ (Z.of_nat i) / ofZ rate)%float) in *.
  set (tj := (ofZ (Z.of_nat j) / ofZ rate)%float) in *.
  assert (Nti : neg ti = false) by (unfold ti; rewrite div_neg, Ni, Nr by auto; reflexivity).
  assert (Ntj : neg tj = false) by (unfold tj; rewrite div_neg, Nj, Nr by auto; reflexivity).
  assert (Ht : (mag ti <= mag tj)%Q).
  { apply div_mono_weak; auto; try (apply Wti); try (apply Wtj); [congruence |].
    rewrite Mi, Mj, <- Zle_Qle. lia. }
  set (p_i := (ti / durationSeconds text)%float) in *.
  set (p_j := (tj / durationSeconds text)%float) in *.
  assert (Npi : neg p_i = false)
    by (unfold p_i; rewrite div_neg, Nti, Nd by (auto; apply Wti); reflexivity).
  assert (Npj : neg p_j = false)
    by (unfold p_j; rewrite div_neg, Ntj, Nd by (auto; apply Wtj); reflexivity).
  assert (Hp : (mag p_i <= mag p_j)%Q).
  { apply div_mono_weak; auto; try (apply Wti); try (apply Wtj);
      try (apply Wpi); try (apply Wpj). congruence. }
  assert (Wxi : within (p_i * ofZ (Z.of_nat (length (words text))))%float (63 + 53))
    by (apply within_mul; auto; lia).
  assert (Wxj : within (p_j * ofZ (Z.of_nat (length (words text))))%float (63 + 53))
    by (apply within_mul; auto; lia).
  eapply Math_floor_le; [apply Wxi | apply Wxj | | | | exact Ei | exact Ej].
  - rewrite mul_neg, Npi, NL by (apply Wpi || exact FL). reflexivity.
  - rewrite mul_neg, Npj, NL by (apply Wpj || exact FL). reflexivity.
  - apply mul_mono_weak; auto; try (apply Wpi); try (apply Wpj);
      try (apply Wxi); try (apply Wxj). congruence.
Qed.

(** The first frame belongs to the first word. *)
Lemma wordIndex_first (text : JSString) (rate : Z) :
  0 < rate < 2 ^ 53 ->
  Z.of_nat (length text) < 2 ^ 53 - 1 ->
  wordIndex text rate 0 = Some 0.
Proof.
  intros Hrate Hlen.
  pose proof (words_length text) as HL.
  destruct (ofZ_exact rate ltac:(lia)) as [Fr [Mr Nr]].
  destruct (ofZ_exact (Z.of_nat (length (words text))) ltac:(lia)) as [FL [ML NL]].
  destruct (durationSeconds_spec text) as [[Fd _] [Nd Md]].
  assert (Hr1 : (1 <= mag (ofZ rate))%Q)
    by (rewrite Mr; change 1%Q with (inject_Z 1); rewrite <- Zle_Qle; lia).
  assert (NZr : nonzero (ofZ rate) = true) by (apply nonzero_mag; [exact Fr | lra]).
  assert (NZd : nonzero (durationSeconds text) = true) by (apply nonzero_mag; [exact Fd | lra]).
  assert (R0 : repr64 0) by (exists 0, 0; split; [lia | split; [lia | reflexivity]]).
  unfold wordIndex, sample_progress, sample_t.
  change (ofZ (Z.of_nat 0)) with 0%float.
  assert (F0 : finite 0%float = true) by reflexivity.
  assert (M0 : (mag 0%float == 0)%Q) by reflexivity.
  destruct (div_upper 0%float (ofZ rate) 0 F0 NZr R0) as [Ft Mt]; [rewrite M0; lra |].
  destruct (div_upper (0 / ofZ rate)%float (durationSeconds text) 0 Ft NZd R0) as [Fp Mp];
    [pose proof (mag_nonneg (0 / ofZ rate)%float); lra |].
  destruct (mul_upper (0 / ofZ rate / durationSeconds text)%float
              (ofZ (Z.of_nat (length (words text)))) 0 Fp FL R0) as [Fx Mx].
  { pose proof (mag_nonneg (0 / ofZ rate / durationSeconds text)%float).
    assert (E : (mag (0 / ofZ rate / durationSeconds text)%float == 0)%Q) by lra.
    rewrite E. lra. }
  destruct (Math_floor_val _ Fx) as [n [En Hn]]. rewrite En. f_equal.
  assert (Nx : neg (0 / ofZ rate / durationSeconds text
                    * ofZ (Z.of_nat (length (words text))))%float = false).
  { rewrite mul_neg, div_neg, div_neg, Nr, Nd, NL by auto. reflexivity. }
  rewrite (val_nonneg _ Nx) in Hn.
  pose proof (mag_nonneg (0 / ofZ rate / durationSeconds text
                          * ofZ (Z.of_nat (length (words text))))%float) as Hx.
  assert (H1 : (inject_Z n < inject_Z 1)%Q) by (change (inject_Z 1) with 1%Q; lra).
  assert (H2 : (inject_Z (-1) < inject_Z n)%Q) by (change (inject_Z (-1)) with (-1)%Q; lra).
  rewrite <- Zlt_Qlt in H1, H2. lia.
Qed.

(** X14: more words never give a shorter recording: the frame count of the
    synthetic audio does not decrease when the word count of the text
    grows. *)
Theorem sampleCount_monotone (text text' : JSString) (rate : Z) :
  0 < rate < 2 ^ 53 ->
  wordCount text <= wordCount text' < 2 ^ 53 ->
  (sampleCount text rate <= sampleCount text' rate)%nat.
Proof.
  intros Hrate Hw.
  pose proof (sampleCount_samples text rate ltac:(lia)) as E.
  pose proof (sampleCount_samples text' rate ltac:(lia)) as E'.
  unfold samples in E, E'.
  destruct (durationSeconds_spec text) as [Wd [Nd _]].
  destruct (durationSeconds_spec text') as [Wd' [Nd' _]].
  destruct (ofZ_exact rate ltac:(lia)) as [Fr [Mr Nr]].
  assert (Wr : within (ofZ rate) 53).
  { split; [exact Fr |]. rewrite Mr.
    assert (E53 : (dy 1 53 == inject_Z (2 ^ 53))%Q) by reflexivity.
    rewrite E53, <- Zle_Qle. lia. }
  assert (Hr0 : (0 < mag (ofZ rate))%Q).
  { rewrite Mr. change 0%Q with (inject_Z 0). rewrite <- Zlt_Qlt. lia. }
  destruct (within_mul _ _ 69 53 Wd Wr ltac:(lia)) as [F _].
  destruct (within_mul _ _ 69 53 Wd' Wr ltac:(lia)) as [F' _].
  enough (Z.of_nat (sampleCount text rate) <= Z.of_nat (sampleCount text' rate)) by lia.
  eapply Math_floor_le; [exact F | exact F' | | | | exact E | exact E'].
  - rewrite mul_neg, Nd, Nr by (apply Wd || exact Fr). reflexivity.
  - rewrite mul_neg, Nd', Nr by (apply Wd' || exact Fr). reflexivity.
  - apply mul_mono_weak; auto; try (apply Wd); try (apply Wd'); [congruence |].
    now apply durationSeconds_le.
Qed.

Lemma sampleCount_monotone_witness :
  (sampleCount (str "Hello") 8000 <= sampleCount (str "Hello big world") 8000)%nat.
Proof.
  apply (sampleCount_monotone (str "Hello") (str "Hello big world") 8000).
  - lia.
  - vm_compute. split; [discriminate | reflexivity].
Defined.

(** X15: the words are played in their order: the first frame belongs to
    word 0, and the index of the current word never decreases from a
    frame to a later one, staying below the number of words. *)
Theorem words_played_in_order (text : JSString) (rate : Z) (i j : nat) :
  0 < rate < 2 ^ 53 ->
  Z.of_nat (length text) < 2 ^ 53 - 1 ->
  Z.of_nat (sampleCount text rate) <= 2 ^ 32 ->
  (i <= j)%nat -> (j < sampleCount text rate)%nat ->
  wordIndex text rate 0 = Some 0
  /\ exists ki kj,
       wordIndex text rate i = Some ki /\ wordIndex text rate j = Some kj
       /\ 0 <= ki <= kj /\ kj < Z.of_nat (length (words text)).
Proof.
  intros Hrate Hlen Hcount Hij Hj.
  pose proof (wordIndex_first text rate Hrate Hlen) as H0.
  split; [exact H0 |].
  destruct (wordIndex_in_bounds text rate i Hrate Hlen Hcount ltac:(lia)) as [ki [Ei [Hki _]]].
  destruct (wordIndex_in_bounds text rate j Hrate Hlen Hcount Hj) as [kj [Ej [Hkj _]]].
  exists (Z.of_nat ki), (Z.of_nat kj). repeat split; auto; try lia.
  apply (wordIndex_le text rate i j); auto. lia.
Qed.

Lemma words_played_in_order_witness :
  wordIndex (str "Hello world") 8000 0 = Some 0
  /\ exists ki kj,
       wordIndex (str "Hello world") 8000 (Z.to_nat 7999) = Some ki
       /\ wordIndex (str "Hello world") 8000 (Z.to_nat 8000) = Some kj
       /\ 0 <= ki <= kj /\ kj < Z.of_nat (length (words (str "Hello world"))).
Proof.
  apply (words_played_in_order (str "Hello world") 8000 (Z.to_nat 7999) (Z.to_nat 8000)).
  - lia.
  - vm_compute. reflexivity.
  - vm_compute. discriminate.
  - lia.
  - apply Nat2Z.inj_lt. rewrite Z2Nat.id by lia.
    replace (Z.of_nat (sampleCount (str "Hello world") 8000)) with 16000
      by (vm_compute; reflexivity).
    lia.
Defined.

(** ** The quantisation step *)

(** The 16-bit value of a sample in range is less than one unit away from
    32767 times the sample. *)
Lemma pcm16_near (x : float) :
  finite x = true -> (mag x <= 1)%Q ->
  (inject_Z (pcm16 x) - 1 < 32767 * val x < inject_Z (pcm16 x) + 1)%Q.
Proof.
  intros Fx Mx. unfold pcm16.
  destruct (clampSample_in_range x Fx Mx) as [-> _].
  assert (F : finite 32767%float = true) by reflexivity.
  assert (M : (mag 32767%float == 32767)%Q) by reflexivity.
  assert (N : neg 32767%float = false) by reflexivity.
  pose proof (mag_nonneg x) as H0.
  set (p := (mag x * 32767)%Q).
  set (k := Qfloor p).
  pose proof (Qfloor_le p) as Hk1. pose proof (Qlt_floor p) as Hk2. fold k in Hk1, Hk2.
  rewrite inject_Z_plus in Hk2. change (inject_Z 1) with 1%Q in Hk2.
  assert (Hk0 : 0 <= k).
  { assert (H : (inject_Z (-1) < inject_Z k)%Q)
      by (change (inject_Z (-1)) with (-1)%Q; unfold p in *; nra).
    rewrite <- Zlt_Qlt in H. lia. }
  assert (Hk3 : k <= 32767).
  { assert (H : (inject_Z k <= inject_Z 32767)%Q)
      by (change (inject_Z 32767) with 32767%Q; unfold p in *; nra).
    rewrite <- Zle_Qle in H. exact H. }
  destruct (mul_upper x 32767%float (inject_Z (k + 1)) Fx F) as [Fy Hup].
  { apply repr64_Z. change (2 ^ 53) with 9007199254740992. lia. }
  { rewrite M, inject_Z_plus. change (inject_Z 1) with 1%Q. fold p. lra. }
  rewrite inject_Z_plus in Hup. change (inject_Z 1) with 1%Q in Hup.
  assert (Hlo : (inject_Z k <= mag (x * 32767)%float)%Q).
  { apply mul_lower; auto.
    - apply repr64_Z. change (2 ^ 53) with 9007199254740992. lia.
    - rewrite M. fold p. exact Hk1. }
  assert (H32 : (mag (x * 32767)%float <= 32767)%Q).
  { apply mul_upper; auto; [apply (repr64_dy 32767 0); lia | rewrite M; nra]. }
  destruct (ToInt16_small _ Fy H32) as [t [Ht [-> _]]].
  destruct (SFtrunc_val _ _ Ht) as [a [Ha [Et Hat]]].
  fold (neg (x * 32767)%float) in Et. fold (mag (x * 32767)%float) in Hat.
  rewrite mul_neg, N, xorb_false_r in Et by assumption.
  assert (Hak : k <= a <= k + 1).
  { split.
    - assert (H : (inject_Z k < inject_Z (a + 1))%Q)
        by (rewrite inject_Z_plus; change (inject_Z 1) with 1%Q; lra).
      rewrite <- Zlt_Qlt in H. lia.
    - assert (H : (inject_Z a <= inject_Z (k + 1))%Q)
        by (rewrite inject_Z_plus; change (inject_Z 1) with 1%Q; lra).
      rewrite <- Zle_Qle in H. exact H. }
  assert (Hnear : (inject_Z a - 1 < p < inject_Z a + 1)%Q).
  { destruct (Z.eq_dec a k) as [-> | Hne]; [lra |].
    assert (Ea : a = k + 1) by lia. subst a.
    rewrite inject_Z_plus in *. change (inject_Z 1) with 1%Q in *.
    split; [| lra].
    destruct (Qlt_le_dec (inject_Z k) p) as [Hlt | Hge]; [lra |].
    exfalso.
    assert (Hex : (mag (x * 32767)%float <= inject_Z k)%Q).
    { apply mul_upper; auto.
      - apply repr64_Z. change (2 ^ 53) with 9007199254740992. lia.
      - rewrite M. fold p. exact Hge. }
    lra. }
  unfold p in Hnear. rewrite val_mag, Et.
  destruct (neg x); [rewrite inject_Z_opp |]; lra.
Qed.

(** A finite number of magnitude zero is a zero. *)
Lemma mag_zero_inv (x : float) :
  finite x = true -> (mag x <= 0)%Q -> exists s, Prim2SF x = S754_zero s.
Proof.
  unfold finite, mag. destruct (Prim2SF x) as [s|s| |s m e]; try discriminate.
  - intros _ _. now exists s.
  - intros _ H. cbn [SFmag] in H.
    assert (Hp : (0 < dy (Zpos m) e)%Q) by (apply dy_pos; lia). lra.
Qed.

Lemma repr64_zero : repr64 0.
Proof. exists 0, 0. split; [lia | split; [lia | reflexivity]]. Qed.

Lemma mul_zero_r (x y : float) :
  finite x = true -> finite y = true -> (mag y <= 0)%Q ->
  finite (x * y) = true /\ (mag (x * y) <= 0)%Q.
Proof.
  intros Fx Fy My. apply mul_upper; auto using repr64_zero.
  pose proof (mag_nonneg y). assert (E : (mag y == 0)%Q) by lra. rewrite E. lra.
Qed.

Lemma mul_zero_l (x y : float) :
  finite x = true -> finite y = true -> (mag x <= 0)%Q ->
  finite (x * y) = true /\ (mag (x * y) <= 0)%Q.
Proof.
  intros Fx Fy Mx. apply mul_upper; auto using repr64_zero.
  pose proof (mag_nonneg x). assert (E : (mag x == 0)%Q) by lra. rewrite E. lra.
Qed.

(** At frame 0 the progress through the utterance is +0. *)
Lemma sample_progress_first (text : JSString) (rate : Z) :
  0 < rate < 2 ^ 53 -> sample_progress text rate 0 = 0%float.
Proof.
  intros Hrate.
  destruct (ofZ_exact rate ltac:(lia)) as [Fr [Mr Nr]].
  destruct (durationSeconds_spec text) as [[Fd _] [Nd Md]].
  assert (Hr1 : (1 <= mag (ofZ rate))%Q)
    by (rewrite Mr; change 1%Q with (inject_Z 1); rewrite <- Zle_Qle; lia).
  assert (NZr : nonzero (ofZ rate) = true) by (apply nonzero_mag; [exact Fr | lra]).
  assert (NZd : nonzero (durationSeconds text) = true) by (apply nonzero_mag; [exact Fd | lra]).
  unfold sample_progress, sample_t. change (ofZ (Z.of_nat 0)) with 0%float.
  assert (F0 : finite 0%float = true) by reflexivity.
  assert (M0 : (mag 0%float == 0)%Q) by reflexivity.
  assert (N0 : neg 0%float = false) by reflexivity.
  destruct (div_upper 0%float (ofZ rate) 0 F0 NZr repr64_zero) as [Ft Mt]; [rewrite M0; lra |].
  destruct (div_upper (0 / ofZ rate)%float (durationSeconds text) 0 Ft NZd repr64_zero)
    as [Fp Mp]; [pose proof (mag_nonneg (0 / ofZ rate)%float); lra |].
  apply float_unique; auto.
  - rewrite div_neg, div_neg, Nr, Nd by auto. reflexivity.
  - pose proof (mag_nonneg (0 / ofZ rate / durationSeconds text)%float). lra.
Qed.

Section FirstFrame.

Variable Math_sin : float -> float.

Hypothesis Math_sin_range :
  forall x, finite x = true -> finite (Math_sin x) = true /\ (mag (Math_sin x) <= 1)%Q.

Hypothesis Math_sin_zero : Math_sin 0%float = 0%float.

Variables (text voiceName : JSString) (rate : Z).

Hypothesis Hrate : 0 < rate < 2 ^ 53.

Lemma envelope_first : envelope Math_sin text rate 0 = 0%float.
Proof.
  unfold envelope. rewrite sample_progress_first by exact Hrate.
  change (Math_PI * 0)%float with 0%float. rewrite Math_sin_zero. reflexivity.
Qed.

Lemma sample_first :
  exists s, Prim2SF (sample Math_sin text voiceName rate 0) = S754_zero s.
Proof.
  unfold sample. rewrite envelope_first.
  assert (F0 : finite 0%float = true) by reflexivity.
  assert (M0 : (mag 0%float <= 0)%Q) by by_computation.
  assert (F2 : finite 0.2%float = true) by reflexivity.
  assert (Fs : finite (fundamental Math_sin text voiceName rate 0
                       + formant1 Math_sin text voiceName rate 0
                       + formant2 Math_sin text voiceName rate 0
                       + modulation Math_sin text rate 0)%float = true).
  { apply (atMost_add _ _ (mag 1.5000000000000005%float) (mag 0.3%float) 1.800000000000001%float);
      [| apply modulation_bounded; assumption | by_computation].
    apply (atMost_add _ _ (mag 1.3000000000000003%float) (mag 0.2%float));
      [| apply formant2_bounded; assumption | by_computation].
    apply (atMost_add _ _ 1 (mag 0.3%float));
      [apply fundamental_bounded; assumption | apply formant1_bounded; assumption
       | by_computation]. }
  destruct (mul_zero_r _ 0%float Fs F0 M0) as [F1 M1].
  destruct (mul_zero_l _ 0.2%float F1 F2 M1) as [F3 M3].
  now apply mag_zero_inv.
Qed.

End FirstFrame.

(** X16: the value written for a sample in range is less than one step away
    from 32767 times the sample: read back and divided by 32767, it gives
    the sample to within 1/32767. *)
Theorem quantisation_error_below_one_step (buffer : AudioBuffer) (i c : nat) :
  (i < buffer_length buffer)%nat -> (c < numberOfChannels buffer)%nat ->
  let x := getSample (getChannelData buffer c) i in
  finite x = true -> (mag x <= 1)%Q ->
  exists bytes,
    audioBufferToWav buffer = Ok bytes
    /\ let written := readInt16 bytes (44 + (i * numberOfChannels buffer + c) * 2) in
       (inject_Z written - 1 < 32767 * val x < inject_Z written + 1)%Q.
Proof.
  intros Hi Hc x Fx Mx. destruct (encoded_slot buffer i c Hi Hc) as [bytes [E R]].
  exists bytes. split; [exact E |]. cbv zeta. rewrite R. fold x.
  now apply pcm16_near.
Qed.

Lemma quantisation_error_below_one_step_witness :
  exists bytes,
    audioBufferToWav thirdBuffer = Ok bytes
    /\ let written := readInt16 bytes (44 + (0 * numberOfChannels thirdBuffer + 0) * 2) in
       (inject_Z written - 1
        < 32767 * val (getSample (getChannelData thirdBuffer 0) 0)
        < inject_Z written + 1)%Q.
Proof.
  apply (quantisation_error_below_one_step thirdBuffer 0 0).
  - vm_compute. lia.
  - vm_compute. lia.
  - vm_compute. reflexivity.
  - vm_compute. discriminate.
Defined.

(** X17: every recording starts in silence: when [Math.sin] stays within
    [-1, 1] on finite arguments and maps 0 to 0, the first sample of the
    resolved audio is written as 0, whatever the text, the voice and the
    sample rate. *)
Theorem recording_starts_in_silence
  (Math_sin : float -> float) (window : Window) (text voiceName : JSString) (rate : Z) :
  (forall x, finite x = true ->
             finite (Math_sin x) = true /\ (mag (Math_sin x) <= 1)%Q) ->
  Math_sin 0%float = 0%float ->
  audioContext_sampleRate window = Some rate ->
  0 < rate < 2 ^ 53 ->
  exists blob,
    createSyntheticAudio Math_sin window text voiceName = Resolved blob
    /\ (44 + 2 <= length (blob_parts blob))%nat
    /\ readInt16 (blob_parts blob) 44 = 0.
Proof.
  intros Hsin Hzero Ha Hrate.
  pose proof (sampleCount_at_least text rate Hrate) as Hn.
  assert (H0 : (0 < sampleCount text rate)%nat) by lia.
  set (buffer := synthesizeBuffer Math_sin text voiceName rate).
  assert (Hi : (0 < buffer_length buffer)%nat)
    by (unfold buffer; rewrite synthesizeBuffer_length; exact H0).
  assert (Hc : (0 < numberOfChannels buffer)%nat)
    by (unfold buffer; rewrite synthesizeBuffer_numberOfChannels; lia).
  destruct (encoded_slot buffer 0 0 Hi Hc) as [bytes [E R]].
  unfold createSyntheticAudio. rewrite Ha. fold buffer. rewrite E.
  eexists. split; [reflexivity |]. cbn [blob_parts].
  split.
  - rewrite audioBufferToWav_bytes in E.
    match type of E with Ok ?b = _ => assert (Eb : bytes = b) by congruence end.
    rewrite Eb, length_app, wavHeader_length, payloadBytes_length.
    unfold buffer. rewrite synthesizeBuffer_length, synthesizeBuffer_numberOfChannels. lia.
  - replace (44 + (0 * numberOfChannels buffer + 0) * 2)%nat with 44%nat in R by lia.
    rewrite R. unfold buffer. rewrite synthesizeBuffer_sample by exact H0.
    destruct (sample_first Math_sin Hsin Hzero text voiceName rate Hrate) as [s Hs].
    assert (Ef : Math_fround (sample Math_sin text voiceName rate 0)
                 = sample Math_sin text voiceName rate 0)
      by (unfold Math_fround; now rewrite Hs).
    rewrite Ef.
    set (x := sample Math_sin text voiceName rate 0) in *.
    assert (Fx : finite x = true) by (unfold finite; now rewrite Hs).
    assert (Mx : (mag x == 0)%Q) by (unfold mag; rewrite Hs; reflexivity).
    assert (Vx : (val x == 0)%Q) by (rewrite val_mag; destruct (neg x); lra).
    destruct (pcm16_near x Fx ltac:(lra)) as [H1 H2]. rewrite Vx in H1, H2.
    assert (H3 : (inject_Z (pcm16 x) < inject_Z 1)%Q) by (change (inject_Z 1) with 1%Q; lra).
    assert (H4 : (inject_Z (-1) < inject_Z (pcm16 x))%Q)
      by (change (inject_Z (-1)) with (-1)%Q; lra).
    rewrite <- Zlt_Qlt in H3, H4. lia.
Qed.

Lemma sinSign_range (x : float) :
  finite x = true -> finite (sinSign x) = true /\ (mag (sinSign x) <= 1)%Q.
Proof.
  intros _. unfold sinSign.
  destruct (x <? 0)%float; [split; by_computation |].
  destruct (0 <? x)%float; split; by_computation.
Qed.

Lemma recording_starts_in_silence_witness :
  exists blob,
    createSyntheticAudio sinSign speakingPage (str "Hello world") (str "Alex Male")
    = Resolved blob
    /\ (44 + 2 <= length (blob_parts blob))%nat
    /\ readInt16 (blob_parts blob) 44 = 0.
Proof.
  apply (recording_starts_in_silence sinSign speakingPage (str "Hello world")
           (str "Alex Male") 8000).
  - exact sinSign_range.
  - reflexivity.
  - reflexivity.
  - lia.
Defined.

(** ** Decimal digits *)

Lemma digitsLoop_S (f : nat) (z : Z) :
  digitsLoop (S f) z
  = if z <? 10 then [digit z] else digitsLoop f (z / 10) ++ [digit (z mod 10)].
Proof. reflexivity. Qed.

Lemma digitsLoop_enough (f1 f2 : nat) (z : Z) :
  0 <= z -> z < 10 ^ Z.of_nat (S f1) -> z < 10 ^ Z.of_nat (S f2) ->
  digitsLoop (S f1) z = digitsLoop (S f2) z.
Proof.
  revert f2 z. induction f1 as [|f1 IH]; intros f2 z H0 H1 H2.
  - change (10 ^ Z.of_nat 1) with 10 in H1. rewrite !digitsLoop_S.
    destruct (Z.ltb_spec z 10); [reflexivity | lia].
  - rewrite (digitsLoop_S (S f1)), (digitsLoop_S f2).
    destruct (Z.ltb_spec z 10) as [Hlt | Hge]; [reflexivity |].
    destruct f2 as [|f2]; [change (10 ^ Z.of_nat 1) with 10 in H2; lia |].
    rewrite (IH f2 (z / 10)); [reflexivity | | |].
    + apply Z.div_pos; lia.
    + apply Z.div_lt_upper_bound; [lia |].
      rewrite <- Z.pow_succ_r by lia. now rewrite <- Nat2Z.inj_succ.
    + apply Z.div_lt_upper_bound; [lia |].
      rewrite <- Z.pow_succ_r by lia. now rewrite <- Nat2Z.inj_succ.
Qed.

Lemma below_pow10_log2 (z : Z) : 0 <= z -> z < 10 ^ Z.of_nat (S (Z.to_nat (Z.log2 z))).
Proof.
  intros H0. rewrite Nat2Z.inj_succ, Z2Nat.id by apply Z.log2_nonneg.
  destruct (Z.eq_dec z 0) as [-> | Hz]; [reflexivity |].
  pose proof (Z.log2_spec z ltac:(lia)) as [_ Hu].
  eapply Z.lt_le_trans; [exact Hu |].
  apply Z.pow_le_mono_l. lia.
Qed.

Lemma decimal_unfold (z : Z) :
  0 <= z ->
  decimal z = if z <? 10 then [digit z] else decimal (z / 10) ++ [digit (z mod 10)].
Proof.
  intros H0. unfold decimal at 1. rewrite digitsLoop_S.
  destruct (Z.ltb_spec z 10) as [Hlt | Hge]; [reflexivity |].
  f_equal.
  assert (HL : 3 <= Z.log2 z) by (apply Z.log2_le_pow2; lia).
  destruct (Z.to_nat (Z.log2 z)) as [|f] eqn:Ef; [lia |].
  unfold decimal. apply digitsLoop_enough.
  - apply Z.div_pos; lia.
  - rewrite <- Ef, Z2Nat.id by lia.
    pose proof (Z.log2_spec z ltac:(lia)) as [_ Hu].
    apply Z.div_lt_upper_bound; [lia |].
    assert (H2 : 2 ^ Z.succ (Z.log2 z) = 2 * 2 ^ Z.log2 z) by (apply Z.pow_succ_r; lia).
    assert (H3 : 2 ^ Z.log2 z <= 10 ^ Z.log2 z) by (apply Z.pow_le_mono_l; lia).
    lia.
  - apply below_pow10_log2. apply Z.div_pos; lia.
Qed.

Lemma decimal_digit (z : Z) : 0 <= z < 10 -> decimal z = [digit z].
Proof.
  intros H. rewrite decimal_unfold by lia. destruct (Z.ltb_spec z 10); [reflexivity | lia].
Qed.

Lemma decimal_times_ten (s : Z) : 0 < s -> decimal (s * 10) = decimal s ++ [digit 0].
Proof.
  intros Hs. rewrite decimal_unfold by lia.
  destruct (Z.ltb_spec (s * 10) 10); [lia |].
  now rewrite Z.div_mul, Z.mod_mul by lia.
Qed.

Lemma decimal_trailing_zeros (s : Z) (j : nat) :
  0 < s -> decimal (s * 10 ^ Z.of_nat j) = decimal s ++ repeat "0"%char j.
Proof.
  intros Hs. induction j as [|j IH].
  - now rewrite Z.mul_1_r, app_nil_r.
  - rewrite Nat2Z.inj_succ, Z.pow_succ_r by lia.
    replace (s * (10 * 10 ^ Z.of_nat j)) with (s * 10 ^ Z.of_nat j * 10) by lia.
    assert (Hp : 0 < 10 ^ Z.of_nat j) by (apply Z.pow_pos_nonneg; lia).
    rewrite decimal_times_ten by nia. rewrite IH, <- app_assoc.
    f_equal. change [digit 0] with (["0"%char]). now rewrite <- repeat_cons.
Qed.

(** The number of digits places a positive integer between two powers of
    ten. *)
Lemma decimal_length (z : Z) :
  0 < z ->
  10 ^ (Z.of_nat (length (decimal z)) - 1) <= z < 10 ^ Z.of_nat (length (decimal z)).
Proof.
  intros Hz. remember (Z.to_nat z) as b eqn:Eb.
  assert (Hb : (Z.to_nat z <= b)%nat) by lia. clear Eb.
  revert z Hz Hb. induction b as [|b IH]; intros z Hz Hb; [lia |].
  rewrite decimal_unfold by lia.
  destruct (Z.ltb_spec z 10) as [Hlt | Hge].
  - cbn [length]. change (Z.of_nat 1 - 1) with 0. change (10 ^ Z.of_nat 1) with 10.
    change (10 ^ 0) with 1. lia.
  - assert (Hq : 0 < z / 10) by (apply Z.div_str_pos; lia).
    assert (Hqb : (Z.to_nat (z / 10) <= b)%nat).
    { assert (z / 10 < z) by (apply Z.div_lt; lia). lia. }
    specialize (IH (z / 10) Hq Hqb).
    rewrite length_app. cbn [length]. rewrite Nat.add_1_r, Nat2Z.inj_succ.
    set (d := Z.of_nat (length (decimal (z / 10)))) in *.
    assert (Hd : 0 <= d) by (unfold d; lia).
    replace (Z.succ d - 1) with d by lia.
    rewrite Z.pow_succ_r by lia.
    assert (Hd1 : 1 <= d).
    { destruct (Z.eq_dec d 0) as [E0 | ]; [| lia].
      rewrite E0 in IH. change (10 ^ 0) with 1 in IH. lia. }
    assert (E10 : 10 ^ d = 10 * 10 ^ (d - 1)).
    { rewrite <- Z.pow_succ_r by lia. f_equal. lia. }
    pose proof (Z.div_mod z 10 ltac:(lia)) as Hdm.
    pose proof (Z.mod_pos_bound z 10 ltac:(lia)) as Hmb.
    lia.
Qed.

(** ** Integers as numbers *)

(** An integer below 2^53 is a number. *)
Lemma numberOfZ_exact (c : Z) :
  0 < c < 2 ^ 53 ->
  exists m e, numberOfZ c = S754_finite false m e /\ (dy (Zpos m) e == inject_Z c)%Q.
Proof.
  intros Hc. unfold numberOfZ.
  destruct (binary_normalize_exact prec emax Hprec64 c 0 false c 0) as [F M].
  - exact (conj (proj1 (conj (Z.lt_le_incl _ _ (proj1 Hc)) I)) (proj2 Hc)).
  - change (SpecFloat.emin prec emax) with (-1074). change (emax - prec) with 971. lia.
  - now rewrite Z.abs_eq by lia.
  - pose proof (binary_normalize_neg prec emax Hprec64 c 0) as N.
    assert (E0 : (dy c 0 == inject_Z c)%Q) by (unfold dy; simpl; ring).
    assert (Hpos : (0 < inject_Z c)%Q)
      by (change 0%Q with (inject_Z 0); rewrite <- Zlt_Qlt; lia).
    destruct (binary_normalize prec emax c 0 false) as [s|s| |s m e]; try discriminate.
    + cbn [SFmag] in M. lra.
    + cbn [SFneg] in N. cbn [SFmag] in M.
      destruct (Z.ltb_spec c 0); [lia |]. subst s.
      exists m, e. split; [reflexivity | lra].
Qed.

(** An integer from 2^53 on is rounded to 2^53 at least. *)
Lemma numberOfZ_large (c : Z) :
  2 ^ 53 <= c -> SFfinite (numberOfZ c) = true ->
  (inject_Z (2 ^ 53) <= SFmag (numberOfZ c))%Q.
Proof.
  intros Hc F. unfold numberOfZ in *.
  destruct c as [|p|p]; try (exfalso; change (2 ^ 53) with 9007199254740992 in Hc; lia).
  cbn [binary_normalize] in *.
  assert (E : (dy (2 ^ 52) 1 == inject_Z (2 ^ 53))%Q) by reflexivity.
  rewrite <- E.
  apply (binary_round_lower prec emax Hprec64); auto.
  - change prec with 53. split; [| reflexivity]. discriminate.
  - change (SpecFloat.emin prec emax) with (-1074). lia.
  - rewrite E. assert (E0 : (dy (Zpos p) 0 == inject_Z (Zpos p))%Q) by (unfold dy; simpl; ring).
    rewrite E0, <- Zle_Qle. exact Hc.
Qed.

Lemma SFeqb_finite (x : spec_float) (m : positive) (e : Z) :
  SFeqb x (S754_finite false m e) = true -> x = S754_finite false m e.
Proof.
  unfold SFeqb. destruct x as [s|s| |s m' e']; cbn [SFcompare].
  - destruct s; discriminate.
  - destruct s; discriminate.
  - discriminate.
  - destruct s; [discriminate |].
    destruct (Z.compare_spec e' e) as [-> | |]; try discriminate.
    change (Pos.compare_cont Eq m' m) with (Pos.compare m' m).
    destruct (Pos.compare_spec m' m) as [-> | |]; try discriminate. reflexivity.
Qed.

(** Below 2^53 an integer reads back as itself only. *)
Lemma represents_small (z c : Z) :
  0 < z < 2 ^ 53 -> 0 < c -> represents z c = true -> c = z.
Proof.
  intros Hz Hc H. unfold represents in H.
  destruct (numberOfZ_exact z Hz) as [m [e [Ez Mz]]].
  rewrite Ez in H. apply SFeqb_finite in H.
  assert (Mc : (SFmag (numberOfZ c) == inject_Z z)%Q) by (rewrite H; exact Mz).
  assert (Fc : SFfinite (numberOfZ c) = true) by (rewrite H; reflexivity).
  destruct (Z_lt_le_dec c (2 ^ 53)) as [Hlt | Hge].
  - destruct (numberOfZ_exact c (conj Hc Hlt)) as [m' [e' [Ec Mc']]].
    rewrite Ec in Mc. cbn [SFmag] in Mc.
    assert (E1 : (inject_Z c <= inject_Z z)%Q) by lra.
    assert (E2 : (inject_Z z <= inject_Z c)%Q) by lra.
    rewrite <- Zle_Qle in E1, E2. lia.
  - pose proof (numberOfZ_large c Hge Fc) as Hl.
    assert (Hq : (inject_Z (2 ^ 53) <= inject_Z z)%Q) by lra.
    rewrite <- Zle_Qle in Hq. lia.
Qed.

Lemma represents_refl (z : Z) : 0 < z < 2 ^ 53 -> represents z z = true.
Proof.
  intros Hz. unfold represents. destruct (numberOfZ_exact z Hz) as [m [e [-> _]]].
  unfold SFeqb. cbn [SFcompare]. now rewrite Z.compare_refl, Pos.compare_cont_refl.
Qed.

(** ** The shortest digits of an integer below 2^53 *)

Lemma candidate_some (z k n s : Z) :
  candidate z k n = Some s ->
  10 ^ (k - 1) <= s < 10 ^ k /\ represents z (s * 10 ^ (n - k)) = true.
Proof.
  unfold candidate. cbv zeta.
  set (unit := 10 ^ (n - k)). set (lo := z / unit).
  destruct ((10 ^ (k - 1) <=? lo) && (lo <? 10 ^ k) && represents z (lo * unit)) eqn:Elo;
    destruct ((10 ^ (k - 1) <=? lo + 1) && (lo + 1 <? 10 ^ k)
              && represents z ((lo + 1) * unit)) eqn:Ehi;
    try discriminate;
    repeat match goal with
           | H : (_ && _) = true |- _ => apply andb_true_iff in H; destruct H
           | H : (_ <=? _) = true |- _ => apply Z.leb_le in H
           | H : (_ <? _) = true |- _ => apply Z.ltb_lt in H
           end.
  - intros [= <-].
    destruct (z - lo * unit <? (lo + 1) * unit - z);
      [auto | destruct ((lo + 1) * unit - z <? z - lo * unit);
              [auto | destruct (Z.even lo); auto]].
  - intros [= <-]. auto.
  - intros [= <-]. auto.
Qed.

Lemma candidate_exact (z d : Z) :
  0 < z < 2 ^ 53 -> 10 ^ (d - 1) <= z < 10 ^ d ->
  exists s, candidate z d d = Some s.
Proof.
  intros Hz Hd. unfold candidate. cbv zeta.
  rewrite Z.sub_diag. change (10 ^ 0) with 1. rewrite Z.div_1_r, !Z.mul_1_r.
  rewrite (represents_refl z Hz).
  destruct (Z.leb_spec (10 ^ (d - 1)) z); [| lia].
  destruct (Z.ltb_spec z (10 ^ d)); [| lia].
  cbn [andb].
  destruct ((10 ^ (d - 1) <=? z + 1) && (z + 1 <? 10 ^ d) && represents z (z + 1));
    eexists; reflexivity.
Qed.

Lemma shortest_sound (fuel : nat) (z d k0 n k s : Z) :
  shortest fuel z d k0 = Some (n, k, s) ->
  k0 <= k <= n /\ n <= d + 1 /\ candidate z k n = Some s.
Proof.
  revert k0. induction fuel as [|fuel IH]; intros k0; [discriminate |].
  cbn [shortest].
  assert (Hrec : shortest fuel z d (k0 + 1) = Some (n, k, s) ->
                 k0 <= k <= n /\ n <= d + 1 /\ candidate z k n = Some s).
  { intros H. apply IH in H. destruct H as [H1 H2]. split; [lia | exact H2]. }
  destruct (Z.leb_spec k0 d) as [H1 | H1];
    [destruct (candidate z k0 d) as [s1|] eqn:E1 |].
  - intros [= <- <- <-]. split; [lia | split; [lia | exact E1]].
  - destruct (Z.leb_spec k0 (d + 1)); [| lia].
    destruct (candidate z k0 (d + 1)) as [s2|] eqn:E2.
    + intros [= <- <- <-]. split; [lia | split; [lia | exact E2]].
    + exact Hrec.
  - destruct (Z.leb_spec k0 (d + 1)) as [H2 | H2];
      [destruct (candidate z k0 (d + 1)) as [s2|] eqn:E2 |].
    + intros [= <- <- <-]. split; [lia | split; [lia | exact E2]].
    + exact Hrec.
    + exact Hrec.
Qed.

Lemma shortest_found (fuel : nat) (z d k0 : Z) :
  0 < z < 2 ^ 53 -> 10 ^ (d - 1) <= z < 10 ^ d ->
  k0 <= d < k0 + Z.of_nat fuel ->
  exists r, shortest fuel z d k0 = Some r.
Proof.
  intros Hz Hd. revert k0. induction fuel as [|fuel IH]; intros k0 Hk; [lia |].
  cbn [shortest].
  destruct (Z.leb_spec k0 d) as [H1 | H1]; [| lia].
  destruct (candidate z k0 d) as [s1|] eqn:E1; [eexists; reflexivity |].
  destruct (Z.leb_spec k0 (d + 1)); [| lia].
  destruct (candidate z k0 (d + 1)) as [s2|] eqn:E2; [eexists; reflexivity |].
  apply IH.
  destruct (Z.eq_dec k0 d) as [-> | Hne]; [| lia].
  destruct (candidate_exact z d Hz Hd) as [s Hs]. congruence.
Qed.

(** An integer below 2^53 is printed with all its digits. *)
Lemma Number_toString_small (z : Z) :
  0 <= z < 2 ^ 53 -> Number_toString (Whole z) = decimal z.
Proof.
  intros Hz. cbn [Number_toString].
  destruct (Z.eqb_spec z 0) as [-> | Hne]; [reflexivity |].
  destruct (Z.ltb_spec z 0); [lia |]. cbv zeta. rewrite Z.abs_eq by lia.
  cbn [app].
  assert (Hz' : 0 < z < 2 ^ 53) by lia.
  pose proof (decimal_length z ltac:(lia)) as Hd.
  set (d := Z.of_nat (length (decimal z))) in *.
  assert (Hd16 : d <= 16).
  { destruct (Z_le_gt_dec d 16) as [|Hgt]; [assumption |].
    assert (H16 : 10 ^ 16 <= 10 ^ (d - 1)) by (apply Z.pow_le_mono_r; lia).
    change (10 ^ 16) with 10000000000000000 in H16.
    change (2 ^ 53) with 9007199254740992 in Hz'. lia. }
  assert (Hd1 : 1 <= d).
  { destruct (Z_le_gt_dec 1 d) as [|Hgt]; [assumption |].
    assert (d = 0) by (unfold d in *; lia).
    replace d with 0 in Hd by lia. change (10 ^ Z.of_nat 0) with 1 in Hd.
    change (10 ^ 0) with 1 in Hd. lia. }
  destruct (shortest_found 17 z d 1 Hz' Hd ltac:(lia)) as [[[n k] s] E].
  rewrite E.
  destruct (shortest_sound _ _ _ _ _ _ _ E) as [Hk [Hn Hc]].
  destruct (candidate_some _ _ _ _ Hc) as [Hs Hr].
  assert (Hs0 : 0 < s).
  { assert (0 < 10 ^ (k - 1)) by (apply Z.pow_pos_nonneg; lia). lia. }
  assert (Hp : 0 < 10 ^ (n - k)) by (apply Z.pow_pos_nonneg; lia).
  apply represents_small in Hr; [| exact Hz' | nia].
  destruct (Z.leb_spec n 21); [| lia].
  rewrite <- decimal_trailing_zeros by exact Hs0.
  rewrite Z2Nat.id by lia. now rewrite Hr.
Qed.

(** ** The quotient and the remainder by sixty *)

Lemma floorNumber_Math_floor (x : float) (j : Z) :
  Math_floor x = Some j -> floorNumber x = Whole j.
Proof.
  unfold Math_floor, floorNumber, SFfloor.
  destruct (Prim2SF x); try discriminate; now intros [= <-].
Qed.

Lemma nonnegative_cases (time : float) (n : Z) :
  Math_floor time = Some n -> 0 <= n ->
  (exists s, Prim2SF time = S754_zero s /\ n = 0)
  \/ (exists m e, Prim2SF time = S754_finite false m e).
Proof.
  unfold Math_floor, SFfloor. destruct (Prim2SF time) as [s|s| |s m e]; try discriminate.
  - intros [= <-] _. left. now exists s.
  - intros [= <-] Hn. right. exists m, e. destruct s; [| reflexivity].
    exfalso. apply Z.shiftl_nonneg in Hn. cbn [cond_Zopp] in Hn. lia.
Qed.

Lemma sixty : Prim2SF 60%float = S754_finite false 8444249301319680 (-47).
Proof. reflexivity. Qed.

(** The floor of a number that lies between the rationals [j] and
    [j + 1]. *)
Lemma floorNumber_between (x : float) (j : Z) :
  finite x = true -> neg x = false ->
  (inject_Z j <= mag x < inject_Z j + 1)%Q ->
  floorNumber x = Whole j.
Proof.
  intros Fx Nx H. destruct (Math_floor_val x Fx) as [i [Ei Hi]].
  rewrite (val_nonneg x Nx) in Hi.
  apply floorNumber_Math_floor. rewrite Ei. f_equal.
  assert (H1 : (inject_Z i < inject_Z (j + 1))%Q)
    by (rewrite inject_Z_plus; change (inject_Z 1) with 1%Q; lra).
  assert (H2 : (inject_Z j < inject_Z (i + 1))%Q)
    by (rewrite inject_Z_plus; change (inject_Z 1) with 1%Q; lra).
  rewrite <- Zlt_Qlt in H1, H2. lia.
Qed.

(** [time % 60] of a positive number is exact, and its floor is the
    remainder of the floor of [time]. *)
Lemma remainder_floor (time : float) (n : Z) :
  Math_floor time = Some n -> 0 <= n ->
  floorNumber (Number_remainder time 60) = Whole (n mod 60).
Proof.
  intros En Hn.
  assert (Ft : finite time = true)
    by (unfold finite; unfold Math_floor, SFfloor in En;
        destruct (Prim2SF time); try discriminate; reflexivity).
  destruct (Math_floor_val time Ft) as [n' [En' Hv]].
  rewrite En in En'. injection En' as <-.
  destruct (nonnegative_cases time n En Hn) as [[s [Ez ->]] | [m [e Et]]].
  - unfold Number_remainder. rewrite sixty, Ez. cbn [SFrem].
    rewrite <- Ez, SF2Prim_Prim2SF. unfold floorNumber. now rewrite Ez.
  - pose proof (Prim2SF_valid time) as V. rewrite Et in V.
    apply valid_canonical in V. apply (canonical_bounds _ _ Hprec64) in V.
    destruct V as [He [Hm _]].
    change (SpecFloat.emin prec emax) with (-1074) in He.
    change (emax - prec) with 971 in He. change prec with 53 in Hm.
    assert (Nt : neg time = false) by (unfold neg; now rewrite Et).
    rewrite (val_nonneg time Nt) in Hv. unfold mag in Hv. rewrite Et in Hv.
    cbn [SFmag] in Hv.
    unfold Number_remainder. rewrite sixty, Et. cbn [SFrem]. cbv zeta.
    set (e0 := Z.min e (-47)).
    set (X := Zpos m * 2 ^ (e - e0)).
    set (Y := 8444249301319680 * 2 ^ (-47 - e0)).
    assert (He0 : -1074 <= e0 <= -47) by (unfold e0; lia).
    assert (HY : 0 < Y).
    { unfold Y. assert (0 < 2 ^ (-47 - e0)) by (apply Z.pow_pos_nonneg; lia). lia. }
    assert (HX : 0 < X).
    { unfold X. assert (0 < 2 ^ (e - e0)) by (apply Z.pow_pos_nonneg; unfold e0; lia). lia. }
    pose proof (Z.div_mod X Y ltac:(lia)) as Hdm.
    pose proof (Z.mod_pos_bound X Y HY) as Hr.
    assert (Hq : 0 <= X / Y) by (apply Z.div_pos; lia).
    set (r := X mod Y) in *. set (q := X / Y) in *.
    assert (Hr53 : r < 2 ^ 53).
    { destruct (Z_le_gt_dec (-47) e) as [Hge | Hlt].
      - assert (E0 : e0 = -47) by (unfold e0; lia).
        assert (EY : Y = 8444249301319680)
          by (unfold Y; rewrite E0; change (2 ^ (-47 - -47)) with 1; lia).
        change (2 ^ 53) with 9007199254740992. lia.
      - assert (E0 : e0 = e) by (unfold e0; lia).
        assert (EX : X = Zpos m) by (unfold X; rewrite E0, Z.sub_diag; change (2 ^ 0) with 1; lia).
        assert (r <= X) by (unfold r; apply Z.mod_le; lia). lia. }
    (* the values, all at the exponent e0 *)
    assert (VX : (dy X e0 == dy (Zpos m) e)%Q).
    { unfold X. rewrite dy_shift by (unfold e0; lia).
      replace (e0 + (e - e0)) with e by lia. reflexivity. }
    assert (VY : (dy Y e0 == 60)%Q).
    { unfold Y. rewrite dy_shift by lia.
      replace (e0 + (-47 - e0)) with (-47) by lia. reflexivity. }
    assert (Vsum : (dy X e0 == dy Y e0 * inject_Z q + dy r e0)%Q).
    { rewrite Hdm. unfold dy. rewrite inject_Z_plus, inject_Z_mult. ring. }
    assert (Vr : (0 <= dy r e0 < 60)%Q).
    { split; [apply dy_nonneg; lia |]. rewrite <- VY. apply dy_lt. lia. }
    assert (Hfloor : forall j, (inject_Z j <= dy r e0 < inject_Z j + 1)%Q -> j = n mod 60).
    { intros j Hj. rewrite VX, VY in Vsum.
      assert (H1 : (inject_Z (-1) < inject_Z j)%Q)
        by (change (inject_Z (-1)) with (-1)%Q; lra).
      assert (H2 : (inject_Z j < inject_Z 60)%Q)
        by (change (inject_Z 60) with 60%Q; lra).
      assert (H3 : (inject_Z (n - 60 * q) < inject_Z (j + 1))%Q).
      { unfold Zminus. rewrite !inject_Z_plus, inject_Z_opp, inject_Z_mult.
        change (inject_Z 60) with 60%Q. change (inject_Z 1) with 1%Q. lra. }
      assert (H4 : (inject_Z j < inject_Z (n - 60 * q + 1))%Q).
      { unfold Zminus. rewrite !inject_Z_plus, inject_Z_opp, inject_Z_mult.
        change (inject_Z 60) with 60%Q. change (inject_Z 1) with 1%Q. lra. }
      rewrite <- Zlt_Qlt in H1, H2, H3, H4.
      apply (Z.mod_unique n 60 q j); lia. }
    destruct (Z.eqb_spec r 0) as [Er | Hne].
    + unfold floorNumber. rewrite Prim2SF_SF2Prim by reflexivity.
      f_equal. apply Hfloor. rewrite Er.
      assert (E0 : (dy 0 e0 == 0)%Q) by (unfold dy; change (inject_Z 0) with 0%Q; ring).
      rewrite E0. change (inject_Z 0) with 0%Q. lra.
    + cbn [cond_Zopp].
      assert (Hr0 : 0 < r) by lia.
      destruct (binary_normalize_exact prec emax Hprec64 r e0 false r e0) as [F M].
      { change prec with 53. lia. }
      { change (SpecFloat.emin prec emax) with (-1074). change (emax - prec) with 971. lia. }
      { now rewrite Z.abs_eq by lia. }
      pose proof (binary_normalize_neg prec emax Hprec64 r e0) as N.
      destruct (Z.ltb_spec r 0); [lia |].
      assert (Hshape : exists m3 e3,
                 binary_normalize prec emax r e0 false = SFmake prec emax false m3 e3
                 /\ 0 <= m3 < 2 ^ prec /\ SpecFloat.emin prec emax <= e3).
      { destruct r as [|p|p]; try lia. cbn [binary_normalize].
        destruct (binary_round_shape prec emax Hprec64 false p e0) as [m3 [e3 [E [H3 [H4 _]]]]].
        exists m3, e3. split; [exact E | split; [exact H3 | exact H4]]. }
      destruct Hshape as [m3 [e3 [Es [Hm3 He3]]]].
      rewrite Es in *. unfold SFmake in *.
      change (SpecFloat.emin prec emax) with (-1074) in He3. change prec with 53 in Hm3.
      destruct m3 as [|p3|p3]; try discriminate.
      * exfalso. cbn [SFmag] in M.
        assert ((0 < dy r e0)%Q) by (apply dy_pos; lia). lra.
      * destruct (Z.leb_spec e3 (emax - prec)) as [Hle | Hgt]; try discriminate.
        change (emax - prec) with 971 in Hle.
        destruct (SF2Prim_finite false p3 e3 ltac:(lia) ltac:(lia)) as [F' [M' N']].
        cbn [SFmag] in M.
        pose proof (shiftl_floor r e0) as Hsf.
        rewrite <- (Hfloor (Z.shiftl r e0) Hsf).
        apply floorNumber_between; auto. lra.
Qed.

Lemma dy_Z (z : Z) : (dy z 0 == inject_Z z)%Q.
Proof. unfold dy. simpl. ring. Qed.

(** The number just below a positive integer [B <= 2^48]: its mantissa is
    full, and the gap to [B] is [2^(L - 53)] for [L] the least exponent with
    [B <= 2^L]. *)
Lemma integer_predecessor (B : Z) :
  1 <= B <= 2 ^ 48 ->
  let L := Z.log2_up B in
  let Kp := B * 2 ^ (53 - L) - 1 in
  0 <= L <= 48 /\ 2 ^ 52 <= Kp < 2 ^ 53
  /\ (dy (Kp + 1) (L - 53) == inject_Z B)%Q.
Proof.
  intros HB L Kp.
  assert (HL0 : 0 <= L) by apply Z.log2_up_nonneg.
  assert (HL48 : L <= 48) by (apply Z.log2_up_le_pow2; lia).
  assert (Hup : B <= 2 ^ L).
  { destruct (Z.eq_dec B 1) as [E | Hne].
    - unfold L. rewrite E. discriminate.
    - apply (Z.log2_up_spec B). lia. }
  assert (Hlow : B = 1 \/ (1 < B /\ 2 ^ (L - 1) < B)).
  { destruct (Z.eq_dec B 1) as [E | Hne]; [now left | right].
    split; [lia |].
    replace (L - 1) with (Z.pred L) by lia. apply (Z.log2_up_spec B). lia. }
  assert (Hp : 0 < 2 ^ (53 - L)) by (apply Z.pow_pos_nonneg; lia).
  assert (E53 : 2 ^ L * 2 ^ (53 - L) = 2 ^ 53).
  { rewrite <- Z.pow_add_r by lia. f_equal. lia. }
  split; [lia |]. split; [split |].
  - destruct Hlow as [E | [HB1 Hlt]].
    + assert (EL : L = 0) by (unfold L; rewrite E; reflexivity).
      unfold Kp. rewrite E, EL. discriminate.
    + assert (HL1 : 1 <= L).
      { destruct (Z.eq_dec L 0) as [E0 | ]; [| lia].
        rewrite E0 in Hup. change (2 ^ 0) with 1 in Hup. lia. }
      assert (E52 : 2 ^ (L - 1) * 2 ^ (53 - L) = 2 ^ 52).
      { rewrite <- Z.pow_add_r by lia. f_equal. lia. }
      unfold Kp. nia.
  - unfold Kp. nia.
  - unfold Kp. replace (B * 2 ^ (53 - L) - 1 + 1) with (B * 2 ^ (53 - L)) by lia.
    rewrite dy_shift by lia. replace (L - 53 + (53 - L)) with 0 by lia. apply dy_Z.
Qed.

(** [Math.floor(time / 60)] is the quotient of the floor of [time]: the
    rounding of the division does not reach the next integer. *)
Lemma division_floor (time : float) (n : Z) :
  Math_floor time = Some n -> 0 <= n < 2 ^ 53 ->
  floorNumber (time / 60) = Whole (n / 60).
Proof.
  intros En Hn.
  assert (Ft : finite time = true)
    by (unfold finite; unfold Math_floor, SFfloor in En;
        destruct (Prim2SF time); try discriminate; reflexivity).
  destruct (Math_floor_val time Ft) as [n' [En' Hv]].
  rewrite En in En'. injection En' as <-.
  assert (N60 : nonzero 60%float = true) by reflexivity.
  assert (M60 : (mag 60%float == 60)%Q) by reflexivity.
  assert (Ng60 : neg 60%float = false) by reflexivity.
  destruct (nonnegative_cases time n En ltac:(lia)) as [[s [Ez ->]] | [m [e Et]]].
  - assert (Mt : (mag time == 0)%Q) by (unfold mag; rewrite Ez; reflexivity).
    destruct (div_upper time 60%float 0 Ft N60 repr64_zero) as [Fq Mq]; [lra |].
    destruct (mag_zero_inv _ Fq Mq) as [s' Es].
    unfold floorNumber. now rewrite Es.
  - assert (Nt : neg time = false) by (unfold neg; now rewrite Et).
    rewrite (val_nonneg time Nt) in Hv.
    pose proof (mag_nonneg time) as HT0.
    set (T := mag time) in *.
    set (k := n / 60).
    pose proof (Z.div_mod n 60 ltac:(lia)) as Hdm.
    pose proof (Z.mod_pos_bound n 60 ltac:(lia)) as Hmb. fold k in Hdm.
    assert (Hk0 : 0 <= k) by (apply Z.div_pos; lia).
    change (2 ^ 53) with 9007199254740992 in Hn.
    assert (Hk : k <= 150119987579016) by lia.
    assert (HTlo : (inject_Z (60 * k) <= T)%Q).
    { assert ((inject_Z (60 * k) <= inject_Z n)%Q) by (rewrite <- Zle_Qle; lia). lra. }
    assert (HThi : (T < inject_Z (60 * (k + 1)))%Q).
    { assert ((inject_Z (n + 1) <= inject_Z (60 * (k + 1)))%Q) by (rewrite <- Zle_Qle; lia).
      rewrite inject_Z_plus in H. change (inject_Z 1) with 1%Q in H. lra. }
    rewrite inject_Z_mult in HTlo, HThi. change (inject_Z 60) with 60%Q in HTlo, HThi.
    (* the quotient is finite and not below k *)
    destruct (div_upper time 60%float (dy (2 ^ 52) 1) Ft N60) as [Fq _].
    { apply repr64_dy; [change (2 ^ 53) with 9007199254740992;
                        change (2 ^ 52) with 4503599627370496; lia | lia]. }
    { assert (E : (dy (2 ^ 52) 1 == inject_Z 9007199254740992)%Q) by reflexivity.
      assert ((inject_Z (n + 1) <= inject_Z 9007199254740992)%Q) by (rewrite <- Zle_Qle; lia).
      rewrite inject_Z_plus in H. change (inject_Z 1) with 1%Q in H.
      fold T. rewrite E, M60. lra. }
    assert (Nq : neg (time / 60)%float = false)
      by (rewrite div_neg, Nt, Ng60 by assumption; reflexivity).
    assert (Hlo : (inject_Z k <= mag (time / 60)%float)%Q).
    { apply div_lower; auto.
      - apply repr64_Z. change (2 ^ 53) with 9007199254740992. lia.
      - fold T. rewrite M60. lra. }
    (* the number just below k + 1 *)
    destruct (integer_predecessor (k + 1)) as [HL [HKp EB]].
    { change (2 ^ 48) with 281474976710656. lia. }
    set (L := Z.log2_up (k + 1)) in *.
    set (Kp := (k + 1) * 2 ^ (53 - L) - 1) in *.
    change (2 ^ 52) with 4503599627370496 in HKp.
    change (2 ^ 53) with 9007199254740992 in HKp.
    assert (Eg : (dy Kp (L - 53) == inject_Z (k + 1) - dy 1 (L - 53))%Q)
      by (rewrite <- EB, dy_succ; ring).
    assert (Hg : (0 < dy 1 (L - 53))%Q) by (apply dy_pos; lia).
    rewrite inject_Z_plus in *. change (inject_Z 1) with 1%Q in *.
    assert (Hup : (mag (time / 60)%float <= dy Kp (L - 53))%Q).
    { destruct (Qlt_le_dec (dy Kp (L - 53) * 60) T) as [Hgt | Hle].
      - (* the exact quotient is above the predecessor: the nearest number
           is the predecessor all the same *)
        set (Tq := (mag time / mag 60%float)%Q).
        assert (HTq : (Tq * 60 == T)%Q) by (unfold Tq, T; rewrite M60; field).
        assert (Hnear : (mag (time / 60)%float <= 2 * Tq - dy Kp (L - 53))%Q).
        { apply div_near_up; auto.
          - apply repr64_dy; [change (2 ^ 53) with 9007199254740992; lia | lia].
          - fold Tq. lra. }
        (* time is a multiple of 2^(L - 48) *)
        assert (Hlow52 : (2 ^ (52 + (L - 53)) <= dy Kp (L - 53))%Q).
        { apply dy_pow_lower; [lia |]. change (2 ^ 52) with 4503599627370496. lia. }
        assert (E2 : ((2:Q) ^ (L + 4) == 2 ^ (52 + (L - 53)) * 32)%Q).
        { replace (L + 4) with (52 + (L - 53) + 5) by lia. rewrite pow2_add. reflexivity. }
        assert (HTbig : (2 ^ (L + 4) < T)%Q) by lra.
        pose proof (Prim2SF_valid time) as V. rewrite Et in V.
        apply valid_canonical in V. apply (canonical_bounds _ _ Hprec64) in V.
        destruct V as [_ [Hm _]]. change prec with 53 in Hm.
        assert (ET : (T == dy (Zpos m) e)%Q) by (unfold T, mag; rewrite Et; reflexivity).
        assert (He : L - 48 <= e).
        { destruct (Z_le_gt_dec (L - 48) e) as [| Hlt]; [assumption | exfalso].
          assert (H1 : (dy (Zpos m) e < 2 ^ (53 + e))%Q) by (apply dy_pow_upper; lia).
          assert (H2 : (2 ^ (53 + e) <= 2 ^ (L + 4))%Q) by (apply pow2_le; lia).
          lra. }
        set (M := Zpos m * 2 ^ (e - (L - 48))).
        set (C := 60 * (k + 1) * 2 ^ (48 - L)).
        assert (EM : (dy M (L - 48) == T)%Q).
        { unfold M. rewrite dy_shift by lia.
          replace (L - 48 + (e - (L - 48))) with e by lia. now rewrite ET. }
        assert (EC : (dy C (L - 48) == 60 * (inject_Z k + 1))%Q).
        { unfold C. rewrite dy_shift by lia.
          replace (L - 48 + (48 - L)) with 0 by lia.
          rewrite dy_Z, inject_Z_mult, inject_Z_plus. reflexivity. }
        assert (HMC : M < C) by (apply (dy_lt_inv _ _ (L - 48)); rewrite EM, EC; lra).
        assert (HMC1 : (dy (M + 1) (L - 48) <= dy C (L - 48))%Q) by (apply dy_le; lia).
        rewrite dy_succ, EM, EC in HMC1.
        assert (EG : (dy 1 (L - 48) == 32 * dy 1 (L - 53))%Q).
        { replace (L - 48) with (L - 53 + 5) by lia.
          rewrite <- (dy_shift 1 (L - 53) 5) by lia. unfold dy.
          rewrite inject_Z_mult. change (inject_Z (2 ^ 5)) with 32%Q.
          change (inject_Z 1) with 1%Q. ring. }
        (* so the rounded quotient is below k + 1, hence at most the
           predecessor *)
        destruct (repr64_mag (time / 60)%float) as [K3 [e3 [HK3 [He3 E3]]]].
        rewrite E3 in *.
        apply (repr_below prec emax Hprec64); auto.
        + change (SpecFloat.emin prec emax) with (-1074). lia.
        + intros _. change (2 ^ (prec - 1)) with 4503599627370496. lia.
        + rewrite EB. lra.
      - apply div_upper; auto.
        + apply repr64_dy; [change (2 ^ 53) with 9007199254740992; lia | lia].
        + fold T. rewrite M60. lra. }
    apply floorNumber_between; auto. lra.
Qed.

(** ** The label of a position *)

Lemma decimal_two_digits (r : Z) :
  0 <= r < 100 ->
  padStart (decimal r) 2 "0"%char = [digit (r / 10); digit (r mod 10)].
Proof.
  intros Hr. rewrite decimal_unfold by lia.
  destruct (Z.ltb_spec r 10) as [Hlt | Hge].
  - rewrite Z.div_small, Z.mod_small by lia. reflexivity.
  - assert (Hq : 0 <= r / 10 < 10).
    { split; [apply Z.div_pos; lia | apply Z.div_lt_upper_bound; lia]. }
    rewrite (decimal_digit _ Hq). reflexivity.
Qed.

(** X18: a position of [n] whole seconds, [n] below 2^53, is shown as the
    minutes in decimal, a colon and the seconds in two digits; the
    fraction of a second is dropped and the rounding of the division by 60
    never shows a minute too many. *)
Theorem formatTime_minutes_seconds (time : float) (n : Z) :
  Math_floor time = Some n -> 0 <= n < 2 ^ 53 ->
  formatTime time
  = decimal (n / 60) ++ str ":" ++ [digit (n mod 60 / 10); digit (n mod 60 mod 10)].
Proof.
  intros En Hn.
  assert (Ft : finite time = true)
    by (unfold finite; unfold Math_floor, SFfloor in En;
        destruct (Prim2SF time); try discriminate; reflexivity).
  unfold formatTime, isNaN. rewrite (finite_not_nan time Ft). cbv zeta.
  rewrite (division_floor time n En Hn), (remainder_floor time n En ltac:(lia)).
  pose proof (Z.mod_pos_bound n 60 ltac:(lia)) as Hr.
  assert (Hq : 0 <= n / 60 < 2 ^ 53).
  { split; [apply Z.div_pos; lia |].
    apply Z.div_lt_upper_bound; [lia |].
    change (2 ^ 53) with 9007199254740992 in *. lia. }
  rewrite (Number_toString_small (n / 60) Hq).
  rewrite (Number_toString_small (n mod 60))
    by (change (2 ^ 53) with 9007199254740992; lia).
  rewrite decimal_two_digits by lia. reflexivity.
Qed.

Lemma formatTime_minutes_seconds_witness :
  formatTime 125.5%float
  = decimal (125 / 60) ++ str ":" ++ [digit (125 mod 60 / 10); digit (125 mod 60 mod 10)].
Proof.
  apply (formatTime_minutes_seconds 125.5%float 125).
  - reflexivity.
  - split; [discriminate | reflexivity].
Defined.

(** X19: a time that is not a finite number is not shown as a time: NaN
    gives "0:00", and an infinite duration gives "Infinity:NaN" (with a
    minus sign for minus infinity). *)
Theorem formatTime_not_finite (time : float) :
  finite time = false ->
  formatTime time
  = if PrimFloat.is_nan time then str "0:00"
    else (if neg time then str "-" else []) ++ str "Infinity:NaN".
Proof.
  intros Hf. unfold finite, neg in *.
  rewrite <- (SF2Prim_Prim2SF time).
  destruct (Prim2SF time) as [s|s| |s m e]; try discriminate.
  - destruct s; reflexivity.
  - reflexivity.
Qed.

Lemma formatTime_not_finite_witness :
  formatTime infinity
  = if PrimFloat.is_nan infinity then str "0:00"
    else (if neg infinity then str "-" else []) ++ str "Infinity:NaN".
Proof.
  apply (formatTime_not_finite infinity). reflexivity.
Defined.

(** ** The name of the downloaded file *)

Lemma digit_cases (d : Z) (P : ascii -> Prop) :
  0 <= d < 10 ->
  P "0"%char -> P "1"%char -> P "2"%char -> P "3"%char -> P "4"%char ->
  P "5"%char -> P "6"%char -> P "7"%char -> P "8"%char -> P "9"%char ->
  P (digit d).
Proof.
  intros Hd. intros.
  assert (H' : d = 0 \/ d = 1 \/ d = 2 \/ d = 3 \/ d = 4 \/ d = 5 \/ d = 6 \/ d = 7
               \/ d = 8 \/ d = 9) by lia.
  repeat (destruct H' as [-> | H']; [assumption |]). subst d. assumption.
Qed.

(** Induction on the digits of a natural number. *)
Lemma decimal_digits (P : JSString -> Prop) :
  (forall d, 0 <= d < 10 -> P [digit d]) ->
  (forall s d, P s -> 0 <= d < 10 -> P (s ++ [digit d])) ->
  forall z, 0 <= z -> P (decimal z).
Proof.
  intros H1 H2 z Hz. remember (Z.to_nat z) as b eqn:Eb.
  assert (Hb : (Z.to_nat z <= b)%nat) by lia. clear Eb.
  revert z Hz Hb. induction b as [|b IH]; intros z Hz Hb.
  - assert (z = 0) by lia. subst z. apply (H1 0). lia.
  - rewrite decimal_unfold by lia.
    destruct (Z.ltb_spec z 10) as [Hlt | Hge]; [apply H1; lia |].
    apply H2; [| apply Z.mod_pos_bound; lia].
    apply IH; [apply Z.div_pos; lia |].
    assert (z / 10 < z) by (apply Z.div_lt; lia). lia.
Qed.

Lemma decimal_plain (z : Z) :
  0 <= z ->
  existsb isWhiteSpace (decimal z) = false /\ toLowerCase (decimal z) = decimal z.
Proof.
  apply (decimal_digits
           (fun s => existsb isWhiteSpace s = false /\ toLowerCase s = s)).
  - intros d Hd. apply (digit_cases d (fun c => existsb isWhiteSpace [c] = false
                                               /\ toLowerCase [c] = [c]) Hd);
      split; reflexivity.
  - intros s d [Hs1 Hs2] Hd. rewrite existsb_app, toLowerCase_app, Hs1, Hs2.
    apply (digit_cases d (fun c => false || existsb isWhiteSpace [c] = false
                                   /\ s ++ toLowerCase [c] = s ++ [c]) Hd);
      split; reflexivity.
Qed.

Lemma replaceWhiteSpace_plain (inRun : bool) (s : JSString) :
  existsb isWhiteSpace (replaceWhiteSpace inRun s) = false.
Proof.
  revert inRun. induction s as [|c s IH]; intros inRun; [reflexivity |].
  cbn [replaceWhiteSpace]. destruct (isWhiteSpace c) eqn:Ec.
  - destruct inRun; [apply IH |]. cbn [existsb]. rewrite IH. reflexivity.
  - cbn [existsb]. now rewrite Ec, IH.
Qed.

Lemma existsb_toLowerCase (s : JSString) :
  existsb isWhiteSpace (toLowerCase s) = existsb isWhiteSpace s.
Proof.
  induction s as [|c s IH]; [reflexivity |].
  cbn [toLowerCase map existsb]. fold (toLowerCase s).
  now rewrite isWhiteSpace_toLowerUnit, IH.
Qed.

(** X20: the name of the downloaded file has no white space and no capital
    letter, whatever the name of the voice: it is "voice-", the voice name
    in lower case with each run of white space turned into one hyphen, a
    hyphen, the time in decimal, a dot and the format. *)
Theorem download_name_is_plain
  (audioUrl voiceName : JSString) (downloadFormat : DownloadFormat) (now : Z) :
  0 <= now < 2 ^ 53 ->
  let name := snd (handleDownload audioUrl voiceName downloadFormat now) in
  name = str "voice-" ++ toLowerCase (replaceWhiteSpace false voiceName)
         ++ str "-" ++ decimal now ++ str "." ++ formatName downloadFormat
  /\ existsb isWhiteSpace name = false
  /\ toLowerCase name = name.
Proof.
  intros Hnow name. unfold name, handleDownload, filename. cbn [snd].
  rewrite (Number_toString_small now Hnow).
  destruct (decimal_plain now ltac:(lia)) as [Hw Hl].
  split; [reflexivity |]. split.
  - rewrite !existsb_app, existsb_toLowerCase, replaceWhiteSpace_plain, Hw.
    destruct downloadFormat; reflexivity.
  - rewrite !toLowerCase_app, toLowerCase_idem, Hl.
    destruct downloadFormat; reflexivity.
Qed.

Lemma download_name_is_plain_witness :
  snd (handleDownload (str "blob:1") (str "Alex  Male") wav 1757829822723)
  = str "voice-" ++ toLowerCase (replaceWhiteSpace false (str "Alex  Male"))
    ++ str "-" ++ decimal 1757829822723 ++ str "." ++ formatName wav
  /\ existsb isWhiteSpace
       (snd (handleDownload (str "blob:1") (str "Alex  Male") wav 1757829822723)) = false
  /\ toLowerCase (snd (handleDownload (str "blob:1") (str "Alex  Male") wav 1757829822723))
     = snd (handleDownload (str "blob:1") (str "Alex  Male") wav 1757829822723).
Proof.
  apply (download_name_is_plain (str "blob:1") (str "Alex  Male") wav 1757829822723).
  split; [discriminate | reflexivity].
Defined.
